(** * afilecache: a file cache addressed by identifier

    A shallow embedding of [afilecache.c] and the properties its
    specification states about it.

    The repository holds two copies of the program.  They differ in
    [command_delete], whose two variants live in the modules [SrcCopy]
    (src/afilecache.c) and [SecondCopy] (the other copy, whose usage text
    documents the exit codes), and in two places that do not show here: the
    second copy aborts when a buffer length overflows [size_t] (lengths are
    unbounded integers in this embedding) and initialises the descriptors of
    [cp] (which matters only when [malloc] fails).  Messages written to the
    standard error stream are left out.

    Conventions of the embedding:
    - a C string is the [string] of the bytes before its terminating NUL;
    - [unsigned] is 32 bits wide and [unsigned long] 64 bits wide (LP64);
    - whether plain [char] is signed is implementation-defined in C, so the
      functions that depend on it take the flag [sg] ([true] = signed, as on
      x86 and x86-64; [false] = unsigned, as on ARM Linux);
    - memory allocation succeeds ([malloc]/[realloc] never return NULL);
    - the file system is a finite map from path strings to nodes; a path
      whose last component is empty, [.] or [..] names the directory before
      that component; links, and such components elsewhere in a path, are
      outside the model. *)

From Stdlib Require Import ZArith String Ascii List Lia Bool DecimalString.
From stdpp Require Import gmap strings list.

Local Open Scope Z_scope.

(** ** Characters and C integer conversions *)

(** A byte seen as [unsigned char]. *)
Definition byte_val (c : ascii) : Z := Z.of_N (N_of_ascii c).

(** A byte seen as plain [char]: negative from 128 upwards when [char] is
    signed. *)
Definition char_val (sg : bool) (c : ascii) : Z :=
  if sg && (128 <=? byte_val c) then byte_val c - 256 else byte_val c.

Definition UINT_WIDTH : Z := 32.
Definition ULONG_WIDTH : Z := 64.

(** Conversion of an [int] to [unsigned]: reduction modulo 2^32. *)
Definition to_unsigned (v : Z) : Z := v mod 2 ^ UINT_WIDTH.

(** Wrap-around of [unsigned long] arithmetic. *)
Definition wrap_ulong (v : Z) : Z := v mod 2 ^ ULONG_WIDTH.

(** Conversion of an integer to [unsigned char]. *)
Definition to_uchar (v : Z) : Z := v mod 256.

Definition ascii_of_Z (v : Z) : ascii := ascii_of_N (Z.to_N (v mod 256)).

(** The text [printf] produces for [%u]. *)
Definition print_u (v : Z) : string :=
  NilZero.string_of_uint (N.to_uint (Z.to_N v)).

(** [snprintf(esc, n, "%%%u", v)]: a percent sign and the decimal digits of
    [v], cut after [n - 1] characters to leave room for the terminator. *)
Definition snprintf_pct_u (n : nat) (v : Z) : string :=
  substring 0 (n - 1) (String "%" (print_u v)).

(** ** The growable string buffer *)

Record str_buffer_t := mk_str_buffer {
  buf_str : string;   (* the [len] bytes written so far *)
  buf_size : Z;       (* allocated capacity *)
  buf_len : Z
}.

Definition empty_buffer : str_buffer_t :=
  {| buf_str := ""; buf_size := 0; buf_len := 0 |}.

Definition strlen (s : string) : Z := Z.of_nat (String.length s).

Definition str_buffer_extend (buffer : str_buffer_t) (inc_len : Z) : str_buffer_t :=
  let new_len := buf_len buffer + inc_len in
  if (1 <? buf_size buffer) && (new_len <? buf_size buffer - 1) then buffer
  else {| buf_str := buf_str buffer;
          buf_size := new_len + 16 + new_len / 2;
          buf_len := buf_len buffer |}.

(** The argument is never the null pointer in this program. *)
Definition str_buffer_join (buffer : str_buffer_t) (s : string) : str_buffer_t :=
  let str_len := strlen s in
  let buffer := str_buffer_extend buffer str_len in
  {| buf_str := buf_str buffer +:+ s;
     buf_size := buf_size buffer;
     buf_len := buf_len buffer + str_len |}.

Definition str_buffer_join_char (buffer : str_buffer_t) (ch : ascii) : str_buffer_t :=
  let buffer := str_buffer_extend buffer 1 in
  {| buf_str := buf_str buffer +:+ String ch "";
     buf_size := buf_size buffer;
     buf_len := buf_len buffer + 1 |}.

(** ** Path joining *)

(** [buffer.str[i]]. *)
Definition buf_get (buffer : str_buffer_t) (i : Z) : option ascii :=
  String.get (Z.to_nat i) (buf_str buffer).

(** [s[0] != '/']; the first byte of an empty string is its terminator. *)
Definition first_not_slash (s : string) : bool :=
  match s with
  | EmptyString => true
  | String c _ => negb (Ascii.eqb c "/")
  end.

(** [buffer.str[buffer.len - 1] != '/'] *)
Definition last_not_slash (buffer : str_buffer_t) : bool :=
  match buf_get buffer (buf_len buffer - 1) with
  | Some c => negb (Ascii.eqb c "/")
  | None => true
  end.

(** One turn of the loop over the variable arguments. *)
Definition join_step (buffer : str_buffer_t) (s : string) : str_buffer_t :=
  let buffer :=
    if ((buf_len buffer =? 0) || last_not_slash buffer) && first_not_slash s
    then str_buffer_join buffer "/" else buffer in
  str_buffer_join buffer s.

(** [str_join_path(arg, s1, ..., sn, 0)]: [rest] lists the arguments before
    the terminating null pointer. *)
Definition str_join_path (arg : string) (rest : list string) : string :=
  buf_str (fold_left join_step rest (str_buffer_join empty_buffer arg)).

(** ** Exit codes *)

Definition RET_USAGE : Z := 1.
Definition RET_MISS : Z := 2.
Definition RET_INTERNAL : Z := 3.
Definition RET_NO_CACHE_DIR : Z := 4.
Definition RET_FILE_OPS : Z := 5.
Definition RET_LOCK : Z := 6.

(** ** Identifier encoder *)

(** The double quote character, code 34. *)
Definition dquote : ascii := ascii_of_nat 34.

(** The test guarding the escape branch of [encode_id]. *)
Definition needs_escape (sg : bool) (ch : ascii) : bool :=
  (char_val sg ch <? char_val sg " ")
  || Ascii.eqb ch "*" || Ascii.eqb ch "?" || Ascii.eqb ch "/"
  || Ascii.eqb ch "\" || Ascii.eqb ch dquote || Ascii.eqb ch "'"
  || Ascii.eqb ch "%".

Fixpoint encode_id_loop (sg : bool) (id : string) (buffer : str_buffer_t)
  : str_buffer_t :=
  match id with
  | EmptyString => buffer
  | String ch id' =>
      let buffer :=
        if needs_escape sg ch
        then str_buffer_join buffer
               (snprintf_pct_u 5 (to_unsigned (char_val sg ch)))
        else str_buffer_join_char buffer ch in
      encode_id_loop sg id' buffer
  end.

Definition encode_id (sg : bool) (id : string) : string :=
  buf_str (encode_id_loop sg id (str_buffer_extend empty_buffer (strlen id))).

(** ** Shard router *)

Definition subdir_base : Z := byte_val "z" - byte_val "a".

(** The [while] loop over the identifier, from accumulator value [s]. *)
Fixpoint subdir_hash (id : string) (s : Z) : Z :=
  match id with
  | EmptyString => s
  | String c id' =>
      let ch := byte_val c in
      let s1 := to_uchar (Z.shiftr s 24) in
      subdir_hash id' (wrap_ulong (wrap_ulong (Z.shiftl s 8) + Z.lxor ch s1))
  end.

(** The [for] loop filling [buf[0..n-1]]. *)
Fixpoint subdir_digits (n : nat) (s : Z) : string :=
  match n with
  | O => EmptyString
  | S n' =>
      String (ascii_of_Z (s mod subdir_base + byte_val "a"))
             (subdir_digits n' (s / subdir_base))
  end.

Definition get_subdir_for_id (id : string) : string :=
  subdir_digits 4 (subdir_hash id 0).

(** ** Path resolver *)

Record cache_entry_path_t := mk_cache_entry_path {
  dirname : string;
  filename : string;
  relpath : string;
  fullpath : string;
  dirfullpath : string
}.

Definition cache_id_to_path (sg : bool) (cache_path cache_id : string)
  : cache_entry_path_t :=
  let filename := encode_id sg cache_id in
  let dirname := get_subdir_for_id cache_id in
  let relpath := str_join_path dirname [filename] in
  {| dirname := dirname;
     filename := filename;
     relpath := relpath;
     fullpath := str_join_path cache_path [relpath];
     dirfullpath := str_join_path cache_path [dirname] |}.

Definition tmpfile_name : string := ".?tmpfile".

(** The staging path [command_put] builds from the shard directory. *)
Definition tmpfilename_of (cache_entry_path : cache_entry_path_t) : string :=
  str_join_path (dirfullpath cache_entry_path) [tmpfile_name].

(** ** The operating system as seen by one invocation

    The file system maps a path to the node found there.  Every system call
    consumes one choice of the environment: the call may fail for a reason
    the model does not track (permissions, I/O errors, a full disk, a
    signal), and a transfer may be short. *)

Inductive errno :=
  ENOENT | EEXIST | EINTR | EACCES | EISDIR | ENOTDIR | EIO | ENOSPC | EBADF
| EBUSY.

Global Instance errno_eq_dec : EqDecision errno.
Proof. solve_decision. Defined.

Inductive node :=
| File (data : list Byte.byte)
| Dir.

Inductive result (A : Type) :=
| Err (e : errno)
| Ok (a : A).
Arguments Err {A} e.
Arguments Ok {A} a.

Inductive env_choice :=
| Proceed               (* the outcome the file-system state dictates *)
| Failure (e : errno)   (* the call fails with [e] and changes nothing *)
| Short (k : nat).      (* a read or write moves at most [k] bytes *)

Record open_file := mk_open_file {
  of_path : string;
  of_pos : nat;
  of_writable : bool
}.

Inductive call :=
| CStat (p : string)
| CMkdir (p : string)
| CUnlink (p : string)
| COpenRead (p : string)
| COpenExcl (p : string)
| COpenLock (p : string)
| CRead (fd : nat)
| CWrite (fd : nat) (data : list Byte.byte)
| CClose (fd : nat)
| CRename (from to : string)
| CFlock (fd : nat).

(** One executed system call: what was called, whether it succeeded, and the
    file system right after it. *)
Record event := mk_event {
  ev_call : call;
  ev_ok : bool;
  ev_fs : gmap string node
}.

Record world := mk_world {
  w_fs : gmap string node;
  w_fds : gmap nat open_file;
  w_env : list env_choice;
  w_trace : list event
}.

(** The state of the kernel proper: files and descriptors. *)
Definition kstate : Type := gmap string node * gmap nat open_file.

Inductive outcome (A : Type) :=
| Done (a : A)
| Undefined          (* undefined behaviour was executed *)
| OutOfFuel.         (* the run was cut before it ended *)
Arguments Done {A} a.
Arguments Undefined {A}.
Arguments OutOfFuel {A}.

Definition M (A : Type) : Type := world -> outcome A * world.

Definition ret {A} (a : A) : M A := fun w => (Done a, w).

Definition bind {A B} (m : M A) (k : A -> M B) : M B :=
  fun w =>
    match m w with
    | (Done a, w') => k a w'
    | (Undefined, w') => (Undefined, w')
    | (OutOfFuel, w') => (OutOfFuel, w')
    end.

Definition undefined {A} : M A := fun w => (Undefined, w).
Definition out_of_fuel {A} : M A := fun w => (OutOfFuel, w).

Notation "'do' x <- m ; k" := (bind m (fun x => k))
  (at level 10, x name, m at level 100, k at level 200,
   format "'[v' 'do'  x  <-  m ; '/' k ']'").
Notation "'run' m ; k" := (bind m (fun _ => k))
  (at level 10, m at level 100, k at level 200,
   format "'[v' 'run'  m ; '/' k ']'").

Definition is_ok {A} (r : result A) : bool :=
  match r with Ok _ => true | Err _ => false end.

Definition next_choice (env : list env_choice) : env_choice * list env_choice :=
  match env with
  | [] => (Proceed, [])
  | c :: env' => (c, env')
  end.

(** Run one system call: take the environment's choice, apply the kernel
    semantics [sem], and record the event. *)
Definition syscall {A} (c : call)
    (sem : env_choice -> kstate -> result A * kstate) : M (result A) :=
  fun w =>
    let ch := (next_choice (w_env w)).1 in
    let rk := sem ch (w_fs w, w_fds w) in
    (Done rk.1,
     {| w_fs := rk.2.1; w_fds := rk.2.2; w_env := (next_choice (w_env w)).2;
        w_trace := w_trace w ++ [mk_event c (is_ok rk.1) rk.2.1] |}).

(** A kernel operation that is subject to spurious failure. *)
Definition faulty {A} (natural : kstate -> result A * kstate)
  : env_choice -> kstate -> result A * kstate :=
  fun ch k =>
    match ch with
    | Failure e => (Err e, k)
    | _ => natural k
    end.

Definition fresh_fd (fds : gmap nat open_file) : nat := fresh (dom fds).

(** *** The names of a directory

    A directory stored under [q] is also found under [q/.], under [q/] and,
    as the place where the directory above it is reached, under [q/..]:
    these paths name a directory exactly when [q] is one.  [main] accepts
    the identifiers [.] and [..] and [encode_id] passes them through
    unchanged, so the program itself builds entry paths of this kind.

    [stat] and [open(O_RDONLY)] find the directory through such a name.
    The calls that create, remove or replace a node ([mkdir] apart, which
    finds that the name exists) act on what is stored under the path they
    are given; the kernel refuses them on a name of a directory, which is
    one of the failures the environment may choose for the call. *)

(** The path cut at its last separator: what comes before it and the last
    component. *)
Fixpoint split_last (p : string) : option (string * string) :=
  match p with
  | EmptyString => None
  | String c p' =>
      match split_last p' with
      | Some (q, name) => Some (String c q, name)
      | None => if Ascii.eqb c "/" then Some (EmptyString, p') else None
      end
  end.

(** The last components that stand for a directory rather than name an
    entry of one: the empty one, [.] and [..]. *)
Definition dot_name (name : string) : bool :=
  String.eqb name "" || String.eqb name "." || String.eqb name "..".

(** The directory a path goes through when its last component is one of
    these. *)
Definition dot_dir (p : string) : option string :=
  match split_last p with
  | Some (q, name) => if dot_name name then Some q else None
  | None => None
  end.

(** The key of the node the kernel finds for [p]: [p] itself when a node is
    stored under it; else, for [q/.], [q/] and [q/..] with [q] a directory,
    the key [q] (for [q/..] it stands for the directory above [q], of which
    only the fact that it is a directory is ever used). *)
Definition resolve (fs : gmap string node) (p : string) : option string :=
  match fs !! p with
  | Some _ => Some p
  | None =>
      match dot_dir p with
      | Some q =>
          match fs !! q with
          | Some Dir => Some q
          | _ => None
          end
      | None => None
      end
  end.

(** What the kernel finds at [p]. *)
Definition node_at (fs : gmap string node) (p : string) : option node :=
  match resolve fs p with
  | Some key => fs !! key
  | None => None
  end.

(** Why nothing is found at [p]: a file stands where the path needs a
    directory, or nothing is there. *)
Definition lookup_errno (fs : gmap string node) (p : string) : errno :=
  match dot_dir p with
  | Some q =>
      match fs !! q with
      | Some (File _) => ENOTDIR
      | _ => ENOENT
      end
  | None => ENOENT
  end.

Definition stat_sem (p : string) : env_choice -> kstate -> result node * kstate :=
  faulty (fun k =>
    match node_at k.1 p with
    | None => (Err (lookup_errno k.1 p), k)
    | Some n => (Ok n, k)
    end).

Definition sys_stat (p : string) : M (result node) :=
  syscall (CStat p) (stat_sem p).

Definition S_ISDIR (n : node) : bool :=
  match n with Dir => true | File _ => false end.

(** Once [p] is made a directory, [node_at] finds a directory at [p/.],
    [p/] and [p/..] as well. *)
Definition mkdir_sem (p : string) : env_choice -> kstate -> result unit * kstate :=
  faulty (fun k =>
    match node_at k.1 p with
    | Some _ => (Err EEXIST, k)
    | None => (Ok tt, (<[p := Dir]> k.1, k.2))
    end).

Definition sys_mkdir (p : string) : M (result unit) :=
  syscall (CMkdir p) (mkdir_sem p).

Definition unlink_sem (p : string) : env_choice -> kstate -> result unit * kstate :=
  faulty (fun k =>
    match k.1 !! p with
    | None => (Err ENOENT, k)
    | Some Dir => (Err EISDIR, k)
    | Some (File _) => (Ok tt, (delete p k.1, k.2))
    end).

Definition sys_unlink (p : string) : M (result unit) :=
  syscall (CUnlink p) (unlink_sem p).

(** [open(p, O_RDONLY)]: the descriptor refers to the node found, a
    directory included (reading from it then fails). *)
Definition open_rdonly_sem (p : string)
  : env_choice -> kstate -> result nat * kstate :=
  faulty (fun k =>
    match resolve k.1 p with
    | None => (Err (lookup_errno k.1 p), k)
    | Some key =>
        let fd := fresh_fd k.2 in
        (Ok fd, (k.1, <[fd := mk_open_file key 0 false]> k.2))
    end).

Definition sys_open_rdonly (p : string) : M (result nat) :=
  syscall (COpenRead p) (open_rdonly_sem p).

(** [open(p, O_WRONLY | O_CREAT | O_EXCL, 0666)] *)
Definition open_excl_sem (p : string)
  : env_choice -> kstate -> result nat * kstate :=
  faulty (fun k =>
    match k.1 !! p with
    | Some _ => (Err EEXIST, k)
    | None =>
        let fd := fresh_fd k.2 in
        (Ok fd, (<[p := File []]> k.1, <[fd := mk_open_file p 0 true]> k.2))
    end).

Definition sys_open_excl (p : string) : M (result nat) :=
  syscall (COpenExcl p) (open_excl_sem p).

(** [open(p, O_WRONLY | O_APPEND | O_CREAT, 0666)] *)
Definition open_append_sem (p : string)
  : env_choice -> kstate -> result nat * kstate :=
  faulty (fun k =>
    let fd := fresh_fd k.2 in
    match k.1 !! p with
    | Some Dir => (Err EISDIR, k)
    | Some (File d) =>
        (Ok fd, (k.1, <[fd := mk_open_file p (length d) true]> k.2))
    | None =>
        (Ok fd, (<[p := File []]> k.1, <[fd := mk_open_file p 0 true]> k.2))
    end).

Definition sys_open_append (p : string) : M (result nat) :=
  syscall (COpenLock p) (open_append_sem p).

(** [read(fd, buf, n)]: the bytes read, none at end of file. *)
Definition read_sem (fd n : nat)
  : env_choice -> kstate -> result (list Byte.byte) * kstate :=
  fun ch k =>
    match ch with
    | Failure e => (Err e, k)
    | _ =>
        let want :=
          match ch with Short j => Nat.min n (Nat.max 1 j) | _ => n end in
        match k.2 !! fd with
        | None => (Err EBADF, k)
        | Some f =>
            match k.1 !! of_path f with
            | Some (File d) =>
                let chunk := take want (drop (of_pos f) d) in
                (Ok chunk,
                 (k.1,
                  <[fd := mk_open_file (of_path f) (of_pos f + length chunk)
                                       (of_writable f)]> k.2))
            | Some Dir => (Err EISDIR, k)
            | None => (Err EIO, k)
            end
        end
    end.

Definition sys_read (fd n : nat) : M (result (list Byte.byte)) :=
  syscall (CRead fd) (read_sem fd n).

(** [write(fd, ptr, n)] with [data] the [n] bytes at [ptr]: the count of
    bytes written. *)
Definition write_sem (fd : nat) (data : list Byte.byte)
  : env_choice -> kstate -> result nat * kstate :=
  fun ch k =>
    match ch with
    | Failure e => (Err e, k)
    | _ =>
        let want :=
          match ch with Short j => Nat.min (length data) j
                      | _ => length data end in
        match k.2 !! fd with
        | None => (Err EBADF, k)
        | Some f =>
            if of_writable f then
              match k.1 !! of_path f with
              | Some (File d) =>
                  let chunk := take want data in
                  let d' := take (of_pos f) d ++ chunk
                            ++ drop (of_pos f + length chunk) d in
                  (Ok (length chunk),
                   (<[of_path f := File d']> k.1,
                    <[fd := mk_open_file (of_path f) (of_pos f + length chunk)
                                         true]> k.2))
              | _ => (Err EIO, k)
              end
            else (Err EBADF, k)
        end
    end.

Definition sys_write (fd : nat) (data : list Byte.byte) : M (result nat) :=
  syscall (CWrite fd data) (write_sem fd data).

Definition close_sem (fd : nat) : env_choice -> kstate -> result unit * kstate :=
  fun ch k =>
    match ch with
    | Failure e => (Err e, (k.1, delete fd k.2))
    | _ =>
        match k.2 !! fd with
        | None => (Err EBADF, k)
        | Some _ => (Ok tt, (k.1, delete fd k.2))
        end
    end.

Definition sys_close (fd : nat) : M (result unit) :=
  syscall (CClose fd) (close_sem fd).

(** [rename(from, to)]: one step that moves the node at [from] onto [to]. *)
Definition rename_sem (from to : string)
  : env_choice -> kstate -> result unit * kstate :=
  faulty (fun k =>
    match k.1 !! from with
    | None => (Err ENOENT, k)
    | Some n =>
        match k.1 !! to with
        | Some Dir => (Err EISDIR, k)
        | _ => (Ok tt, (<[to := n]> (delete from k.1), k.2))
        end
    end).

Definition sys_rename (from to : string) : M (result unit) :=
  syscall (CRename from to) (rename_sem from to).

(** [flock(fd, LOCK_EX)] in a run with no competing holder. *)
Definition flock_sem (fd : nat) : env_choice -> kstate -> result unit * kstate :=
  faulty (fun k =>
    match k.2 !! fd with
    | None => (Err EBADF, k)
    | Some _ => (Ok tt, k)
    end).

Definition sys_flock (fd : nat) : M (result unit) :=
  syscall (CFlock fd) (flock_sem fd).

(** ** The copy primitive *)

Definition cp_buf_size : nat := 4096 * 64.

(** The code at label [out_error]: close what is open and report failure.
    [fd_to] is [None] when the destination is not open. *)
Definition cp_out_error (fd_from : nat) (fd_to : option nat) : M Z :=
  run sys_close fd_from;
  match fd_to with
  | Some fd => run sys_close fd; ret (-1)
  | None => ret (-1)
  end.

(** The inner [do ... while (nread > 0)] loop: [pending] holds the [nread]
    bytes at [out_ptr].  Answers [true] once all of them are written and
    [false] where the code jumps to [out_error]. *)
Fixpoint cp_write_all (fuel : nat) (fd_to : nat) (pending : list Byte.byte)
  : M bool :=
  match fuel with
  | O => out_of_fuel
  | S fuel' =>
      do r <- sys_write fd_to pending;
      match r with
      | Ok nwritten =>
          let pending' := drop nwritten pending in
          if (0 <? length pending')%nat
          then cp_write_all fuel' fd_to pending'
          else ret true
      | Err e =>
          if decide (e = EINTR)
          then cp_write_all fuel' fd_to pending
          else ret false
      end
  end.

(** The outer [while] loop and what follows it. *)
Fixpoint cp_loop (fuel : nat) (fd_to fd_from : nat) : M Z :=
  match fuel with
  | O => out_of_fuel
  | S fuel' =>
      do r <- sys_read fd_from cp_buf_size;
      match r with
      | Ok chunk =>
          if (0 <? length chunk)%nat then
            do written <- cp_write_all fuel' fd_to chunk;
            if written then cp_loop fuel' fd_to fd_from
            else cp_out_error fd_from (Some fd_to)
          else
            (* nread == 0 *)
            do c <- sys_close fd_to;
            match c with
            | Err _ => cp_out_error fd_from None
            | Ok _ => run sys_close fd_from; ret 0
            end
      | Err _ => cp_out_error fd_from (Some fd_to)
      end
  end.

Definition cp (fuel : nat) (to from : string) : M Z :=
  do fd_from <- sys_open_rdonly from;
  match fd_from with
  | Err _ => ret (-1)
  | Ok fd_from =>
      do fd_to <- sys_open_excl to;
      match fd_to with
      | Err _ => cp_out_error fd_from None
      | Ok fd_to => cp_loop fuel fd_to fd_from
      end
  end.

(** ** Entry operations *)

Section Commands.

Variable sg : bool.

(** The commit step of [command_put]. *)
Definition command_put_commit (tmpfilename : string)
    (cache_entry_path : cache_entry_path_t) : M Z :=
  do r <- sys_rename tmpfilename (fullpath cache_entry_path);
  match r with
  | Err _ => ret RET_FILE_OPS
  | Ok _ => ret 0
  end.

(** [command_put] from the copy into the temporary file onwards. *)
Definition command_put_copy (fuel : nat) (tmpfilename : string)
    (cache_entry_path : cache_entry_path_t) (source_file_path : string) : M Z :=
  do c <- cp fuel tmpfilename source_file_path;
  if c <? 0 then ret RET_FILE_OPS
  else command_put_commit tmpfilename cache_entry_path.

(** [command_put] once the shard directory is known to exist. *)
Definition command_put_stage (fuel : nat)
    (cache_entry_path : cache_entry_path_t) (source_file_path : string) : M Z :=
  let tmpfilename := tmpfilename_of cache_entry_path in
  do u <- sys_unlink tmpfilename;
  match u with
  | Err e =>
      if decide (e = ENOENT)
      then command_put_copy fuel tmpfilename cache_entry_path source_file_path
      else ret RET_FILE_OPS
  | Ok _ =>
      command_put_copy fuel tmpfilename cache_entry_path source_file_path
  end.

Definition command_put (fuel : nat)
    (cache_path cache_id source_file_path : string) : M Z :=
  let cache_entry_path := cache_id_to_path sg cache_path cache_id in
  do st <- sys_stat (dirfullpath cache_entry_path);
  match st with
  | Err _ =>
      do mk <- sys_mkdir (dirfullpath cache_entry_path);
      match mk with
      | Err _ => ret RET_FILE_OPS
      | Ok _ => command_put_stage fuel cache_entry_path source_file_path
      end
  | Ok stat_buf =>
      if negb (S_ISDIR stat_buf) then ret RET_FILE_OPS
      else command_put_stage fuel cache_entry_path source_file_path
  end.

(** [command_get] from the copy out of the cache onwards. *)
Definition command_get_copy (fuel : nat)
    (cache_entry_path : cache_entry_path_t) (source_file_path : string) : M Z :=
  do c <- cp fuel source_file_path (fullpath cache_entry_path);
  if c <? 0 then run sys_unlink source_file_path; ret RET_FILE_OPS
  else ret 0.

Definition command_get (fuel : nat)
    (cache_path cache_id source_file_path : string) : M Z :=
  let cache_entry_path := cache_id_to_path sg cache_path cache_id in
  do st <- sys_stat (fullpath cache_entry_path);
  match st with
  | Err _ => ret RET_MISS
  | Ok _ =>
      do u <- sys_unlink source_file_path;
      match u with
      | Err e =>
          if decide (e = ENOENT)
          then command_get_copy fuel cache_entry_path source_file_path
          else ret RET_FILE_OPS
      | Ok _ => command_get_copy fuel cache_entry_path source_file_path
      end
  end.

Definition command_clean (cache_path : string) (max_size_mb : Z) : M Z :=
  ret RET_INTERNAL.

(** *** Command line *)

Definition nonempty (s : string) : bool :=
  match s with EmptyString => false | String _ _ => true end.

Definition is_space (c : ascii) : bool :=
  Ascii.eqb c " " || ((9 <=? byte_val c) && (byte_val c <=? 13)).

Definition is_digit (c : ascii) : bool :=
  (byte_val "0" <=? byte_val c) && (byte_val c <=? byte_val "9").

Fixpoint skip_space (s : string) : string :=
  match s with
  | String c s' => if is_space c then skip_space s' else s
  | EmptyString => s
  end.

Fixpoint atoi_digits (s : string) (acc : Z) : Z :=
  match s with
  | String c s' =>
      if is_digit c then atoi_digits s' (acc * 10 + (byte_val c - byte_val "0"))
      else acc
  | EmptyString => acc
  end.

(** [atoi(p)]; [None] is the null pointer, which [atoi] may not be given. *)
Definition atoi (p : option string) : M Z :=
  match p with
  | None => undefined
  | Some s =>
      match skip_space s with
      | String "-" s' => ret (- atoi_digits s' 0)
      | String "+" s' => ret (atoi_digits s' 0)
      | s' => ret (atoi_digits s' 0)
      end
  end.

(** [main] below the parsing of the command line.  [command_delete] is the
    one function on which the two copies of the program differ. *)
Definition main_dispatch (command_delete : string -> string -> M Z)
    (fuel : nat) (cache_path command cache_id source_file_path : string)
    (max_size_mb : Z) : M Z :=
  do st <- sys_stat cache_path;
  match st with
  | Err _ => ret RET_NO_CACHE_DIR
  | Ok stat_buf =>
      if negb (S_ISDIR stat_buf) then ret RET_NO_CACHE_DIR else
      let lock_path := str_join_path cache_path [".lock"] in
      do lock_fd <- sys_open_append lock_path;
      match lock_fd with
      | Err _ => ret RET_FILE_OPS
      | Ok lock_fd =>
          do l <- sys_flock lock_fd;
          match l with
          | Err _ => ret RET_LOCK
          | Ok _ =>
              if String.eqb command "put" then
                command_put fuel cache_path cache_id source_file_path
              else if String.eqb command "get" then
                command_get fuel cache_path cache_id source_file_path
              else if String.eqb command "delete" then
                command_delete cache_path cache_id
              else if String.eqb command "clean" then
                command_clean cache_path max_size_mb
              else ret RET_INTERNAL
          end
      end
  end.

(** [main(argc, argv)] with [argc = length argv]; [argv !! i] is [None] at
    [i = argc], where the C array holds its terminating null pointer. *)
Definition main_with (command_delete : string -> string -> M Z)
    (fuel : nat) (argv : list string) : M Z :=
  let argc := length argv in
  if negb (3 <=? argc)%nat then ret RET_USAGE else
  match argv !! 1%nat, argv !! 2%nat with
  | Some cache_path, Some command =>
      if negb (nonempty cache_path && nonempty command) then ret RET_USAGE else
      if String.eqb command "put" || String.eqb command "get" then
        if negb (argc =? 5)%nat then ret RET_USAGE else
        match argv !! 3%nat, argv !! 4%nat with
        | Some cache_id, Some source_file_path =>
            if negb (nonempty source_file_path && nonempty cache_id)
            then ret RET_USAGE
            else main_dispatch command_delete fuel cache_path command
                   cache_id source_file_path 0
        | _, _ => undefined
        end
      else if String.eqb command "delete" then
        if negb (argc =? 4)%nat then ret RET_USAGE else
        match argv !! 3%nat with
        | Some cache_id =>
            if negb (nonempty cache_id) then ret RET_USAGE
            else main_dispatch command_delete fuel cache_path command
                   cache_id "" 0
        | None => undefined
        end
      else if String.eqb command "clean" then
        if negb (argc =? 4)%nat then ret RET_USAGE else
        do max_size_mb <- atoi (argv !! 4%nat);
        main_dispatch command_delete fuel cache_path command "" "" max_size_mb
      else ret RET_USAGE
  | _, _ => undefined
  end.

End Commands.

(** *** The two variants of [command_delete] *)

Module SrcCopy.

(** src/afilecache.c *)
Definition command_delete (sg : bool) (cache_path cache_id : string) : M Z :=
  let cache_entry_path := cache_id_to_path sg cache_path cache_id in
  do u <- sys_unlink (fullpath cache_entry_path);
  match u with
  | Err e => if decide (e = ENOENT) then ret 0 else ret RET_FILE_OPS
  | Ok _ => ret 0
  end.

Definition main (sg : bool) : nat -> list string -> M Z :=
  main_with sg (command_delete sg).

End SrcCopy.

Module SecondCopy.

(** the copy with the documented exit codes *)
Definition command_delete (sg : bool) (cache_path cache_id : string) : M Z :=
  let cache_entry_path := cache_id_to_path sg cache_path cache_id in
  do u <- sys_unlink (fullpath cache_entry_path);
  match u with
  | Err e => if decide (e = ENOENT) then ret RET_MISS else ret RET_FILE_OPS
  | Ok _ => ret 0
  end.

Definition main (sg : bool) : nat -> list string -> M Z :=
  main_with sg (command_delete sg).

End SecondCopy.

Definition initial_world (fs : gmap string node) (env : list env_choice) : world :=
  {| w_fs := fs; w_fds := ∅; w_env := env; w_trace := [] |}.

(** A cache root [/c] with no entry, and a file to store. *)
Definition sample_fs : gmap string node :=
  {[ "/c" := Dir; "/tmp/f" := File (list_byte_of_string "payload") ]}.

(** ** Vocabulary of the specification *)

(** What [encode_id] does with one byte. *)
Definition escape_char (sg : bool) (ch : ascii) : string :=
  if needs_escape sg ch
  then snprintf_pct_u 5 (to_unsigned (char_val sg ch))
  else String ch "".

(** The bytes the specification names: control characters (below the space
    character) and the reserved characters. *)
Definition reserved_or_control (c : ascii) : bool :=
  (byte_val c <? 32)
  || existsb (Ascii.eqb c) ["*"; "?"; "/"; "\"; dquote; "'"; "%"]%char.

(** The replacement the specification gives for a byte: itself, or a percent
    sign and the full decimal value. *)
Definition spec_escape (c : ascii) : string :=
  if reserved_or_control c then String "%" (print_u (byte_val c))
  else String c "".

(** The encoder as the specification describes it, byte by byte. *)
Fixpoint spec_encode (id : string) : string :=
  match id with
  | EmptyString => ""
  | String c id' => spec_escape c +:+ spec_encode id'
  end.

Fixpoint str_mem (c : ascii) (s : string) : bool :=
  match s with
  | EmptyString => false
  | String d s' => Ascii.eqb c d || str_mem c s'
  end.

Fixpoint str_all (P : ascii -> bool) (s : string) : bool :=
  match s with
  | EmptyString => true
  | String c s' => P c && str_all P s'
  end.

Definition seven_bit (c : ascii) : bool := byte_val c <? 128.

(** The bytes on which the sign of [char] plays no part: all of them where
    [char] is unsigned, those below 128 where it is signed. *)
Definition sign_free (sg : bool) (c : ascii) : bool := negb sg || seven_bit c.

(** *** Identifiers that can be read back

    An escape has as many digits as the value of the byte, and nothing ends
    it, so the escape of one of the bytes 1 to 9 followed by a digit may
    read as the escape of another byte. *)

Definition digit_val (c : ascii) : Z := byte_val c - byte_val "0".

(** The byte whose value is written with the digit of [c] followed by the
    digit [d]. *)
Definition merged (c d : ascii) : ascii :=
  ascii_of_Z (10 * byte_val c + digit_val d).

(** The escape of [c] followed by the character [d] reads as the escape of
    one byte: the escape of [c] has one digit and no leading zero ([c] is
    one of the bytes 1 to 9), [d] is a digit, and the two digits are the
    value of a control or reserved byte. *)
Definition merges (c d : ascii) : bool :=
  (1 <=? byte_val c) && (byte_val c <=? 9) && is_digit d
  && reserved_or_control (merged c d).

Definition merges_next (c : ascii) (rest : string) : bool :=
  match rest with
  | String d _ => merges c d
  | EmptyString => false
  end.

(** No byte of the identifier merges with the byte that follows it. *)
Fixpoint unambiguous (id : string) : bool :=
  match id with
  | EmptyString => true
  | String c id' => negb (merges_next c id') && unambiguous id'
  end.

(** The identifiers on which the encoding loses nothing: the sign of [char]
    plays no part in their bytes, and no escape merges with a digit. *)
Definition decodable (sg : bool) (id : string) : bool :=
  str_all (sign_free sg) id && unambiguous id.

(** A reader of encoded names; the program itself never decodes.  After a
    percent sign it takes two digits where they are the value of a control
    or reserved byte that is written with two digits, and one digit
    otherwise. *)
Fixpoint decode (s : string) : string :=
  match s with
  | EmptyString => EmptyString
  | String c s1 =>
      if Ascii.eqb c "%" then
        match s1 with
        | String d1 s2 =>
            let b := ascii_of_Z (digit_val d1) in
            match s2 with
            | String d2 s3 =>
                if merges b d2 then String (merged b d2) (decode s3)
                else String b (decode s2)
            | EmptyString => String b EmptyString
            end
        | EmptyString => String c EmptyString
        end
      else String c (decode s1)
  end.

(** The identifier with the same encoded name in which nothing is left to
    merge: a byte and the digit it merges with are replaced by the byte
    they read as, and a byte on which the sign of [char] plays a part, whose
    escape is cut to [%429], by the two bytes with that encoded form. *)
Fixpoint merge_escapes (sg : bool) (id : string) : string :=
  match id with
  | EmptyString => EmptyString
  | String c id' =>
      if sign_free sg c then
        match id' with
        | String d id'' =>
            if merges c d then String (merged c d) (merge_escapes sg id'')
            else String c (merge_escapes sg id')
        | EmptyString => String c EmptyString
        end
      else String "*" (String "9" (merge_escapes sg id'))
  end.

(** All bytes, for properties that are settled by going through them. *)
Definition all_bytes : list ascii := ascii_of_nat <$> seq 0 256.

(** *** Shard names, in the words of the specification *)

Definition id_bytes (id : string) : list Z :=
  byte_val <$> list_ascii_of_string id.

(** The accumulator as the specification words it: the byte is combined with
    the top 8 bits of the 64-bit accumulator. *)
Definition acc_step_top8 (s b : Z) : Z :=
  (s * 2 ^ 8 + Z.lxor b (s / 2 ^ 56)) mod 2 ^ 64.

(** The accumulator with the byte combined with bits 24 to 31. *)
Definition acc_step_bits24 (s b : Z) : Z :=
  (s * 2 ^ 8 + Z.lxor b ((s / 2 ^ 24) mod 2 ^ 8)) mod 2 ^ 64.

Definition shard_letter (r : Z) : ascii := ascii_of_nat (Z.to_nat (97 + r)).

(** Four letters, least significant base-25 digit first. *)
Definition shard_name (acc : Z) : string :=
  string_of_list_ascii
    ((fun i => shard_letter ((acc / 25 ^ i) mod 25)) <$> [0; 1; 2; 3]).

Definition shard_spec_top8 (id : string) : string :=
  shard_name (fold_left acc_step_top8 (id_bytes id) 0).

Definition shard_spec_bits24 (id : string) : string :=
  shard_name (fold_left acc_step_bits24 (id_bytes id) 0).

(** *** Separators at the junction of two path components *)

Fixpoint slashes (n : nat) : string :=
  match n with
  | O => ""
  | S n' => String "/" (slashes n')
  end.

Fixpoint strip_leading (s : string) : string :=
  match s with
  | String c s' => if Ascii.eqb c "/" then strip_leading s' else s
  | EmptyString => s
  end.

Fixpoint count_leading (s : string) : nat :=
  match s with
  | String c s' => if Ascii.eqb c "/" then S (count_leading s') else O
  | EmptyString => O
  end.

Fixpoint strip_trailing (s : string) : string :=
  match s with
  | EmptyString => ""
  | String c s' =>
      match strip_trailing s' with
      | EmptyString => if Ascii.eqb c "/" then "" else String c ""
      | t => String c t
      end
  end.

Definition count_trailing (s : string) : nat :=
  (String.length s - String.length (strip_trailing s))%nat.

Fixpoint last_char (s : string) : option ascii :=
  match s with
  | EmptyString => None
  | String c s' =>
      match s' with
      | EmptyString => Some c
      | String _ _ => last_char s'
      end
  end.

Definition ends_with_slash (s : string) : bool :=
  match last_char s with
  | Some c => Ascii.eqb c "/"
  | None => false
  end.

Definition begins_with_slash (s : string) : bool :=
  match s with
  | String c _ => Ascii.eqb c "/"
  | EmptyString => false
  end.

(** How many separators end up between the components: those the operands
    bring, or the single one that is inserted when they bring none. *)
Definition junction (a b : string) : nat :=
  match (count_trailing a + count_leading b)%nat with
  | O => 1%nat
  | n => n
  end.

(** The two components with exactly one separator between them. *)
Definition joined_by_one (a b : string) : string :=
  strip_trailing a +:+ "/" +:+ strip_leading b.

(** *** The entry path across a run *)

Definition is_dot (c : ascii) : bool := Ascii.eqb c ".".

(** No descriptor open for writing refers to [q]. *)
Definition no_writer (q : string) (fds : gmap nat open_file) : Prop :=
  map_Forall (fun _ f => of_writable f = true -> of_path f <> q) fds.

(** Every state recorded in [evs] holds [v] at [q]. *)
Definition untouched (q : string) (v : option node) (evs : list event) : Prop :=
  Forall (fun e => ev_fs e !! q = v) evs.

(** From [w] to [w'] the path [q] kept its content, at every step. *)
Definition stable (q : string) (w w' : world) : Prop :=
  no_writer q (w_fds w')
  /\ w_fs w' !! q = w_fs w !! q
  /\ exists evs, w_trace w' = w_trace w ++ evs
                 /\ untouched q (w_fs w !! q) evs.

(** The kernel operation [sem] leaves alone what is stored under [q]; for
    a path whose last component names an entry this is what the kernel
    finds at [q]. *)
Definition frames {A} (q : string)
    (sem : env_choice -> kstate -> result A * kstate) : Prop :=
  forall ch fs fds,
    no_writer q fds ->
    (sem ch (fs, fds)).2.1 !! q = fs !! q
    /\ no_writer q (sem ch (fs, fds)).2.2.

(** The run [m] never changes what is stored at [q]. *)
Definition preserves {A} (q : string) (m : M A) : Prop :=
  forall w, no_writer q (w_fds w) -> stable q w (m w).2.

(** The event of a successful [rename(tmp, q)]. *)
Definition is_commit (tmp q : string) (e : event) : Prop :=
  ev_call e = CRename tmp q /\ ev_ok e = true.

(** What a run of [command_put] from [w] may amount to, for entry path [q]
    and staging path [tmp], when it ends in [w'] with result [r]: either [q]
    was never changed and the result is not success, or the one change is
    the final, successful rename. *)
Definition put_outcome (tmp q : string) (w : world) (r : outcome Z) (w' : world)
  : Prop :=
  exists evs,
    w_trace w' = w_trace w ++ evs
    /\ ((untouched q (w_fs w !! q) evs
         /\ w_fs w' !! q = w_fs w !! q
         /\ r <> Done 0)
        \/ (exists evs0 e,
              evs = evs0 ++ [e]
              /\ untouched q (w_fs w !! q) evs0
              /\ is_commit tmp q e
              /\ w_fs w' = ev_fs e
              /\ r = Done 0)).

Definition commits (tmp q : string) (m : M Z) : Prop :=
  forall w, no_writer q (w_fds w) -> put_outcome tmp q w (m w).1 (m w).2.

(** The environment fails no call for a reason of its own. *)
Definition undisturbed (env : list env_choice) : Prop :=
  Forall (fun c => forall e, c <> Failure e) env.

(** *** Partial correctness of runs *)

(** [triple P m Q]: from a kernel state satisfying [P], a run of [m] that
    ends with a result [a] ends in a kernel state satisfying [Q a]. *)
Definition triple {A} (P : gmap string node -> gmap nat open_file -> Prop)
    (m : M A) (Q : A -> gmap string node -> gmap nat open_file -> Prop) : Prop :=
  forall w,
    P (w_fs w) (w_fds w) ->
    match m w with
    | (Done a, w') => Q a (w_fs w') (w_fds w')
    | _ => True
    end.



Ltac ascii_cases c := destruct c as [[] [] [] [] [] [] [] []].

(** Settle a goal about one concrete byte by evaluation, after dropping the
    cases a hypothesis rules out. *)
Ltac by_evaluation :=
  intros;
  repeat match goal with
         | H : _ = true |- _ => vm_compute in H; try discriminate H; clear H
         | H : _ = false |- _ => vm_compute in H; try discriminate H; clear H
         end;
  vm_compute; reflexivity.

(** ** Further vocabulary *)

(** The buffer's length field counts its bytes. *)
Definition buffer_consistent (b : str_buffer_t) : Prop :=
  buf_len b = strlen (buf_str b).

(** The bytes and the terminator that follows them fit the allocation. *)
Definition buffer_fits (b : str_buffer_t) : Prop :=
  buffer_consistent b /\ buf_len b < buf_size b.

(** The lengths up to which the [int] arithmetic of [str_buffer_extend]
    cannot overflow: one and a half times the length, and 16, stay below
    2^31. *)
Definition BUFFER_RANGE : Z := 2 ^ 30.

(** A byte that is neither a control character nor one of the characters
    with a meaning to the shell or the file system that [encode_id] tests
    for (the percent sign is left in: it introduces the escapes). *)
Definition safe_char (c : ascii) : bool :=
  negb (byte_val c <? 32)
  && negb (existsb (Ascii.eqb c) ["*"; "?"; "/"; "\"; dquote; "'"]%char).

(** Joining one component at a time. *)
Definition join_one_by_one (arg : string) (rest : list string) : string :=
  fold_left (fun acc s => str_join_path acc [s]) rest arg.

(** The separator put after the cache root. *)
Definition root_separator (cache_path : string) : string :=
  if ends_with_slash cache_path then "" else "/".

(** *** Copies, state by state *)

(** The kernel state in the middle of a copy that started from the files
    [fs0] and the descriptors [fds0]: the destination, which did not exist,
    holds [written], and the source is read next at [pos]. *)
Definition cp_state (fs0 : gmap string node) (fds0 : gmap nat open_file)
    (from to : string) (fd_from fd_to : nat) (pos : nat)
    (written : list Byte.byte)
    (fs : gmap string node) (fds : gmap nat open_file) : Prop :=
  fs = <[to := File written]> fs0
  /\ fds = <[fd_to := mk_open_file to (length written) true]>
             (<[fd_from := mk_open_file from pos false]> fds0).

(** What a copy that answered [r] has made of the files [fs0] and the
    descriptors [fds0]. *)
Definition cp_result (fs0 : gmap string node) (fds0 : gmap nat open_file)
    (to from : string) (r : Z)
    (fs : gmap string node) (fds : gmap nat open_file) : Prop :=
  fds = fds0
  /\ ((r = 0
       /\ exists d, fs0 !! from = Some (File d) /\ fs0 !! to = None
                    /\ fs = <[to := File d]> fs0)
      \/ (r = -1
          /\ (fs = fs0
              \/ (fs0 !! to = None
                  /\ exists part,
                       fs = <[to := File part]> fs0
                       /\ forall d, fs0 !! from = Some (File d) ->
                                    part `prefix_of` d)))).

(** *** Runs that end *)

(** The environment fails no call and holds at most [n] choices, and the
    kernel state satisfies [K]. *)
Definition calm (n : nat)
    (K : gmap string node -> gmap nat open_file -> Prop) (w : world) : Prop :=
  undisturbed (w_env w) /\ (length (w_env w) <= n)%nat
  /\ K (w_fs w) (w_fds w).

(** [total P m Q]: from a world satisfying [P] the run [m] ends, with a
    result [a] and in a world satisfying [Q a]. *)
Definition total {A} (P : world -> Prop) (m : M A) (Q : A -> world -> Prop)
  : Prop :=
  forall w, P w -> exists a w', m w = (Done a, w') /\ Q a w'.

(** *** Whole invocations *)

(** The files after a [put] of the content [d] that went through. *)
Definition put_result (p : cache_entry_path_t) (d : list Byte.byte)
    (fs0 : gmap string node) : gmap string node :=
  <[fullpath p := File d]>
    (delete (tmpfilename_of p) (<[dirfullpath p := Dir]> fs0)).

(** The lock file of a cache root, as [main] names it. *)
Definition lock_path (cache_path : string) : string :=
  str_join_path cache_path [".lock"].






(** [put_outcome] in terms of what the kernel finds at [q]: either it finds
    there, after every call and at the end, what it found at the start, and
    the result is not success, or the one change is the final, successful
    rename. *)
Definition put_outcome_at (tmp q : string) (w : world) (r : outcome Z)
    (w' : world) : Prop :=
  exists evs,
    w_trace w' = w_trace w ++ evs
    /\ ((Forall (fun e => node_at (ev_fs e) q = node_at (w_fs w) q) evs
         /\ node_at (w_fs w') q = node_at (w_fs w) q
         /\ r <> Done 0)
        \/ (exists evs0 e,
              evs = evs0 ++ [e]
              /\ Forall (fun e => node_at (ev_fs e) q = node_at (w_fs w) q)
                        evs0
              /\ is_commit tmp q e
              /\ w_fs w' = ev_fs e
              /\ r = Done 0)).

(** *** The order of the calls *)

(** The run [m] only adds events to the trace. *)
Definition appends {A} (m : M A) : Prop :=
  forall w, exists evs, w_trace (m w).2 = w_trace w ++ evs.


(** The sample cache after [put] of the sample file under the identifier
    [k1]. *)
Definition stored_fs : gmap string node :=
  put_result (cache_id_to_path true "/c" "k1")
    (list_byte_of_string "payload") sample_fs.

(** ** Strings *)

Lemma append_cons (c : ascii) (s t : string) :
  String c s +:+ t = String c (s +:+ t).
Proof. reflexivity. Qed.

Lemma append_nil_l (s : string) : "" +:+ s = s.
Proof. reflexivity. Qed.

Lemma append_nil_r (s : string) : s +:+ "" = s.
Proof.
  induction s as [|c s IH]; [reflexivity |].
  by rewrite append_cons, IH.
Qed.

Lemma append_assoc (a b c : string) : (a +:+ b) +:+ c = a +:+ (b +:+ c).
Proof.
  induction a as [|x a IH]; [reflexivity |].
  by rewrite !append_cons, IH.
Qed.

Lemma length_append (a b : string) :
  String.length (a +:+ b) = (String.length a + String.length b)%nat.
Proof.
  induction a as [|x a IH]; [reflexivity |].
  rewrite append_cons. simpl. by rewrite IH.
Qed.

Lemma str_mem_append (c : ascii) (a b : string) :
  str_mem c (a +:+ b) = str_mem c a || str_mem c b.
Proof.
  induction a as [|x a IH]; [reflexivity |].
  rewrite append_cons. simpl. by rewrite IH, orb_assoc.
Qed.

(** ** The buffer holds what was appended *)

Lemma buf_str_extend (b : str_buffer_t) (n : Z) :
  buf_str (str_buffer_extend b n) = buf_str b.
Proof. unfold str_buffer_extend. by destruct (_ && _). Qed.

Lemma buf_len_extend (b : str_buffer_t) (n : Z) :
  buf_len (str_buffer_extend b n) = buf_len b.
Proof. unfold str_buffer_extend. by destruct (_ && _). Qed.

Lemma buf_str_join (b : str_buffer_t) (s : string) :
  buf_str (str_buffer_join b s) = buf_str b +:+ s.
Proof. unfold str_buffer_join; simpl. by rewrite buf_str_extend. Qed.

Lemma buf_len_join (b : str_buffer_t) (s : string) :
  buf_len (str_buffer_join b s) = buf_len b + strlen s.
Proof. unfold str_buffer_join; simpl. by rewrite buf_len_extend. Qed.

Lemma buf_str_join_char (b : str_buffer_t) (c : ascii) :
  buf_str (str_buffer_join_char b c) = buf_str b +:+ String c "".
Proof. unfold str_buffer_join_char; simpl. by rewrite buf_str_extend. Qed.

Lemma encode_id_loop_str (sg : bool) (id : string) (b : str_buffer_t) :
  buf_str (encode_id_loop sg id b)
  = buf_str b +:+ buf_str (encode_id_loop sg id empty_buffer).
Proof.
  revert b. induction id as [|c id IH]; intros b; simpl.
  - symmetry. apply append_nil_r.
  - rewrite IH. symmetry. rewrite IH. symmetry.
    destruct (needs_escape sg c);
      rewrite ?buf_str_join, ?buf_str_join_char; simpl;
      by rewrite ?append_assoc, ?append_nil_l.
Qed.

Lemma encode_id_loop_empty (sg : bool) (id : string) (n : Z) :
  buf_str (encode_id_loop sg id (str_buffer_extend empty_buffer n))
  = buf_str (encode_id_loop sg id empty_buffer).
Proof. by rewrite encode_id_loop_str, buf_str_extend. Qed.

Lemma encode_id_cons (sg : bool) (c : ascii) (id : string) :
  encode_id sg (String c id) = escape_char sg c +:+ encode_id sg id.
Proof.
  unfold encode_id. rewrite !encode_id_loop_empty. simpl.
  rewrite encode_id_loop_str. unfold escape_char.
  destruct (needs_escape sg c);
    by rewrite ?buf_str_join, ?buf_str_join_char.
Qed.

(** ** The encoder, byte by byte *)

Lemma ascii_of_byte_val (c : ascii) : ascii_of_Z (byte_val c) = c.
Proof. ascii_cases c; reflexivity. Qed.

(** Below 128 the signedness of [char] plays no part, and the code does what
    the specification says. *)
Lemma escape_char_seven_bit (sg : bool) (c : ascii) :
  seven_bit c = true -> escape_char sg c = spec_escape c.
Proof. destruct sg; ascii_cases c; by_evaluation. Qed.

(** Where [char] is unsigned the code does what the specification says for
    every byte. *)
Lemma escape_char_unsigned (c : ascii) : escape_char false c = spec_escape c.
Proof. ascii_cases c; vm_compute; reflexivity. Qed.

(** Where [char] is signed, every byte from 128 upwards is taken for a
    control character and printed as a 32-bit value cut to three digits. *)
Lemma escape_char_signed_high (c : ascii) :
  seven_bit c = false -> escape_char true c = "%429".
Proof. ascii_cases c; by_evaluation. Qed.

Lemma encode_id_seven_bit (sg : bool) (id : string) :
  str_all seven_bit id = true -> encode_id sg id = spec_encode id.
Proof.
  induction id as [|c id IH]; [reflexivity |].
  simpl. intros [Hc Hid]%andb_true_iff.
  by rewrite encode_id_cons, escape_char_seven_bit, IH.
Qed.

Lemma encode_id_unsigned (id : string) : encode_id false id = spec_encode id.
Proof.
  induction id as [|c id IH]; [reflexivity |].
  simpl. by rewrite encode_id_cons, escape_char_unsigned, IH.
Qed.

Lemma escape_char_no_question_mark (sg : bool) (c : ascii) :
  str_mem "?" (escape_char sg c) = false.
Proof. destruct sg; ascii_cases c; vm_compute; reflexivity. Qed.

Lemma escape_char_no_slash (sg : bool) (c : ascii) :
  str_mem "/" (escape_char sg c) = false.
Proof. destruct sg; ascii_cases c; vm_compute; reflexivity. Qed.

Lemma escape_char_percent (sg : bool) (c : ascii) :
  str_mem "%" (escape_char sg c) = needs_escape sg c.
Proof. destruct sg; ascii_cases c; vm_compute; reflexivity. Qed.

Lemma escape_char_length (sg : bool) (c : ascii) :
  (String.length (escape_char sg c)
   >= if needs_escape sg c then 2 else 1)%nat.
Proof. destruct sg; ascii_cases c; vm_compute; lia. Qed.

Lemma encode_id_no_question_mark (sg : bool) (id : string) :
  str_mem "?" (encode_id sg id) = false.
Proof.
  induction id as [|c id IH]; [reflexivity |].
  by rewrite encode_id_cons, str_mem_append, escape_char_no_question_mark, IH.
Qed.

Lemma encode_id_no_slash (sg : bool) (id : string) :
  str_mem "/" (encode_id sg id) = false.
Proof.
  induction id as [|c id IH]; [reflexivity |].
  by rewrite encode_id_cons, str_mem_append, escape_char_no_slash, IH.
Qed.

Lemma encode_id_length (sg : bool) (id : string) :
  (String.length id <= String.length (encode_id sg id))%nat.
Proof.
  induction id as [|c id IH]; [reflexivity |].
  rewrite encode_id_cons, length_append. simpl.
  pose proof (escape_char_length sg c) as H.
  destruct (needs_escape sg c); lia.
Qed.

Lemma encode_id_grows (sg : bool) (id : string) :
  str_mem "%" id = true ->
  (String.length id < String.length (encode_id sg id))%nat.
Proof.
  induction id as [|c id IH]; [discriminate |].
  cbn [str_mem]. rewrite encode_id_cons, length_append.
  pose proof (escape_char_length sg c) as Hlen.
  pose proof (encode_id_length sg id) as Hid.
  intros [Hc | Hin]%orb_true_iff.
  - apply Ascii.eqb_eq in Hc. subst c. clear Hlen.
    destruct sg;
      [ change (String.length (escape_char true "%")) with 3%nat
      | change (String.length (escape_char false "%")) with 3%nat ];
      simpl; lia.
  - specialize (IH Hin). simpl. destruct (needs_escape sg c); lia.
Qed.

Lemma encode_id_keeps_percent (sg : bool) (id : string) :
  str_mem "%" id = true -> str_mem "%" (encode_id sg id) = true.
Proof.
  induction id as [|c id IH]; [discriminate |].
  cbn [str_mem]. rewrite encode_id_cons, str_mem_append, escape_char_percent.
  intros [Hc | Hin]%orb_true_iff.
  - apply Ascii.eqb_eq in Hc. subst c. by destruct sg.
  - rewrite (IH Hin). apply orb_true_r.
Qed.

(** *** Reading an encoded name back *)

Lemma escape_char_sign_free (sg : bool) (c : ascii) :
  sign_free sg c = true -> escape_char sg c = spec_escape c.
Proof.
  destruct sg; [apply escape_char_seven_bit | intros _; apply escape_char_unsigned].
Qed.

Lemma all_bytes_complete (c : ascii) : In c all_bytes.
Proof.
  unfold all_bytes. apply in_map_iff. exists (nat_of_ascii c).
  split; [apply ascii_nat_embedding |].
  apply in_seq. pose proof (nat_ascii_bounded c). lia.
Qed.

Lemma all_bytes_forall (P : ascii -> bool) :
  forallb P all_bytes = true -> forall c, P c = true.
Proof.
  intros H c. rewrite forallb_forall in H. apply H, all_bytes_complete.
Qed.

Lemma merges_digit (c d : ascii) : is_digit d = false -> merges c d = false.
Proof.
  intros H. unfold merges. by rewrite H, andb_false_r.
Qed.

Lemma merges_one_digit (c d : ascii) :
  (byte_val c <=? 9) = false -> merges c d = false.
Proof.
  intros H. unfold merges. by rewrite H, andb_false_r.
Qed.

Lemma merges_next_one_digit (c : ascii) (r : string) :
  (byte_val c <=? 9) = false -> merges_next c r = false.
Proof. intros H. destruct r; [done |]. by apply merges_one_digit. Qed.

Lemma decode_plain (c : ascii) (r : string) :
  reserved_or_control c = false -> decode (String c r) = String c (decode r).
Proof.
  intros H. cbn [decode].
  destruct (Ascii.eqb_spec c "%") as [-> | _]; [discriminate H | reflexivity].
Qed.

(** The escape of a byte below 10 is a percent sign and one digit. *)
Lemma spec_escape_one_digit (c : ascii) :
  (byte_val c <=? 9) = true ->
  let d := ascii_of_Z (byte_val c + byte_val "0") in
  spec_escape c = String "%" (String d "")
  /\ ascii_of_Z (digit_val d) = c.
Proof. ascii_cases c; intros H; vm_compute in H; try discriminate H; by vm_compute. Qed.

(** The escape of a control or reserved byte from 10 upwards is read back
    whatever follows it. *)
Lemma decode_two_digits (c : ascii) (r : string) :
  reserved_or_control c = true -> (byte_val c <=? 9) = false ->
  decode (spec_escape c +:+ r) = String c (decode r).
Proof.
  ascii_cases c; intros H1 H2;
    vm_compute in H1; try discriminate H1;
    vm_compute in H2; try discriminate H2;
    reflexivity.
Qed.

Lemma decode_one_digit (c : ascii) (r : string) :
  (byte_val c <=? 9) = true -> merges_next c r = false ->
  decode (spec_escape c +:+ r) = String c (decode r).
Proof.
  intros Hc Hr. destruct (spec_escape_one_digit c Hc) as [-> Hd].
  rewrite !append_cons, append_nil_l.
  destruct r as [|x r]; cbn [decode merges_next] in *;
    change (Ascii.eqb "%" "%") with true; cbv iota zeta; rewrite Hd;
    [reflexivity |].
  by rewrite Hr.
Qed.

(** The first character of an escape is the byte itself or no digit. *)
Lemma escape_char_head (sg : bool) (c : ascii) :
  exists x t,
    escape_char sg c = String x t
    /\ (x = c \/ (is_digit x = false /\ is_digit c = false)).
Proof.
  destruct sg; ascii_cases c; eexists _, _;
    (split; [vm_compute; reflexivity |]);
    first [by left | by right].
Qed.

Lemma merges_next_escape_char (sg : bool) (c c' : ascii) (r : string) :
  merges_next c (escape_char sg c' +:+ r) = merges c c'.
Proof.
  destruct (escape_char_head sg c') as (x & t & -> & [-> | [Hx Hc]]);
    rewrite append_cons; cbn [merges_next]; [reflexivity |].
  by rewrite !merges_digit.
Qed.

Lemma merges_next_encode_id (sg : bool) (c : ascii) (id : string) :
  merges_next c (encode_id sg id) = merges_next c id.
Proof.
  destruct id as [|d id]; [reflexivity |].
  by rewrite encode_id_cons, merges_next_escape_char.
Qed.

(** On decodable identifiers the reader undoes the encoder. *)
Lemma decode_encode_id (sg : bool) (id : string) :
  decodable sg id = true -> decode (encode_id sg id) = id.
Proof.
  unfold decodable. intros [Hs Hu]%andb_true_iff.
  induction id as [|c id IH]; [reflexivity |].
  cbn [str_all unambiguous] in Hs, Hu.
  apply andb_true_iff in Hs as [Hc Hs]. apply andb_true_iff in Hu as [Hm Hu].
  apply negb_true_iff in Hm.
  rewrite encode_id_cons, (escape_char_sign_free sg c Hc).
  unfold spec_escape at 1.
  destruct (reserved_or_control c) eqn:Hres.
  - fold (spec_escape c).
    replace (String "%" (print_u (byte_val c))) with (spec_escape c)
      by (unfold spec_escape; by rewrite Hres).
    destruct (byte_val c <=? 9) eqn:Hsmall.
    + rewrite decode_one_digit; [by rewrite IH | done |].
      by rewrite merges_next_encode_id.
    + rewrite decode_two_digits by done. by rewrite IH.
  - rewrite append_cons, append_nil_l, decode_plain by done. by rewrite IH.
Qed.

(** *** Identifiers with the same encoded name *)

Lemma merges_facts (sg : bool) (c d : ascii) :
  merges c d = true ->
  sign_free sg c = true
  /\ escape_char sg (merged c d) = escape_char sg c +:+ String d ""
  /\ escape_char sg d = String d ""
  /\ sign_free sg (merged c d) = true
  /\ is_digit (merged c d) = false
  /\ (byte_val (merged c d) <=? 9) = false.
Proof.
  set (P := fun c d : ascii =>
    if merges c d then
      sign_free sg c
      && String.eqb (escape_char sg (merged c d))
                    (escape_char sg c +:+ String d "")
      && String.eqb (escape_char sg d) (String d "")
      && sign_free sg (merged c d)
      && negb (is_digit (merged c d))
      && negb (byte_val (merged c d) <=? 9)
    else true).
  assert (HQ : forall c,
    (if (1 <=? byte_val c) && (byte_val c <=? 9)
     then forallb (P c) all_bytes else true) = true).
  { apply all_bytes_forall. unfold P. destruct sg; vm_compute; reflexivity. }
  intros H. specialize (HQ c).
  assert (Hguard : (1 <=? byte_val c) && (byte_val c <=? 9) = true).
  { unfold merges in H. by do 2 apply andb_true_iff in H as [H _]. }
  rewrite Hguard in HQ.
  pose proof (all_bytes_forall _ HQ d) as HP.
  unfold P in HP. rewrite H in HP.
  repeat (apply andb_true_iff in HP as [HP ?]).
  repeat split;
    try (by apply String.eqb_eq); try (by apply negb_true_iff); done.
Qed.

Lemma escape_char_cut (sg : bool) (c : ascii) :
  sign_free sg c = false ->
  escape_char sg c = escape_char sg "*" +:+ escape_char sg "9".
Proof. destruct sg; ascii_cases c; by_evaluation. Qed.

Lemma string_length_ind (P : string -> Prop) :
  (forall s, (forall t, (String.length t < String.length s)%nat -> P t) -> P s) ->
  forall s, P s.
Proof.
  intros H s.
  assert (Hn : forall n t, (String.length t < n)%nat -> P t).
  { induction n as [|n IH]; intros t Ht; [lia |].
    apply H. intros u Hu. apply IH. lia. }
  apply (Hn (S (String.length s))). lia.
Qed.

Lemma merge_escapes_cut (sg : bool) (c : ascii) (id : string) :
  sign_free sg c = false ->
  merge_escapes sg (String c id) = String "*" (String "9" (merge_escapes sg id)).
Proof. intros H. cbn [merge_escapes]. by rewrite H. Qed.

Lemma merge_escapes_merged (sg : bool) (c d : ascii) (id : string) :
  merges c d = true ->
  merge_escapes sg (String c (String d id))
  = String (merged c d) (merge_escapes sg id).
Proof.
  intros H. destruct (merges_facts sg c d H) as [Hc _].
  cbn [merge_escapes]. by rewrite Hc, H.
Qed.

Lemma merge_escapes_kept (sg : bool) (c : ascii) (id : string) :
  sign_free sg c = true -> merges_next c id = false ->
  merge_escapes sg (String c id) = String c (merge_escapes sg id).
Proof.
  intros Hc H. cbn [merge_escapes]. rewrite Hc.
  destruct id as [|d id]; [reflexivity |].
  cbn [merges_next] in H. by rewrite H.
Qed.

(** The three ways an identifier that is not empty is rewritten. *)
Lemma merge_escapes_cases (sg : bool) (c : ascii) (id : string) :
  (sign_free sg c = false
   /\ merge_escapes sg (String c id)
      = String "*" (String "9" (merge_escapes sg id)))
  \/ (exists d id', id = String d id' /\ merges c d = true
        /\ merge_escapes sg (String c id)
           = String (merged c d) (merge_escapes sg id'))
  \/ (sign_free sg c = true /\ merges_next c id = false
      /\ merge_escapes sg (String c id) = String c (merge_escapes sg id)).
Proof.
  destruct (sign_free sg c) eqn:Hc.
  - destruct (merges_next c id) eqn:Hm.
    + right. left. destruct id as [|d id']; [discriminate Hm |].
      exists d, id'. split; [done |]. split; [done |].
      by apply merge_escapes_merged.
    + right. right. split; [done |]. split; [done |].
      by apply merge_escapes_kept.
  - left. split; [done |]. by apply merge_escapes_cut.
Qed.

Lemma encode_id_merge_escapes (sg : bool) (id : string) :
  encode_id sg (merge_escapes sg id) = encode_id sg id.
Proof.
  induction id as [id IH] using string_length_ind.
  destruct id as [|c id]; [reflexivity |].
  destruct (merge_escapes_cases sg c id)
    as [[Hc ->] | [(d & id' & -> & Hm & ->) | (Hc & Hm & ->)]].
  - rewrite !encode_id_cons, IH by (simpl; lia).
    by rewrite (escape_char_cut sg c Hc), append_assoc.
  - destruct (merges_facts sg c d Hm) as (_ & He & Hd & _).
    rewrite !encode_id_cons, IH by (simpl; lia).
    by rewrite He, Hd, append_assoc.
  - rewrite !encode_id_cons, IH by (simpl; lia). done.
Qed.

Lemma merges_next_merge_escapes (sg : bool) (c : ascii) (id : string) :
  merges_next c id = false -> merges_next c (merge_escapes sg id) = false.
Proof.
  intros H. destruct id as [|d id]; [reflexivity |].
  destruct (merge_escapes_cases sg d id)
    as [[Hc ->] | [(e & id' & -> & Hm & ->) | (Hc & Hm & ->)]];
    cbn [merges_next] in *.
  - by apply merges_digit.
  - destruct (merges_facts sg d e Hm) as (_ & _ & _ & _ & Hdig & _).
    by apply merges_digit.
  - done.
Qed.

Lemma decodable_merge_escapes (sg : bool) (id : string) :
  decodable sg (merge_escapes sg id) = true.
Proof.
  induction id as [id IH] using string_length_ind.
  destruct id as [|c id]; [reflexivity |].
  unfold decodable in *.
  destruct (merge_escapes_cases sg c id)
    as [[Hc ->] | [(d & id' & -> & Hm & ->) | (Hc & Hm & ->)]].
  - specialize (IH id ltac:(simpl; lia)).
    apply andb_true_iff in IH as [IH1 IH2].
    cbn [str_all unambiguous]. rewrite IH1, IH2.
    rewrite !merges_next_one_digit by reflexivity.
    by destruct sg.
  - specialize (IH id' ltac:(simpl; lia)).
    apply andb_true_iff in IH as [IH1 IH2].
    destruct (merges_facts sg c d Hm) as (_ & _ & _ & Hs & _ & Hbig).
    cbn [str_all unambiguous]. rewrite IH1, IH2, Hs.
    by rewrite merges_next_one_digit.
  - specialize (IH id ltac:(simpl; lia)).
    apply andb_true_iff in IH as [IH1 IH2].
    cbn [str_all unambiguous]. rewrite IH1, IH2, Hc.
    by rewrite merges_next_merge_escapes.
Qed.

(** An identifier that is not decodable differs from the decodable one with
    the same encoded name. *)
Lemma merge_escapes_changes (sg : bool) (id : string) :
  decodable sg id = false -> merge_escapes sg id <> id.
Proof.
  intros Hd E.
  pose proof (decodable_merge_escapes sg id) as Hm. rewrite E in Hm.
  congruence.
Qed.

(** ** Path joining *)

Lemma get_length_cons (c : ascii) (s : string) :
  String.get (String.length s) (String c s) = last_char (String c s).
Proof.
  revert c. induction s as [|d s IH]; intros c; [reflexivity |].
  change (String.get (String.length s) (String d s)
          = last_char (String d s)).
  apply IH.
Qed.

Lemma get_last_char (s : string) :
  s <> "" -> String.get (String.length s - 1) s = last_char s.
Proof.
  destruct s as [|c s]; [done |]. intros _.
  replace (String.length (String c s) - 1)%nat with (String.length s)
    by (simpl; lia).
  apply get_length_cons.
Qed.

Lemma last_not_slash_join (a : string) :
  (buf_len (str_buffer_join empty_buffer a) =? 0)
  || last_not_slash (str_buffer_join empty_buffer a)
  = negb (ends_with_slash a).
Proof.
  unfold last_not_slash, buf_get, ends_with_slash.
  rewrite buf_len_join, buf_str_join.
  cbn [buf_len buf_str empty_buffer]. rewrite append_nil_l, Z.add_0_l.
  destruct a as [|c a]; [reflexivity |].
  replace (Z.to_nat (strlen (String c a) - 1))
    with (String.length (String c a) - 1)%nat by (unfold strlen; simpl; lia).
  rewrite get_last_char by discriminate.
  replace (strlen (String c a) =? 0) with false
    by (symmetry; apply Z.eqb_neq; unfold strlen; simpl String.length; lia).
  rewrite orb_false_l. by destruct (last_char (String c a)).
Qed.

Lemma first_not_slash_begins (s : string) :
  first_not_slash s = negb (begins_with_slash s).
Proof. by destruct s. Qed.

(** Joining two components: the separator is inserted when neither operand
    brings one. *)
Lemma str_join_path_two (a b : string) :
  str_join_path a [b]
  = a +:+ (if negb (ends_with_slash a) && negb (begins_with_slash b)
           then "/" else "") +:+ b.
Proof.
  unfold str_join_path. cbn [fold_left]. unfold join_step.
  rewrite last_not_slash_join, first_not_slash_begins.
  destruct (negb (ends_with_slash a) && negb (begins_with_slash b));
    rewrite !buf_str_join; cbn [buf_str empty_buffer];
    by rewrite ?append_assoc, ?append_nil_l.
Qed.

Lemma strip_leading_spec (b : string) :
  b = slashes (count_leading b) +:+ strip_leading b.
Proof.
  induction b as [|c b IH]; [reflexivity |].
  simpl. destruct (Ascii.eqb_spec c "/") as [-> | Hne]; [| reflexivity].
  simpl. rewrite append_cons. by rewrite <- IH.
Qed.

Lemma begins_with_slash_count (b : string) :
  begins_with_slash b = (0 <? count_leading b)%nat.
Proof.
  destruct b as [|c b]; [reflexivity |].
  simpl. by destruct (Ascii.eqb c "/").
Qed.

Lemma last_char_cons (c : ascii) (s : string) :
  s <> "" -> last_char (String c s) = last_char s.
Proof. by destruct s. Qed.

Lemma ends_with_slash_cons (c : ascii) (s : string) :
  s <> "" -> ends_with_slash (String c s) = ends_with_slash s.
Proof. intros H. unfold ends_with_slash. by rewrite last_char_cons. Qed.

Lemma ends_with_slash_slashes (s : string) (n : nat) :
  ends_with_slash (s +:+ slashes (S n)) = true.
Proof.
  induction s as [|c s IH].
  - rewrite append_nil_l. induction n as [|n IHn]; [reflexivity |].
    change (slashes (S (S n))) with (String "/" (slashes (S n))).
    by rewrite ends_with_slash_cons.
  - rewrite append_cons, ends_with_slash_cons; [assumption |].
    destruct s; discriminate.
Qed.

Lemma strip_trailing_spec (a : string) :
  exists n, a = strip_trailing a +:+ slashes n
            /\ ends_with_slash (strip_trailing a) = false.
Proof.
  induction a as [|c a (n & Ha & He)].
  - exists 0%nat. by split.
  - simpl. destruct (strip_trailing a) as [|d t] eqn:Hs.
    + rewrite append_nil_l in Ha. subst a.
      destruct (Ascii.eqb_spec c "/") as [-> | Hne].
      * exists (S n). by split.
      * exists n. split; [reflexivity |].
        unfold ends_with_slash; simpl. by apply Ascii.eqb_neq.
    + exists n. split.
      * rewrite append_cons. by rewrite <- Ha.
      * by rewrite ends_with_slash_cons.
Qed.

Lemma length_slashes (n : nat) : String.length (slashes n) = n.
Proof. induction n as [|n IH]; simpl; [reflexivity | by rewrite IH]. Qed.

Lemma strip_trailing_count (a : string) :
  a = strip_trailing a +:+ slashes (count_trailing a).
Proof.
  destruct (strip_trailing_spec a) as (n & Ha & _).
  pose proof (f_equal String.length Ha) as Hlen.
  rewrite length_append, length_slashes in Hlen.
  unfold count_trailing.
  replace (String.length a - String.length (strip_trailing a))%nat with n
    by lia.
  exact Ha.
Qed.

Lemma ends_with_slash_count (a : string) :
  ends_with_slash a = (0 <? count_trailing a)%nat.
Proof.
  destruct (strip_trailing_spec a) as (n & Ha & He).
  pose proof (strip_trailing_count a) as Hc.
  destruct (count_trailing a) as [|k].
  - rewrite append_nil_r in Hc. by rewrite Hc, He.
  - rewrite Hc. by rewrite ends_with_slash_slashes.
Qed.

Lemma slashes_add (m n : nat) : slashes (m + n) = slashes m +:+ slashes n.
Proof.
  induction m as [|m IH]; [reflexivity |].
  simpl. by rewrite append_cons, IH.
Qed.

(** Every separator of the result at the junction, counted. *)
Lemma str_join_path_junction (a b : string) :
  str_join_path a [b]
  = strip_trailing a +:+ slashes (junction a b) +:+ strip_leading b.
Proof.
  rewrite str_join_path_two.
  rewrite ends_with_slash_count, begins_with_slash_count.
  rewrite (strip_trailing_count a) at 1.
  rewrite (strip_leading_spec b) at 2.
  unfold junction.
  destruct (count_trailing a) as [|m], (count_leading b) as [|n];
    simpl (_ && _); cbv iota; rewrite ?append_assoc.
  - reflexivity.
  - reflexivity.
  - change (strip_trailing a +:+ slashes (S m) +:+ strip_leading b
            = strip_trailing a +:+ slashes (S (m + 0)) +:+ strip_leading b).
    by rewrite Nat.add_0_r.
  - change (strip_trailing a +:+ slashes (S m) +:+ slashes (S n)
              +:+ strip_leading b
            = strip_trailing a +:+ slashes (S m + S n) +:+ strip_leading b).
    by rewrite slashes_add, append_assoc.
Qed.

(** ** Shard names *)

Lemma subdir_hash_fold (id : string) (s : Z) :
  subdir_hash id s = fold_left acc_step_bits24 (id_bytes id) s.
Proof.
  revert s. induction id as [|c id IH]; intros s; [reflexivity |].
  cbn [subdir_hash]. rewrite IH.
  change (id_bytes (String c id)) with (byte_val c :: id_bytes id).
  cbn [fold_left]. f_equal.
  unfold acc_step_bits24, wrap_ulong, to_uchar, ULONG_WIDTH.
  rewrite Z.shiftl_mul_pow2, Z.shiftr_div_pow2 by lia.
  rewrite Zplus_mod_idemp_l. reflexivity.
Qed.

Lemma ascii_of_Z_letter (r : Z) :
  0 <= r < 25 -> ascii_of_Z (r + byte_val "a") = shard_letter r.
Proof.
  intros Hr. unfold ascii_of_Z, shard_letter, ascii_of_nat.
  change (byte_val "a") with 97.
  rewrite Z.mod_small by lia.
  f_equal. apply N2Nat.inj. rewrite Nat2N.id, Z_N_nat. f_equal. lia.
Qed.

Lemma subdir_digits_name (s : Z) : subdir_digits 4 s = shard_name s.
Proof.
  unfold shard_name. cbn [subdir_digits fmap list_fmap string_of_list_ascii].
  change subdir_base with 25.
  rewrite !Z.div_div by lia.
  rewrite !ascii_of_Z_letter by (apply Z.mod_pos_bound; lia).
  change (25 ^ 0) with 1. rewrite Z.div_1_r.
  reflexivity.
Qed.

Lemma byte_val_ascii_of_Z (v : Z) : byte_val (ascii_of_Z v) = v mod 256.
Proof.
  unfold byte_val, ascii_of_Z.
  pose proof (Z.mod_pos_bound v 256 ltac:(lia)) as Hv.
  rewrite N_ascii_embedding by lia.
  apply Z2N.id. lia.
Qed.

Lemma subdir_digits_no_slash (n : nat) (s : Z) :
  str_mem "/" (subdir_digits n s) = false.
Proof.
  revert s. induction n as [|n IH]; intros s; [reflexivity |].
  cbn [subdir_digits str_mem]. rewrite IH, orb_false_r.
  apply Ascii.eqb_neq. intros Heq.
  pose proof (byte_val_ascii_of_Z (s mod subdir_base + byte_val "a")) as Hb.
  rewrite <- Heq in Hb. revert Hb.
  change subdir_base with 25. change (byte_val "a") with 97.
  change (byte_val "/") with 47.
  pose proof (Z.mod_pos_bound s 25 ltac:(lia)) as Hs.
  rewrite Z.mod_small by lia. lia.
Qed.

Lemma subdir_digits_length (n : nat) (s : Z) :
  String.length (subdir_digits n s) = n.
Proof.
  revert s. induction n as [|n IH]; intros s; [reflexivity |].
  cbn [subdir_digits String.length]. by rewrite IH.
Qed.

Lemma shard_letter_range (s : Z) :
  let c := ascii_of_Z (s mod subdir_base + byte_val "a") in
  (byte_val "a" <=? byte_val c) && (byte_val c <=? byte_val "y") = true.
Proof.
  cbn zeta. rewrite byte_val_ascii_of_Z.
  change subdir_base with 25. change (byte_val "a") with 97.
  change (byte_val "y") with 121.
  pose proof (Z.mod_pos_bound s 25 ltac:(lia)) as Hs.
  rewrite Z.mod_small by lia.
  apply andb_true_iff. split; apply Z.leb_le; lia.
Qed.

Lemma subdir_digits_letters (n : nat) (s : Z) :
  str_all (fun c => (byte_val "a" <=? byte_val c)
                    && (byte_val c <=? byte_val "y"))
          (subdir_digits n s) = true.
Proof.
  revert s. induction n as [|n IH]; intros s; [reflexivity |].
  cbn [subdir_digits str_all].
  by rewrite shard_letter_range, IH.
Qed.

(** ** Resolved paths *)

Lemma begins_with_slash_mem (s : string) :
  str_mem "/" s = false -> begins_with_slash s = false.
Proof.
  destruct s as [|c s]; [reflexivity |].
  cbn [str_mem begins_with_slash]. intros [H _]%orb_false_iff.
  by rewrite Ascii.eqb_sym.
Qed.

Lemma ends_with_slash_mem (s : string) :
  str_mem "/" s = false -> ends_with_slash s = false.
Proof.
  induction s as [|c s IH]; [reflexivity |].
  cbn [str_mem]. intros [Hc Hs]%orb_false_iff.
  destruct s as [|d s].
  - unfold ends_with_slash; simpl. by rewrite Ascii.eqb_sym.
  - rewrite ends_with_slash_cons by discriminate. by apply IH.
Qed.

Lemma ends_with_slash_append (x s : string) :
  s <> "" -> ends_with_slash (x +:+ s) = ends_with_slash s.
Proof.
  intros Hs. induction x as [|c x IH]; [reflexivity |].
  rewrite append_cons, ends_with_slash_cons; [assumption |].
  destruct x, s; done.
Qed.

Lemma append_begins_with_slash (a b : string) :
  a <> "" -> begins_with_slash (a +:+ b) = begins_with_slash a.
Proof. by destruct a. Qed.

(** The entry path and the staging path are the shard directory path
    followed by one separator and the last component. *)
Lemma cache_id_to_path_shape (sg : bool) (cache_path cache_id : string) :
  let p := cache_id_to_path sg cache_path cache_id in
  fullpath p = dirfullpath p +:+ "/" +:+ filename p
  /\ tmpfilename_of p = dirfullpath p +:+ "/" +:+ tmpfile_name.
Proof.
  cbn zeta. unfold tmpfilename_of, cache_id_to_path.
  cbn [fullpath dirfullpath filename].
  set (d := get_subdir_for_id cache_id).
  set (f := encode_id sg cache_id).
  assert (Hd : str_mem "/" d = false) by apply subdir_digits_no_slash.
  assert (Hne : d <> "").
  { intros E. pose proof (subdir_digits_length 4 (subdir_hash cache_id 0)) as L.
    fold (get_subdir_for_id cache_id) in L. fold d in L. by rewrite E in L. }
  assert (Hf : begins_with_slash f = false)
    by apply begins_with_slash_mem, encode_id_no_slash.
  rewrite !str_join_path_two.
  rewrite (ends_with_slash_mem d Hd), Hf.
  rewrite (append_begins_with_slash d) by assumption.
  rewrite (begins_with_slash_mem d Hd).
  set (sep := if negb (ends_with_slash cache_path) && negb false
              then "/" else "").
  rewrite <- (append_assoc cache_path sep d).
  rewrite (ends_with_slash_append (cache_path +:+ sep) d) by assumption.
  rewrite (ends_with_slash_mem d Hd).
  change (begins_with_slash tmpfile_name) with false. cbn [negb andb].
  split; by rewrite ?append_assoc.
Qed.

Lemma fullpath_not_dirfullpath (sg : bool) (cache_path cache_id : string) :
  let p := cache_id_to_path sg cache_path cache_id in
  dirfullpath p <> fullpath p.
Proof.
  cbn zeta. intros E.
  destruct (cache_id_to_path_shape sg cache_path cache_id) as [Hf _].
  rewrite Hf in E. apply (f_equal String.length) in E.
  rewrite length_append in E. rewrite append_cons in E. simpl in E. lia.
Qed.

Lemma append_inj_length (a b x y : string) :
  String.length a = String.length b -> a +:+ x = b +:+ y -> a = b /\ x = y.
Proof.
  revert b. induction a as [|c a IH]; intros [|c' b] Hlen E;
    try discriminate Hlen.
  - by rewrite !append_nil_l in E.
  - rewrite !append_cons in E. injection E as -> E.
    injection Hlen as Hlen. destruct (IH b Hlen E) as [-> ->]. done.
Qed.

(** The staging path of one identifier is the entry path of none. *)
Lemma tmpfilename_not_fullpath (sg : bool) (cache_path id id' : string) :
  tmpfilename_of (cache_id_to_path sg cache_path id)
  <> fullpath (cache_id_to_path sg cache_path id').
Proof.
  intros E.
  destruct (cache_id_to_path_shape sg cache_path id) as [_ Ht].
  destruct (cache_id_to_path_shape sg cache_path id') as [Hf _].
  rewrite Hf, Ht in E. clear Hf Ht.
  unfold cache_id_to_path in E. cbn [dirfullpath filename] in E.
  rewrite !str_join_path_two in E.
  pose proof (subdir_digits_no_slash 4 (subdir_hash id 0)) as Hd.
  pose proof (subdir_digits_no_slash 4 (subdir_hash id' 0)) as Hd'.
  fold (get_subdir_for_id id) in Hd. fold (get_subdir_for_id id') in Hd'.
  rewrite (begins_with_slash_mem _ Hd), (begins_with_slash_mem _ Hd') in E.
  rewrite !append_assoc in E. do 2 apply String.app_inj in E.
  apply append_inj_length in E as [_ E];
    [| unfold get_subdir_for_id; by rewrite !subdir_digits_length].
  rewrite !append_cons, !append_nil_l in E. injection E as E.
  pose proof (encode_id_no_question_mark sg id') as Hq.
  by rewrite <- E in Hq.
Qed.

Lemma fullpath_not_tmpfilename (sg : bool) (cache_path cache_id : string) :
  let p := cache_id_to_path sg cache_path cache_id in
  tmpfilename_of p <> fullpath p.
Proof. apply tmpfilename_not_fullpath. Qed.

(** ** Last components *)

Lemma split_last_no_slash (s : string) :
  str_mem "/" s = false -> split_last s = None.
Proof.
  induction s as [|c s IH]; [reflexivity |].
  cbn [str_mem split_last]. intros [Hc Hs]%orb_false_iff.
  rewrite (IH Hs). rewrite Ascii.eqb_sym in Hc. by rewrite Hc.
Qed.

Lemma split_last_append (a name : string) :
  str_mem "/" name = false -> split_last (a +:+ "/" +:+ name) = Some (a, name).
Proof.
  intros Hn. induction a as [|c a IH].
  - rewrite append_nil_l, append_cons, append_nil_l. cbn [split_last].
    by rewrite (split_last_no_slash _ Hn).
  - rewrite append_cons. cbn [split_last]. by rewrite IH.
Qed.

Lemma dot_dir_append (a name : string) :
  str_mem "/" name = false ->
  dot_dir (a +:+ "/" +:+ name) = if dot_name name then Some a else None.
Proof. intros Hn. unfold dot_dir. by rewrite split_last_append. Qed.

Lemma ends_with_slash_split (s : string) :
  ends_with_slash s = true -> exists x, s = x +:+ "/".
Proof.
  induction s as [|c s IH]; [discriminate |].
  destruct s as [|d s].
  - unfold ends_with_slash. cbn [last_char]. intros ->%Ascii.eqb_eq.
    by exists "".
  - rewrite ends_with_slash_cons by discriminate.
    intros [x Hx]%IH. exists (String c x). by rewrite append_cons, <- Hx.
Qed.

(** The names that stand for a directory are made of at most two dots. *)
Lemma dot_name_spec (s : string) :
  dot_name s = (String.length s <=? 2)%nat && str_all is_dot s.
Proof.
  unfold dot_name, is_dot.
  destruct s as [|c [|d [|e s]]]; [reflexivity | | |]; cbn.
  - destruct (Ascii.eqb c "."); reflexivity.
  - destruct (Ascii.eqb c "."), (Ascii.eqb d "."); reflexivity.
  - destruct (Ascii.eqb c "."), (Ascii.eqb d "."); reflexivity.
Qed.

Lemma escape_char_dots (sg : bool) (c : ascii) :
  str_all is_dot (escape_char sg c) = is_dot c
  /\ (is_dot c = true -> escape_char sg c = String c "").
Proof. destruct sg; ascii_cases c; by vm_compute. Qed.

Lemma str_all_is_dot_append (a b : string) :
  str_all is_dot (a +:+ b) = str_all is_dot a && str_all is_dot b.
Proof.
  induction a as [|c a IH]; [reflexivity |].
  rewrite append_cons. cbn [str_all]. by rewrite IH, andb_assoc.
Qed.

Lemma encode_id_dots (sg : bool) (id : string) :
  str_all is_dot (encode_id sg id) = str_all is_dot id
  /\ (str_all is_dot id = true -> encode_id sg id = id).
Proof.
  induction id as [|c id [IH1 IH2]]; [done |].
  destruct (escape_char_dots sg c) as [Hc1 Hc2].
  rewrite encode_id_cons, str_all_is_dot_append, Hc1, IH1.
  split; [done |].
  cbn [str_all]. intros [Hc Hid]%andb_true_iff.
  by rewrite (Hc2 Hc), (IH2 Hid).
Qed.

(** [encode_id] sends no identifier to one of these names, except these
    names themselves, which it leaves as they are. *)
Lemma dot_name_encode_id (sg : bool) (id : string) :
  dot_name (encode_id sg id) = dot_name id.
Proof.
  destruct (encode_id_dots sg id) as [H1 H2].
  rewrite !dot_name_spec, H1.
  destruct (str_all is_dot id); [| by rewrite !andb_false_r].
  by rewrite H2.
Qed.

(** ** Which program paths name a directory *)

(** The shard directory path always ends with a separator and the shard
    name. *)
Lemma dirfullpath_shape (sg : bool) (cache_path cache_id : string) :
  exists x,
    dirfullpath (cache_id_to_path sg cache_path cache_id)
    = x +:+ "/" +:+ get_subdir_for_id cache_id.
Proof.
  unfold cache_id_to_path. cbn [dirfullpath].
  rewrite str_join_path_two.
  pose proof (subdir_digits_no_slash 4 (subdir_hash cache_id 0)) as Hd.
  fold (get_subdir_for_id cache_id) in Hd.
  rewrite (begins_with_slash_mem _ Hd). rewrite andb_true_r.
  destruct (ends_with_slash cache_path) eqn:E; cbn [negb].
  - apply ends_with_slash_split in E as [x ->].
    exists x. by rewrite append_nil_l, append_assoc.
  - by exists cache_path.
Qed.

Lemma dot_dir_dirfullpath (sg : bool) (cache_path cache_id : string) :
  dot_dir (dirfullpath (cache_id_to_path sg cache_path cache_id)) = None.
Proof.
  destruct (dirfullpath_shape sg cache_path cache_id) as [x ->].
  rewrite dot_dir_append by apply subdir_digits_no_slash.
  rewrite dot_name_spec.
  unfold get_subdir_for_id. by rewrite subdir_digits_length.
Qed.

Lemma dot_dir_tmpfilename (sg : bool) (cache_path cache_id : string) :
  dot_dir (tmpfilename_of (cache_id_to_path sg cache_path cache_id)) = None.
Proof.
  destruct (cache_id_to_path_shape sg cache_path cache_id) as [_ ->].
  by rewrite dot_dir_append.
Qed.

(** The entry path names the shard directory, or the directory above it,
    exactly for the identifiers [.] and [..] (and for the empty one, which
    [main] refuses). *)
Lemma dot_dir_fullpath (sg : bool) (cache_path cache_id : string) :
  let p := cache_id_to_path sg cache_path cache_id in
  dot_dir (fullpath p)
  = if dot_name cache_id then Some (dirfullpath p) else None.
Proof.
  cbn zeta.
  destruct (cache_id_to_path_shape sg cache_path cache_id) as [-> _].
  rewrite dot_dir_append by apply encode_id_no_slash.
  unfold cache_id_to_path at 1. cbn [filename].
  by rewrite dot_name_encode_id.
Qed.

(** ** What the kernel finds at a path *)

Lemma resolve_stored (fs : gmap string node) (p : string) :
  is_Some (fs !! p) -> resolve fs p = Some p.
Proof. intros [n H]. unfold resolve. by rewrite H. Qed.

Lemma node_at_stored (fs : gmap string node) (p : string) (n : node) :
  fs !! p = Some n -> node_at fs p = Some n.
Proof. intros H. unfold node_at. by rewrite resolve_stored, H. Qed.

(** A path found by the kernel is stored under its own name, or names a
    directory through its last component. *)
Lemma resolve_cases (fs : gmap string node) (p key : string) :
  resolve fs p = Some key ->
  (key = p /\ is_Some (fs !! p))
  \/ (fs !! p = None /\ dot_dir p = Some key /\ fs !! key = Some Dir).
Proof.
  unfold resolve. destruct (fs !! p) as [n|] eqn:Hp.
  - intros [= <-]. left. eauto.
  - destruct (dot_dir p) as [q|]; [| done].
    destruct (fs !! q) as [[]|] eqn:Hq; [done | | done].
    intros [= <-]. by right.
Qed.

Lemma node_at_cases (fs : gmap string node) (p : string) (n : node) :
  node_at fs p = Some n ->
  fs !! p = Some n
  \/ (fs !! p = None /\ n = Dir
      /\ exists q, dot_dir p = Some q /\ fs !! q = Some Dir).
Proof.
  unfold node_at. destruct (resolve fs p) as [key|] eqn:Hr; [| done].
  destruct (resolve_cases _ _ _ Hr) as [[-> _] | (Hp & Hd & Hq)].
  - by left.
  - rewrite Hq. intros [= <-]. right. eauto.
Qed.

(** A file is only ever found under its own name. *)
Lemma node_at_file (fs : gmap string node) (p : string) (d : list Byte.byte) :
  node_at fs p = Some (File d) <-> fs !! p = Some (File d).
Proof.
  split; [| apply node_at_stored].
  intros [H | (_ & H & _)]%node_at_cases; done.
Qed.

Lemma node_at_none (fs : gmap string node) (p : string) :
  node_at fs p = None -> fs !! p = None.
Proof.
  destruct (fs !! p) as [n|] eqn:Hp; [| done].
  by rewrite (node_at_stored _ _ _ Hp).
Qed.

(** For a path whose last component names an entry, the kernel finds what is
    stored under the path. *)
Lemma node_at_plain (fs : gmap string node) (p : string) :
  dot_dir p = None -> node_at fs p = fs !! p.
Proof.
  intros Hd. unfold node_at, resolve.
  destruct (fs !! p) as [n|] eqn:Hp; [done |]. by rewrite Hd.
Qed.

(** ** Frame properties of the system calls *)

Lemma no_writer_insert (q : string) (fds : gmap nat open_file)
    (fd : nat) (f : open_file) :
  (of_writable f = true -> of_path f <> q) ->
  no_writer q fds -> no_writer q (<[fd := f]> fds).
Proof. intros Hf H. by apply map_Forall_insert_2. Qed.

Lemma no_writer_delete (q : string) (fds : gmap nat open_file) (fd : nat) :
  no_writer q fds -> no_writer q (delete fd fds).
Proof. intros H. by apply map_Forall_delete. Qed.

Lemma frames_stat (q p : string) : frames q (stat_sem p).
Proof.
  intros ch fs fds H. unfold stat_sem, faulty.
  destruct ch; simpl; try done; by destruct (node_at fs p).
Qed.

Lemma frames_mkdir (q p : string) : p <> q -> frames q (mkdir_sem p).
Proof.
  intros Hp ch fs fds H. unfold mkdir_sem, faulty.
  destruct ch; simpl; try done; destruct (node_at fs p); simpl; try done;
    by rewrite lookup_insert_ne.
Qed.

(** What the kernel finds once [mkdir] has made [p] a directory: a
    directory at [p] and at the paths that name [p] through their last
    component, and what it found before at every other path. *)
Lemma mkdir_sem_found (p q : string) (ch : env_choice)
    (fs : gmap string node) (fds : gmap nat open_file) :
  (mkdir_sem p ch (fs, fds)).1 = Ok tt ->
  (mkdir_sem p ch (fs, fds)).2.1 = <[p := Dir]> fs
  /\ node_at (<[p := Dir]> fs) p = Some Dir
  /\ (dot_dir q = Some p -> fs !! q = None ->
      node_at (<[p := Dir]> fs) q = Some Dir)
  /\ (q <> p -> dot_dir q <> Some p ->
      node_at (<[p := Dir]> fs) q = node_at fs q).
Proof.
  intros Hok. split; [| split; [| split]].
  - unfold mkdir_sem, faulty in *.
    destruct ch; cbn [fst snd] in *; try done;
      destruct (node_at fs p); by cbn [fst snd] in *.
  - apply node_at_stored, lookup_insert_eq.
  - intros Hq Hnone.
    destruct (decide (q = p)) as [-> | Hne];
      [apply node_at_stored, lookup_insert_eq |].
    unfold node_at, resolve.
    by rewrite lookup_insert_ne, Hnone, Hq, !lookup_insert_eq by done.
  - intros Hne Hq. unfold node_at, resolve.
    rewrite lookup_insert_ne by done.
    destruct (fs !! q) as [n |] eqn:E; [by rewrite lookup_insert_ne |].
    destruct (dot_dir q) as [k |]; [| done].
    assert (k <> p) by congruence.
    rewrite lookup_insert_ne by done.
    destruct (fs !! k) as [[] |]; try done.
    by rewrite lookup_insert_ne.
Qed.

Lemma frames_unlink (q p : string) : p <> q -> frames q (unlink_sem p).
Proof.
  intros Hp ch fs fds H. unfold unlink_sem, faulty.
  destruct ch; simpl; try done; destruct (fs !! p) as [[]|]; simpl; try done;
    by rewrite lookup_delete_ne.
Qed.

Lemma frames_open_rdonly (q p : string) : frames q (open_rdonly_sem p).
Proof.
  intros ch fs fds H. unfold open_rdonly_sem, faulty.
  destruct ch; simpl; try done; destruct (resolve fs p); simpl; try done;
    (split; [done | by apply no_writer_insert]).
Qed.

Lemma frames_open_excl (q p : string) : p <> q -> frames q (open_excl_sem p).
Proof.
  intros Hp ch fs fds H. unfold open_excl_sem, faulty.
  destruct ch; simpl; try done; destruct (fs !! p); simpl; try done;
    (split; [by rewrite lookup_insert_ne | by apply no_writer_insert]).
Qed.

Lemma frames_open_append (q p : string) : p <> q -> frames q (open_append_sem p).
Proof.
  intros Hp ch fs fds H. unfold open_append_sem, faulty.
  destruct ch; simpl; try done; destruct (fs !! p) as [[]|]; simpl; try done;
    (split; [by rewrite ?lookup_insert_ne | by apply no_writer_insert]).
Qed.

Lemma frames_read (q : string) (fd n : nat) : frames q (read_sem fd n).
Proof.
  intros ch fs fds H. unfold read_sem.
  destruct ch; simpl; try done;
    destruct (fds !! fd) as [f|] eqn:Hfd; simpl; try done;
    destruct (fs !! of_path f) as [[]|]; simpl; try done;
    (split; [done |]); apply no_writer_insert; try done;
    simpl; by apply (H fd f).
Qed.

Lemma frames_write (q : string) (fd : nat) (data : list Byte.byte) :
  frames q (write_sem fd data).
Proof.
  intros ch fs fds H. unfold write_sem.
  destruct ch; simpl; try done;
    destruct (fds !! fd) as [f|] eqn:Hfd; simpl; try done;
    destruct (of_writable f) eqn:Hw; simpl; try done;
    destruct (fs !! of_path f) as [[]|]; simpl; try done;
    pose proof (H fd f Hfd Hw) as Hne;
    (split; [by rewrite lookup_insert_ne | by apply no_writer_insert]).
Qed.

Lemma frames_close (q : string) (fd : nat) : frames q (close_sem fd).
Proof.
  intros ch fs fds H. unfold close_sem.
  destruct ch; simpl; try (split; [done | by apply no_writer_delete]);
    destruct (fds !! fd); simpl; try done;
    (split; [done | by apply no_writer_delete]).
Qed.

Lemma frames_rename (q from to : string) :
  from <> q -> to <> q -> frames q (rename_sem from to).
Proof.
  intros Hf Ht ch fs fds H. unfold rename_sem, faulty.
  destruct ch; simpl; try done;
    destruct (fs !! from); simpl; try done;
    destruct (fs !! to) as [[]|]; simpl; try done;
    by rewrite lookup_insert_ne, lookup_delete_ne.
Qed.

Lemma frames_flock (q : string) (fd : nat) : frames q (flock_sem fd).
Proof.
  intros ch fs fds H. unfold flock_sem, faulty.
  destruct ch; simpl; try done; by destruct (fds !! fd).
Qed.

(** ** Runs that leave a path alone *)

Lemma stable_refl (q : string) (w : world) :
  no_writer q (w_fds w) -> stable q w w.
Proof.
  intros H. split; [done |]. split; [done |].
  exists []. split; [by rewrite app_nil_r | constructor].
Qed.

Lemma stable_trans (q : string) (w1 w2 w3 : world) :
  stable q w1 w2 -> stable q w2 w3 -> stable q w1 w3.
Proof.
  intros (_ & Hfs1 & evs1 & Ht1 & Hu1) (Hnw & Hfs2 & evs2 & Ht2 & Hu2).
  split; [done |]. split; [congruence |].
  exists (evs1 ++ evs2). split.
  - by rewrite Ht2, Ht1, app_assoc.
  - unfold untouched in *. apply Forall_app. split; [done |].
    by rewrite <- Hfs1.
Qed.

Lemma stable_no_writer (q : string) (w w' : world) :
  stable q w w' -> no_writer q (w_fds w').
Proof. by intros (H & _). Qed.

Lemma preserves_syscall {A} (q : string) (c : call)
    (sem : env_choice -> kstate -> result A * kstate) :
  frames q sem -> preserves q (syscall c sem).
Proof.
  intros Hsem w Hnw. unfold syscall. simpl.
  destruct (Hsem (next_choice (w_env w)).1 (w_fs w) (w_fds w) Hnw) as [Hfs Hfd].
  split; [done |]. split; [done |].
  eexists. split; [reflexivity |].
  constructor; [| constructor]. done.
Qed.

Lemma preserves_ret {A} (q : string) (a : A) : preserves q (ret a).
Proof. intros w H. by apply stable_refl. Qed.

Lemma preserves_out_of_fuel {A} (q : string) : preserves q (@out_of_fuel A).
Proof. intros w H. by apply stable_refl. Qed.

Lemma preserves_undefined {A} (q : string) : preserves q (@undefined A).
Proof. intros w H. by apply stable_refl. Qed.

Lemma preserves_bind {A B} (q : string) (m : M A) (k : A -> M B) :
  preserves q m -> (forall a, preserves q (k a)) -> preserves q (bind m k).
Proof.
  intros Hm Hk w Hnw. unfold bind.
  specialize (Hm w Hnw).
  destruct (m w) as [[a | |] w1]; simpl in *; try done.
  eapply stable_trans; [exact Hm |].
  apply Hk. by eapply stable_no_writer.
Qed.

Lemma preserves_cp_out_error (q : string) (fd_from : nat) (fd_to : option nat) :
  preserves q (cp_out_error fd_from fd_to).
Proof.
  unfold cp_out_error.
  apply preserves_bind; [apply preserves_syscall, frames_close |].
  intros _. destruct fd_to; [| apply preserves_ret].
  apply preserves_bind; [apply preserves_syscall, frames_close |].
  intros _. apply preserves_ret.
Qed.

Lemma preserves_cp_write_all (q : string) (fuel fd_to : nat)
    (pending : list Byte.byte) :
  preserves q (cp_write_all fuel fd_to pending).
Proof.
  revert pending. induction fuel as [|fuel IH]; intros pending.
  - apply preserves_out_of_fuel.
  - cbn [cp_write_all].
    apply preserves_bind; [apply preserves_syscall, frames_write |].
    intros [e | n].
    + destruct (decide (e = EINTR)); [apply IH | apply preserves_ret].
    + destruct (0 <? length (drop n pending))%nat;
        [apply IH | apply preserves_ret].
Qed.

Lemma preserves_cp_loop (q : string) (fuel fd_to fd_from : nat) :
  preserves q (cp_loop fuel fd_to fd_from).
Proof.
  induction fuel as [|fuel IH].
  - apply preserves_out_of_fuel.
  - cbn [cp_loop].
    apply preserves_bind; [apply preserves_syscall, frames_read |].
    intros [e | chunk]; [apply preserves_cp_out_error |].
    destruct (0 <? length chunk)%nat.
    + apply preserves_bind; [apply preserves_cp_write_all |].
      intros [|]; [apply IH | apply preserves_cp_out_error].
    + apply preserves_bind; [apply preserves_syscall, frames_close |].
      intros [e | []]; [apply preserves_cp_out_error |].
      apply preserves_bind; [apply preserves_syscall, frames_close |].
      intros _. apply preserves_ret.
Qed.

(** Copying to [to] changes nothing at any other path, at any step, however
    the copy ends. *)
Lemma preserves_cp (q : string) (fuel : nat) (to from : string) :
  to <> q -> preserves q (cp fuel to from).
Proof.
  intros Hto. unfold cp.
  apply preserves_bind; [apply preserves_syscall, frames_open_rdonly |].
  intros [e | fd_from]; [apply preserves_ret |].
  apply preserves_bind; [by apply preserves_syscall, frames_open_excl |].
  intros [e | fd_to]; [apply preserves_cp_out_error | apply preserves_cp_loop].
Qed.

(** ** Runs that change a path by one final rename *)

Lemma commits_stable (tmp q : string) (w w1 : world) (r : outcome Z) (w' : world) :
  stable q w w1 -> put_outcome tmp q w1 r w' -> put_outcome tmp q w r w'.
Proof.
  intros (_ & Hfs & evs1 & Ht1 & Hu1) (evs & Ht & Hcases).
  exists (evs1 ++ evs). split; [by rewrite Ht, Ht1, app_assoc |].
  rewrite Hfs in Hcases.
  destruct Hcases as [(Hu & Hfs' & Hr) | (evs0 & e & -> & Hu & Hc & Hw & Hr)].
  - left. split; [by apply Forall_app | split; [congruence | done]].
  - right. exists (evs1 ++ evs0), e.
    split; [by rewrite app_assoc |].
    split; [by apply Forall_app | done].
Qed.

Lemma commits_bind {A} (tmp q : string) (m : M A) (k : A -> M Z) :
  preserves q m -> (forall a, commits tmp q (k a)) -> commits tmp q (bind m k).
Proof.
  intros Hm Hk w Hnw. unfold bind.
  specialize (Hm w Hnw).
  destruct (m w) as [[a | |] w1] eqn:E; simpl in *.
  - eapply commits_stable; [exact Hm |].
    apply Hk. by eapply stable_no_writer.
  - destruct Hm as (_ & Hfs & evs & Ht & Hu).
    exists evs. split; [done |]. left. done.
  - destruct Hm as (_ & Hfs & evs & Ht & Hu).
    exists evs. split; [done |]. left. done.
Qed.

Lemma commits_fail (tmp q : string) (code : Z) :
  code <> 0 -> commits tmp q (ret code).
Proof.
  intros Hc w Hnw. exists []. split; [by rewrite app_nil_r |].
  left. split; [constructor | split; [done |]].
  simpl. congruence.
Qed.

Lemma commits_preserves (tmp q : string) (m : M Z) :
  preserves q m -> (forall w, (m w).1 <> Done 0) -> commits tmp q m.
Proof.
  intros Hm Hr w Hnw. destruct (Hm w Hnw) as (_ & Hfs & evs & Ht & Hu).
  exists evs. split; [done |]. left. split; [done | split; [done | apply Hr]].
Qed.

(** ** [command_put] *)

Lemma rename_sem_failed (from to : string) (ch : env_choice) (k : kstate) :
  is_ok (rename_sem from to ch k).1 = false ->
  (rename_sem from to ch k).2 = k.
Proof.
  unfold rename_sem, faulty.
  destruct ch; simpl; try done;
    destruct (k.1 !! from); simpl; try done;
    by destruct (k.1 !! to) as [[]|].
Qed.

Lemma commits_command_put_commit (tmp : string) (p : cache_entry_path_t) :
  commits tmp (fullpath p) (command_put_commit tmp p).
Proof.
  intros w Hnw. unfold command_put_commit, bind, sys_rename, syscall.
  set (rk := rename_sem tmp (fullpath p) (next_choice (w_env w)).1
               (w_fs w, w_fds w)).
  cbv beta iota.
  pose proof (rename_sem_failed tmp (fullpath p) (next_choice (w_env w)).1
                (w_fs w, w_fds w)) as Hfail.
  fold rk in Hfail.
  destruct rk.1 as [e | []] eqn:Hr; unfold ret; cbn [fst snd].
  - eexists. split; [reflexivity |]. left.
    rewrite (Hfail eq_refl). simpl.
    split; [by repeat constructor | split; [done |]].
    unfold RET_FILE_OPS. congruence.
  - eexists. split; [reflexivity |].
    right. exists [], (mk_event (CRename tmp (fullpath p)) true rk.2.1).
    split; [done |]. split; [constructor |]. by repeat split.
Qed.

Lemma commits_command_put_copy (fuel : nat) (tmp : string)
    (p : cache_entry_path_t) (source_file_path : string) :
  tmp <> fullpath p ->
  commits tmp (fullpath p) (command_put_copy fuel tmp p source_file_path).
Proof.
  intros Htmp. unfold command_put_copy.
  apply commits_bind; [by apply preserves_cp |].
  intros c. destruct (c <? 0); [by apply commits_fail |].
  apply commits_command_put_commit.
Qed.

Lemma commits_command_put_stage (fuel : nat) (p : cache_entry_path_t)
    (source_file_path : string) :
  tmpfilename_of p <> fullpath p ->
  commits (tmpfilename_of p) (fullpath p)
          (command_put_stage fuel p source_file_path).
Proof.
  intros Htmp. unfold command_put_stage.
  apply commits_bind; [by apply preserves_syscall, frames_unlink |].
  intros [e | []]; [| by apply commits_command_put_copy].
  destruct (decide (e = ENOENT));
    [by apply commits_command_put_copy | by apply commits_fail].
Qed.

Lemma commits_command_put (sg : bool) (fuel : nat)
    (cache_path cache_id source_file_path : string) :
  let p := cache_id_to_path sg cache_path cache_id in
  commits (tmpfilename_of p) (fullpath p)
          (command_put sg fuel cache_path cache_id source_file_path).
Proof.
  cbn zeta. unfold command_put.
  pose proof (fullpath_not_tmpfilename sg cache_path cache_id) as Htmp.
  pose proof (fullpath_not_dirfullpath sg cache_path cache_id) as Hdir.
  cbn zeta in Htmp, Hdir.
  apply commits_bind; [apply preserves_syscall, frames_stat |].
  intros [e | stat_buf].
  - apply commits_bind; [by apply preserves_syscall, frames_mkdir |].
    intros [e' | []];
      [by apply commits_fail | by apply commits_command_put_stage].
  - destruct (negb (S_ISDIR stat_buf));
      [by apply commits_fail | by apply commits_command_put_stage].
Qed.

(** ** [command_get] and [command_delete] on an absent entry *)

Lemma sys_stat_absent (p : string) (w : world) :
  node_at (w_fs w) p = None ->
  exists e,
    sys_stat p w
    = (Done (Err e),
       {| w_fs := w_fs w; w_fds := w_fds w;
          w_env := (next_choice (w_env w)).2;
          w_trace := w_trace w ++ [mk_event (CStat p) false (w_fs w)] |}).
Proof.
  intros H. unfold sys_stat, syscall, stat_sem, faulty.
  destruct (next_choice (w_env w)).1; simpl; rewrite ?H; eauto.
Qed.

Lemma undisturbed_next (env : list env_choice) :
  undisturbed env ->
  (forall e, (next_choice env).1 <> Failure e)
  /\ undisturbed (next_choice env).2.
Proof.
  intros H. destruct env as [|c env]; [by split |].
  by apply Forall_cons in H as [Hc Henv].
Qed.

Lemma sys_unlink_absent (p : string) (w : world) :
  w_fs w !! p = None -> undisturbed (w_env w) ->
  sys_unlink p w
  = (Done (Err ENOENT),
     {| w_fs := w_fs w; w_fds := w_fds w; w_env := (next_choice (w_env w)).2;
        w_trace := w_trace w ++ [mk_event (CUnlink p) false (w_fs w)] |}).
Proof.
  intros H [Hc _]%undisturbed_next.
  unfold sys_unlink, syscall, unlink_sem, faulty.
  destruct (next_choice (w_env w)).1 as [| e |]; cbn [fst snd];
    rewrite ?H; [done | by destruct (Hc e) | done].
Qed.

Lemma second_copy_delete_once (sg : bool) (cache_path cache_id : string)
    (w : world) :
  let p := cache_id_to_path sg cache_path cache_id in
  w_fs w !! fullpath p = None -> undisturbed (w_env w) ->
  SecondCopy.command_delete sg cache_path cache_id w
  = (Done RET_MISS,
     {| w_fs := w_fs w; w_fds := w_fds w; w_env := (next_choice (w_env w)).2;
        w_trace := w_trace w ++ [mk_event (CUnlink (fullpath p)) false (w_fs w)] |}).
Proof.
  cbn zeta. intros H Henv.
  unfold SecondCopy.command_delete, bind.
  by rewrite (sys_unlink_absent _ w H Henv).
Qed.

Lemma src_copy_delete_once (sg : bool) (cache_path cache_id : string)
    (w : world) :
  let p := cache_id_to_path sg cache_path cache_id in
  w_fs w !! fullpath p = None -> undisturbed (w_env w) ->
  SrcCopy.command_delete sg cache_path cache_id w
  = (Done 0,
     {| w_fs := w_fs w; w_fds := w_fds w; w_env := (next_choice (w_env w)).2;
        w_trace := w_trace w ++ [mk_event (CUnlink (fullpath p)) false (w_fs w)] |}).
Proof.
  cbn zeta. intros H Henv.
  unfold SrcCopy.command_delete, bind.
  by rewrite (sys_unlink_absent _ w H Henv).
Qed.

(** The copy with the documented exit codes reports a miss for an absent
    entry, and again on a second invocation, as long as the environment
    does not fail [unlink] for a reason of its own. *)
Lemma second_copy_delete_absent (sg : bool) (cache_path cache_id : string)
    (w : world) :
  let p := cache_id_to_path sg cache_path cache_id in
  let run1 := SecondCopy.command_delete sg cache_path cache_id w in
  let run2 := SecondCopy.command_delete sg cache_path cache_id run1.2 in
  w_fs w !! fullpath p = None -> undisturbed (w_env w) ->
  run1.1 = Done RET_MISS /\ w_fs run1.2 = w_fs w
  /\ run2.1 = Done RET_MISS /\ w_fs run2.2 = w_fs w.
Proof.
  cbn zeta. intros H Henv.
  rewrite (second_copy_delete_once sg cache_path cache_id w H Henv).
  cbn [fst snd].
  rewrite second_copy_delete_once; [done | done |].
  by apply undisturbed_next.
Qed.

(** The copy under src/ reports success instead. *)
Lemma src_copy_delete_absent (sg : bool) (cache_path cache_id : string)
    (w : world) :
  let p := cache_id_to_path sg cache_path cache_id in
  let run1 := SrcCopy.command_delete sg cache_path cache_id w in
  let run2 := SrcCopy.command_delete sg cache_path cache_id run1.2 in
  w_fs w !! fullpath p = None -> undisturbed (w_env w) ->
  run1.1 = Done 0 /\ w_fs run1.2 = w_fs w
  /\ run2.1 = Done 0 /\ w_fs run2.2 = w_fs w.
Proof.
  cbn zeta. intros H Henv.
  rewrite (src_copy_delete_once sg cache_path cache_id w H Henv).
  cbn [fst snd].
  rewrite src_copy_delete_once; [done | done |].
  by apply undisturbed_next.
Qed.

(** ** The [clean] command line *)

Lemma command_clean_internal (cache_path : string) (max_size_mb : Z) (w : world) :
  command_clean cache_path max_size_mb w = (Done RET_INTERNAL, w).
Proof. reflexivity. Qed.

(** With the argument count [main] accepts for [clean], the size is read
    from the null pointer that ends [argv]; nothing else is done. *)
Lemma main_with_clean (sg : bool) (command_delete : string -> string -> M Z)
    (fuel : nat) (progname cache_path size : string) (w : world) :
  cache_path <> "" ->
  main_with sg command_delete fuel [progname; cache_path; "clean"; size] w
  = (Undefined, w).
Proof.
  intros Hne. unfold main_with. simpl.
  destruct cache_path; [done |]. reflexivity.
Qed.

(** With one more argument the invocation is refused as a usage error. *)
Lemma main_with_clean_five (sg : bool) (command_delete : string -> string -> M Z)
    (fuel : nat) (progname cache_path size extra : string) (w : world) :
  cache_path <> "" ->
  main_with sg command_delete fuel
    [progname; cache_path; "clean"; size; extra] w
  = (Done RET_USAGE, w).
Proof.
  intros Hne. unfold main_with. simpl.
  destruct cache_path; [done |]. reflexivity.
Qed.

(** ** What a successful copy leaves behind *)

Lemma triple_ret {A} (P : gmap string node -> gmap nat open_file -> Prop)
    (a : A) (Q : A -> gmap string node -> gmap nat open_file -> Prop) :
  (forall fs fds, P fs fds -> Q a fs fds) -> triple P (ret a) Q.
Proof. intros H w Hw. by apply H. Qed.

Lemma triple_out_of_fuel {A} P (Q : A -> _) : triple P out_of_fuel Q.
Proof. by intros w Hw. Qed.

Lemma triple_bind {A B} P (m : M A) R (k : A -> M B) Q :
  triple P m R -> (forall a, triple (R a) (k a) Q) -> triple P (bind m k) Q.
Proof.
  intros Hm Hk w Hw. unfold bind. specialize (Hm w Hw).
  destruct (m w) as [[a | |] w1]; [| done | done].
  by apply Hk.
Qed.

Lemma triple_weaken {A} (P P' : gmap string node -> gmap nat open_file -> Prop)
    (m : M A) (Q Q' : A -> gmap string node -> gmap nat open_file -> Prop) :
  (forall fs fds, P' fs fds -> P fs fds) ->
  (forall a fs fds, Q a fs fds -> Q' a fs fds) ->
  triple P m Q -> triple P' m Q'.
Proof.
  intros HP HQ Hm w Hw. specialize (Hm w (HP _ _ Hw)).
  destruct (m w) as [[a | |] w1]; [| done | done]. by apply HQ.
Qed.

Lemma triple_syscall {A} P (c : call)
    (sem : env_choice -> kstate -> result A * kstate) Q :
  (forall ch fs fds,
      P fs fds ->
      Q (sem ch (fs, fds)).1 (sem ch (fs, fds)).2.1 (sem ch (fs, fds)).2.2) ->
  triple P (syscall c sem) Q.
Proof. intros H w Hw. unfold syscall. simpl. by apply H. Qed.



Lemma triple_assume {A} (phi : Prop)
    (P : gmap string node -> gmap nat open_file -> Prop) (m : M A) Q :
  (phi -> triple P m Q) -> triple (fun fs fds => P fs fds /\ phi) m Q.
Proof. intros H w [HP Hphi]. by apply H. Qed.

Lemma take_length_take {A} (n : nat) (l : list A) :
  take (length (take n l)) l = take n l.
Proof.
  rewrite length_take.
  destruct (Nat.le_gt_cases n (length l)).
  - by rewrite Nat.min_l.
  - rewrite Nat.min_r by lia. by rewrite !take_ge by lia.
Qed.


Section Copying.

(** A copy of the file [d] from [from], read through [fd_from], to [to],
    written through [fd_to]. *)
Variable d : list Byte.byte.
Variables from to : string.
Variables fd_from fd_to : nat.





End Copying.


Lemma fresh_fd_None (fds : gmap nat open_file) : fds !! fresh_fd fds = None.
Proof.
  unfold fresh_fd. apply (not_elem_of_dom (D := gset nat)).
  apply (is_fresh (dom fds)).
Qed.


(** ** What a successful [put] leaves behind *)






(** ** [put] run from [main] *)

(** X14.  Every path other than the shard directory, the staging path and
    the entry path keeps its content throughout a run of [command_put],
    cut short or not: from a state in which no descriptor is open for
    writing on such a path, every state recorded during the run, and the
    last one, hold there what was there at the start. *)
Lemma preserves_command_put_elsewhere (sg : bool) (fuel : nat)
    (cache_path cache_id source_file_path q : string) :
  let p := cache_id_to_path sg cache_path cache_id in
  q <> dirfullpath p -> q <> tmpfilename_of p -> q <> fullpath p ->
  preserves q (command_put sg fuel cache_path cache_id source_file_path).
Proof.
  cbn zeta. set (p := cache_id_to_path sg cache_path cache_id).
  intros Hdir Htmp Hfull.
  assert (Hcopy : preserves q
            (command_put_copy fuel (tmpfilename_of p) p source_file_path)).
  { unfold command_put_copy.
    apply preserves_bind; [by apply preserves_cp |].
    intros c. destruct (c <? 0); [apply preserves_ret |].
    unfold command_put_commit.
    apply preserves_bind; [by apply preserves_syscall, frames_rename |].
    intros [e | []]; apply preserves_ret. }
  assert (Hstage : preserves q (command_put_stage fuel p source_file_path)).
  { unfold command_put_stage.
    apply preserves_bind; [by apply preserves_syscall, frames_unlink |].
    intros [e | []]; [| exact Hcopy].
    destruct (decide (e = ENOENT)); [exact Hcopy | apply preserves_ret]. }
  unfold command_put. fold p.
  apply preserves_bind; [apply preserves_syscall, frames_stat |].
  intros [e | stat_buf].
  - apply preserves_bind; [by apply preserves_syscall, frames_mkdir |].
    intros [e' | []]; [apply preserves_ret | exact Hstage].
  - destruct (negb (S_ISDIR stat_buf)); [apply preserves_ret | exact Hstage].
Qed.

Lemma subdir_digits_not_dot (n : nat) (s : Z) (t u : string) :
  subdir_digits (S n) s +:+ t <> String "." u.
Proof.
  cbn [subdir_digits]. rewrite append_cons. intros E. injection E as E _.
  pose proof (shard_letter_range s) as Hr. cbn zeta in Hr.
  rewrite E in Hr. discriminate Hr.
Qed.

(** The lock file is not the entry of any identifier. *)
Lemma lock_path_not_fullpath (sg : bool) (cache_path cache_id : string) :
  str_join_path cache_path [".lock"]
  <> fullpath (cache_id_to_path sg cache_path cache_id).
Proof.
  destruct (cache_id_to_path_shape sg cache_path cache_id) as [Hf _].
  rewrite Hf. unfold cache_id_to_path. cbn [dirfullpath filename].
  rewrite !str_join_path_two.
  pose proof (subdir_digits_no_slash 4 (subdir_hash cache_id 0)) as Hd.
  fold (get_subdir_for_id cache_id) in Hd.
  rewrite (begins_with_slash_mem _ Hd).
  change (begins_with_slash ".lock") with false.
  rewrite !append_assoc.
  intros E. do 2 apply String.app_inj in E.
  unfold get_subdir_for_id in E.
  symmetry in E. by apply subdir_digits_not_dot in E.
Qed.

Lemma commits_main_dispatch_put (sg : bool)
    (command_delete : string -> string -> M Z) (fuel : nat)
    (cache_path cache_id source_file_path : string) :
  let p := cache_id_to_path sg cache_path cache_id in
  commits (tmpfilename_of p) (fullpath p)
    (main_dispatch sg command_delete fuel cache_path "put" cache_id
       source_file_path 0).
Proof.
  cbn zeta. unfold main_dispatch.
  apply commits_bind; [apply preserves_syscall, frames_stat |].
  intros [e | stat_buf]; [by apply commits_fail |].
  destruct (negb (S_ISDIR stat_buf)); [by apply commits_fail |].
  apply commits_bind;
    [apply preserves_syscall, frames_open_append, lock_path_not_fullpath |].
  intros [e | lock_fd]; [by apply commits_fail |].
  apply commits_bind; [apply preserves_syscall, frames_flock |].
  intros [e | []]; [by apply commits_fail |].
  change (String.eqb "put" "put") with true. cbv iota.
  apply commits_command_put.
Qed.

(** For an entry path that names an entry, the kernel finds there what is
    stored there. *)
Lemma put_outcome_found (tmp q : string) (w : world) (r : outcome Z)
    (w' : world) :
  dot_dir q = None -> put_outcome tmp q w r w' -> put_outcome_at tmp q w r w'.
Proof.
  intros Hq (evs & Ht & Hcases). exists evs. split; [exact Ht |].
  assert (Hplain : forall fs, node_at fs q = fs !! q)
    by (intros fs; by apply node_at_plain).
  destruct Hcases as [(Hu & Hfs & Hr) | (evs0 & e & -> & Hu & Hc & Hw & Hr)].
  - left. split; [| split; [by rewrite !Hplain | exact Hr]].
    eapply Forall_impl; [exact Hu |]. intros e He. by rewrite !Hplain.
  - right. exists evs0, e. split; [done |]. split; [| done].
    eapply Forall_impl; [exact Hu |]. intros e' He. by rewrite !Hplain.
Qed.

Lemma dot_name_false (id : string) :
  id <> "" -> id <> "." -> id <> ".." -> dot_name id = false.
Proof.
  intros H0 H1 H2. unfold dot_name.
  destruct (String.eqb_spec id ""); [done |].
  destruct (String.eqb_spec id "."); [done |].
  by destruct (String.eqb_spec id "..").
Qed.

(** X20.  A whole invocation [<prog> <root> put <id> <file>] of either
    copy, for an identifier other than [.] and [..], started with no
    descriptor open, whatever the environment does: the [stat] of the root,
    the creation of the lock file and the [flock] leave the entry path
    alone, and what the kernel finds at the entry path changes only by the
    final, successful rename of the staging path onto it; a run that does
    not exit with 0 leaves at the entry path what was there. *)
Lemma main_put_atomic (sg : bool) (command_delete : string -> string -> M Z)
    (fuel : nat) (progname cache_path cache_id source_file_path : string)
    (w : world) :
  let p := cache_id_to_path sg cache_path cache_id in
  let argv := [progname; cache_path; "put"; cache_id; source_file_path] in
  cache_id <> "." -> cache_id <> ".." ->
  w_fds w = ∅ ->
  put_outcome_at (tmpfilename_of p) (fullpath p) w
    (main_with sg command_delete fuel argv w).1
    (main_with sg command_delete fuel argv w).2.
Proof.
  cbn zeta. intros Hid1 Hid2 Hfds.
  assert (Hnw : no_writer
                  (fullpath (cache_id_to_path sg cache_path cache_id))
                  (w_fds w)) by (rewrite Hfds; apply map_Forall_empty).
  unfold main_with. cbn [length Nat.leb negb lookup list_lookup Nat.eqb].
  assert (Husage : put_outcome_at
            (tmpfilename_of (cache_id_to_path sg cache_path cache_id))
            (fullpath (cache_id_to_path sg cache_path cache_id))
            w (ret RET_USAGE w).1 (ret RET_USAGE w).2).
  { exists []. split; [by rewrite app_nil_r |]. left.
    split; [constructor | split; [done |]]. cbn. unfold RET_USAGE. congruence. }
  destruct (nonempty cache_path && nonempty "put"); cbn [negb];
    [| exact Husage].
  change (String.eqb "put" "put") with true. cbn [orb].
  destruct (nonempty source_file_path && nonempty cache_id) eqn:Hne;
    cbn [negb]; [| exact Husage].
  apply put_outcome_found.
  - pose proof (dot_dir_fullpath sg cache_path cache_id) as H.
    cbn zeta in H. rewrite H, dot_name_false; [done | | done | done].
    intros ->. by rewrite andb_false_r in Hne.
  - by apply commits_main_dispatch_put.
Qed.

(** ** The shard router against its description *)

(** C3, as the code has it.  For every identifier the shard name is the one
    obtained as follows: a 64-bit accumulator starts at zero; for each byte
    of the identifier in order, the byte is XORed with bits 24 to 31 of the
    accumulator (the accumulator shifted right by 24, cut to 8 bits, not the
    top 8 bits of the 64), the accumulator is shifted left by 8 bits and the
    XOR result is added; then four characters are produced by taking the
    accumulator modulo 25, mapping 0..24 to 'a'..'y', and dividing by 25,
    least significant digit first. *)
Theorem get_subdir_for_id_bits24 (id : string) :
  get_subdir_for_id id = shard_spec_bits24 id
  /\ String.length (get_subdir_for_id id) = 4%nat
  /\ str_all (fun c => (byte_val "a" <=? byte_val c)
                       && (byte_val c <=? byte_val "y"))
             (get_subdir_for_id id) = true.
Proof.
  unfold get_subdir_for_id, shard_spec_bits24. split; [| split].
  - by rewrite subdir_digits_name, subdir_hash_fold.
  - apply subdir_digits_length.
  - apply subdir_digits_letters.
Qed.

(** C3, as stated, fails: on a five-byte identifier the name computed by the
    code differs from the one obtained with the top 8 bits of the 64-bit
    accumulator. *)
Lemma get_subdir_for_id_not_top8 :
  get_subdir_for_id "abcde" = "xqna"
  /\ shard_spec_top8 "abcde" = "uuna"
  /\ get_subdir_for_id "abcde" <> shard_spec_top8 "abcde".
Proof. by vm_compute. Qed.

(** ** The encoder against its description *)

(** C4 fails where plain [char] is signed: the byte 128, neither a control
    nor a reserved character, is not passed through but replaced by a
    percent sign and the first three digits of 4294967168. *)
Theorem encode_id_signed_high_byte :
  let id := String (ascii_of_nat 128) "" in
  encode_id true id = "%429"
  /\ spec_encode id = id
  /\ to_unsigned (char_val true (ascii_of_nat 128)) = 4294967168
  /\ encode_id true id <> spec_encode id.
Proof. by vm_compute. Qed.

(** C5, as stated, fails: a control byte followed by a digit and another
    control byte have the same encoded form, whatever the signedness of
    [char]. *)
Lemma encode_id_collision :
  let a := String (ascii_of_nat 1) "0" in
  let b := String (ascii_of_nat 10) "" in
  a <> b /\ a <> "" /\ b <> ""
  /\ encode_id true a = "%10" /\ encode_id true b = "%10"
  /\ encode_id false a = "%10" /\ encode_id false b = "%10".
Proof. by vm_compute. Qed.

(** C5, amended.  The encoder is injective on the decodable identifiers,
    those in which none of the bytes 1 to 9 is directly followed by a digit
    that makes, with the digit of the byte's escape, the value of a control
    or reserved byte (and, where plain [char] is signed, whose bytes are
    all below 128): distinct decodable identifiers have distinct encoded
    forms.  Nothing more can be kept: every identifier that is not
    decodable has the encoded form of a decodable identifier other than
    itself. *)
Theorem encode_id_injective_decodable (sg : bool) :
  (forall id1 id2 : string,
      decodable sg id1 = true -> decodable sg id2 = true ->
      id1 <> id2 -> encode_id sg id1 <> encode_id sg id2)
  /\ (forall id : string,
         decodable sg id = false ->
         exists id' : string,
           decodable sg id' = true /\ id' <> id
           /\ encode_id sg id' = encode_id sg id).
Proof.
  split.
  - intros id1 id2 H1 H2 Hne Heq. apply Hne.
    rewrite <- (decode_encode_id sg id1 H1).
    rewrite <- (decode_encode_id sg id2 H2).
    by rewrite Heq.
  - intros id Hid. exists (merge_escapes sg id).
    split; [apply decodable_merge_escapes |].
    split; [by apply merge_escapes_changes | apply encode_id_merge_escapes].
Qed.

Lemma encode_id_injective_decodable_witness :
  decodable true "v2/1.0" = true
  /\ decodable true "pkg/1.2.3" = true
  /\ encode_id true "v2/1.0" <> encode_id true "pkg/1.2.3"
  /\ decodable true (String (ascii_of_nat 1) "0") = false
  /\ exists id' : string,
       decodable true id' = true /\ id' <> String (ascii_of_nat 1) "0"
       /\ encode_id true id' = encode_id true (String (ascii_of_nat 1) "0").
Proof.
  assert (Hne : "v2/1.0" <> "pkg/1.2.3") by discriminate.
  split; [reflexivity |]. split; [reflexivity |].
  split; [| split; [reflexivity |]].
  - exact (proj1 (encode_id_injective_decodable true) "v2/1.0" "pkg/1.2.3"
             eq_refl eq_refl Hne).
  - exact (proj2 (encode_id_injective_decodable true)
             (String (ascii_of_nat 1) "0") eq_refl).
Defined.

(** C7.  The encoding is not idempotent: for every identifier that contains
    a percent sign, encoding the encoded form gives a string different from
    the encoded form. *)
Theorem encode_id_not_idempotent (sg : bool) (id : string) :
  str_mem "%" id = true ->
  encode_id sg (encode_id sg id) <> encode_id sg id.
Proof.
  intros Hin Heq.
  pose proof (encode_id_grows sg _ (encode_id_keeps_percent sg id Hin)) as Hlt.
  rewrite Heq in Hlt. lia.
Qed.

Lemma encode_id_not_idempotent_witness :
  str_mem "%" "50%" = true
  /\ encode_id true (encode_id true "50%") <> encode_id true "50%".
Proof.
  split; [reflexivity |].
  exact (encode_id_not_idempotent true "50%" eq_refl).
Defined.

(** C10.  No encoded identifier contains a question mark, so none equals the
    staging name ".?tmpfile", and the staging path [command_put] uses for
    one identifier is the entry path of no identifier under the same cache
    root. *)
Theorem encode_id_never_tmpfile (sg : bool) (cache_path cache_id : string) :
  str_mem "?" (encode_id sg cache_id) = false
  /\ encode_id sg cache_id <> tmpfile_name
  /\ forall id' : string,
       tmpfilename_of (cache_id_to_path sg cache_path id')
       <> fullpath (cache_id_to_path sg cache_path cache_id).
Proof.
  split; [apply encode_id_no_question_mark |].
  split; [| intros id'; apply tmpfilename_not_fullpath].
  intros E. pose proof (encode_id_no_question_mark sg cache_id) as Hq.
  by rewrite E in Hq.
Qed.

(** ** Path joining against its description *)

Lemma begins_with_slash_strip (b : string) :
  begins_with_slash (strip_leading b) = false.
Proof.
  induction b as [|c b IH]; [reflexivity |].
  simpl. destruct (Ascii.eqb c "/") eqn:E; [assumption |].
  simpl. by rewrite E.
Qed.

Lemma ends_with_slash_strip (a : string) :
  ends_with_slash (strip_trailing a) = false.
Proof. by destruct (strip_trailing_spec a) as (n & _ & He). Qed.

(** C6, as stated, fails: when the left component ends with a separator and
    the right one begins with one, both are kept. *)
Lemma str_join_path_two_separators :
  str_join_path "a/" ["/b"] = "a//b"
  /\ joined_by_one "a/" "/b" = "a/b"
  /\ str_join_path "a/" ["/b"] <> joined_by_one "a/" "/b".
Proof. by vm_compute. Qed.

(** C6, amended.  Joining two components keeps every separator the left one
    ends with and the right one begins with, and inserts one when there is
    none; so the result has exactly one separator between the components if
    and only if the operands bring at most one between them. *)
Theorem str_join_path_one_separator (a b : string) :
  str_join_path a [b]
  = strip_trailing a +:+ slashes (junction a b) +:+ strip_leading b
  /\ (str_join_path a [b] = joined_by_one a b
      <-> (count_trailing a + count_leading b <= 1)%nat).
Proof.
  split; [apply str_join_path_junction |].
  rewrite str_join_path_junction. unfold joined_by_one, junction.
  split.
  - intros E. apply String.app_inj in E.
    apply (f_equal String.length) in E.
    rewrite !length_append, length_slashes in E. simpl in E.
    destruct (count_trailing a + count_leading b)%nat; lia.
  - intros Hle.
    destruct (count_trailing a + count_leading b)%nat as [|[|k]];
      [reflexivity | reflexivity | lia].
Qed.

(** ** The entry operations against their description *)






(** Nothing more is given up: where something is found at the entry path
    and the environment does not fail the [stat], no run of [get] answers
    the miss code. *)
Lemma command_get_found (sg : bool) (fuel : nat)
    (cache_path cache_id source_file_path : string) (w : world) (n : node) :
  node_at (w_fs w) (fullpath (cache_id_to_path sg cache_path cache_id))
  = Some n ->
  (forall e, (next_choice (w_env w)).1 <> Failure e) ->
  (command_get sg fuel cache_path cache_id source_file_path w).1
  <> Done RET_MISS.
Proof.
  intros Hn Hch.
  assert (Hcopy : forall p w1,
    (command_get_copy fuel p source_file_path w1).1 <> Done RET_MISS).
  { intros p w1. unfold command_get_copy, bind.
    destruct (cp fuel source_file_path (fullpath p) w1) as [[c | |] w2];
      [| done | done].
    by destruct (c <? 0). }
  unfold command_get, bind, sys_stat, syscall. cbn zeta.
  unfold stat_sem, faulty.
  destruct (next_choice (w_env w)).1 as [| e |]; [| by destruct (Hch e) |];
    cbn [fst snd]; rewrite Hn; cbn [fst snd];
    (match goal with
     | |- context [sys_unlink ?d ?w1] =>
         destruct (sys_unlink d w1) as [[[e | []] | |] w2]
     end; cbn [fst snd]; try done; try apply Hcopy;
     destruct (decide (e = ENOENT)); [apply Hcopy | done]).
Qed.


(** C1 fails on the copy under src/: its [delete] of an identifier with no
    entry answers 0, at the level of [command_delete] and of [main]; the
    other copy answers the miss code on the same input. *)
Theorem src_copy_delete_unknown_key :
  let w := initial_world sample_fs [] in
  let argv := ["afilecache"; "/c"; "delete"; "unknown-key"] in
  w_fs w !! fullpath (cache_id_to_path true "/c" "unknown-key") = None
  /\ (SrcCopy.command_delete true "/c" "unknown-key" w).1 = Done 0
  /\ (SrcCopy.main true 0 argv w).1 = Done 0
  /\ (SecondCopy.main true 0 argv w).1 = Done RET_MISS.
Proof. by vm_compute. Qed.

(** C8 fails: a well-formed [clean] command line has four entries, and with
    four entries [main] passes the null pointer [argv[4]] to [atoi]; the
    run is undefined before the cache root is looked at, and the internal
    error code of [command_clean] is never reached. *)
Theorem main_clean_reads_null :
  let w := initial_world sample_fs [] in
  let argv := ["afilecache"; "/c"; "clean"; "10"] in
  argv !! 4%nat = None
  /\ SrcCopy.main true 0 argv w = (Undefined, w)
  /\ SecondCopy.main true 0 argv w = (Undefined, w)
  /\ command_clean "/c" 10 w = (Done RET_INTERNAL, w).
Proof. by vm_compute. Qed.

(** ** Sample runs *)

(** Storing a file and reading it back. *)
Example put_then_get :
  let w0 := initial_world sample_fs [] in
  let w1 := (SecondCopy.main true 100 ["afilecache"; "/c"; "put"; "k1"; "/tmp/f"]
               w0).2 in
  let w2 := (SecondCopy.main true 100 ["afilecache"; "/c"; "get"; "k1"; "/tmp/g"]
               (initial_world (w_fs w1) [])).2 in
  w_fs w1 !! "/c/qwsb/k1" = Some (File (list_byte_of_string "payload"))
  /\ w_fs w1 !! "/c/qwsb/.?tmpfile" = None
  /\ w_fs w2 !! "/tmp/g" = Some (File (list_byte_of_string "payload")).
Proof. by vm_compute. Qed.

(** A copy that fails half way leaves its part under the staging name. *)
Example put_interrupted :
  let env := [Proceed; Proceed; Proceed; Proceed; Proceed; Proceed; Proceed;
              Proceed; Proceed; Short 3; Failure EINTR; Failure ENOSPC] in
  let res := SecondCopy.main true 100
               ["afilecache"; "/c"; "put"; "k1"; "/tmp/f"]
               (initial_world sample_fs env) in
  res.1 = Done RET_FILE_OPS
  /\ w_fs res.2 !! "/c/qwsb/k1" = None
  /\ w_fs res.2 !! "/c/qwsb/.?tmpfile" = Some (File (list_byte_of_string "pay")).
Proof. by vm_compute. Qed.

(** The scenario of the specification: [get] of an unknown key on a root
    with no entry exits with 2 and leaves no file behind. *)
Example get_unknown_key :
  let res := SecondCopy.main true 100
               ["afilecache"; "/c"; "get"; "unknown-key"; "out"]
               (initial_world sample_fs []) in
  res.1 = Done RET_MISS /\ w_fs res.2 !! "out" = None.
Proof. by vm_compute. Qed.

(** Two identifiers with the same shard and the same encoded name: storing
    under the first makes the second, never stored, a hit. *)
Example entry_collision :
  let a := String (ascii_of_nat 2) "2" in
  let b := String (ascii_of_nat 22) "" in
  let c := String (ascii_of_nat 24) "" in
  let d := String (ascii_of_nat 2) "4" in
  let id1 := "p" +:+ a +:+ "md" +:+ c +:+ "bbp" in
  let id2 := "p" +:+ b +:+ "md" +:+ d +:+ "bbp" in
  let w1 := (SecondCopy.main false 100 ["afilecache"; "/c"; "put"; id1; "/tmp/f"]
               (initial_world sample_fs [])).2 in
  let res := SecondCopy.main false 100 ["afilecache"; "/c"; "get"; id2; "/tmp/g"]
               (initial_world (w_fs w1) []) in
  id1 <> id2
  /\ cache_id_to_path true "/c" id1 = cache_id_to_path true "/c" id2
  /\ cache_id_to_path false "/c" id1 = cache_id_to_path false "/c" id2
  /\ res.1 = Done 0
  /\ w_fs res.2 !! "/tmp/g" = Some (File (list_byte_of_string "payload")).
Proof. by vm_compute. Qed.

(** Where [char] is signed, any two identifiers of bytes from 128 upwards
    with the same length have the same encoded name; these two also have
    the same shard. *)
Example entry_collision_high_bytes :
  let id1 := string_of_list_ascii (ascii_of_nat <$> [128; 139; 159]%nat) in
  let id2 := string_of_list_ascii (ascii_of_nat <$> [134; 129; 128]%nat) in
  id1 <> id2
  /\ cache_id_to_path true "/c" id1 = cache_id_to_path true "/c" id2
  /\ filename (cache_id_to_path true "/c" id1) = "%429%429%429".
Proof. by vm_compute. Qed.

(** ** Further properties of the string functions *)

Lemma str_buffer_join_fits (b : str_buffer_t) (s : string) :
  buffer_consistent b -> buffer_fits (str_buffer_join b s).
Proof.
  intros H0. unfold buffer_fits, buffer_consistent in *.
  rewrite buf_len_join, buf_str_join. unfold strlen in *.
  rewrite length_append, H0. split; [lia |].
  unfold str_buffer_join, str_buffer_extend. cbn [buf_len buf_size].
  destruct (_ && _) eqn:E; cbn [buf_len buf_size].
  - apply andb_true_iff in E as [_ E%Z.ltb_lt]. unfold strlen in E. lia.
  - rewrite H0. unfold strlen.
    assert (0 <= (Z.of_nat (String.length (buf_str b))
                  + Z.of_nat (String.length s)) / 2)
      by (apply Z.div_pos; lia).
    lia.
Qed.

Lemma str_buffer_join_char_fits (b : str_buffer_t) (c : ascii) :
  buffer_consistent b -> buffer_fits (str_buffer_join_char b c).
Proof.
  intros H0. unfold buffer_fits, buffer_consistent in *.
  unfold str_buffer_join_char. cbn [buf_len buf_str buf_size].
  rewrite buf_str_extend, buf_len_extend. unfold strlen in *.
  rewrite length_append, H0. cbn [String.length]. split; [lia |].
  unfold str_buffer_extend.
  destruct (_ && _) eqn:E; cbn [buf_len buf_size].
  - apply andb_true_iff in E as [_ E%Z.ltb_lt]. unfold strlen in E. lia.
  - rewrite H0.
    assert (0 <= (Z.of_nat (String.length (buf_str b)) + 1) / 2)
      by (apply Z.div_pos; lia).
    lia.
Qed.

Lemma join_step_fits (b : str_buffer_t) (s : string) :
  buffer_consistent b -> buffer_fits (join_step b s).
Proof.
  intros Hb. unfold join_step.
  destruct (_ && _); apply str_buffer_join_fits; [| done].
  by apply str_buffer_join_fits.
Qed.

(** X1.  For lengths below 2^30, where the arithmetic of
    [str_buffer_extend] cannot overflow: a buffer whose length field counts
    its bytes still does so after [str_buffer_join] and
    [str_buffer_join_char], which append their argument, and the bytes
    together with the terminating NUL written after them fit the allocated
    size. *)
Theorem str_buffer_fits (b : str_buffer_t) (s : string) (c : ascii) :
  buffer_consistent b ->
  buf_len b + strlen s < BUFFER_RANGE ->
  (buffer_fits (str_buffer_join b s)
   /\ buf_str (str_buffer_join b s) = buf_str b +:+ s)
  /\ (buffer_fits (str_buffer_join_char b c)
      /\ buf_str (str_buffer_join_char b c) = buf_str b +:+ String c "").
Proof.
  intros Hb _. split; split.
  - by apply str_buffer_join_fits.
  - apply buf_str_join.
  - by apply str_buffer_join_char_fits.
  - apply buf_str_join_char.
Qed.

Lemma str_buffer_fits_witness :
  buffer_consistent empty_buffer
  /\ buffer_fits (str_buffer_join empty_buffer "abc")
  /\ buffer_fits (str_buffer_join_char empty_buffer "a").
Proof.
  assert (H : buffer_consistent empty_buffer) by reflexivity.
  assert (Hr : buf_len empty_buffer + strlen "abc" < BUFFER_RANGE)
    by (vm_compute; reflexivity).
  split; [exact H |].
  destruct (str_buffer_fits empty_buffer "abc" "a" H Hr) as [[H1 _] [H2 _]].
  split; [exact H1 | exact H2].
Defined.

Lemma escape_char_safe (sg : bool) (c : ascii) :
  str_all safe_char (escape_char sg c) = true.
Proof. destruct sg; ascii_cases c; vm_compute; reflexivity. Qed.

Lemma str_all_append (P : ascii -> bool) (a b : string) :
  str_all P (a +:+ b) = str_all P a && str_all P b.
Proof.
  induction a as [|c a IH]; [reflexivity |].
  rewrite append_cons. cbn [str_all]. by rewrite IH, andb_assoc.
Qed.

(** X2.  Whatever the signedness of [char], the name [encode_id] gives a
    non-empty identifier holds no control byte, no star, question mark,
    slash or backslash and neither of the two quote characters.  (For the
    empty identifier, which [main] refuses, the C function returns its
    fresh allocation without having written to it; the properties of
    [encode_id] below are stated for the identifiers [main] lets
    through.) *)
Theorem encode_id_safe (sg : bool) (id : string) :
  id <> "" -> str_all safe_char (encode_id sg id) = true.
Proof.
  intros _. induction id as [|c id IH]; [reflexivity |].
  by rewrite encode_id_cons, str_all_append, escape_char_safe, IH.
Qed.

Lemma encode_id_safe_witness :
  "a/b" <> "" /\ str_all safe_char (encode_id true "a/b") = true.
Proof.
  assert (H : "a/b" <> "") by discriminate.
  split; [exact H |].
  exact (encode_id_safe true "a/b" H).
Defined.

Lemma escape_char_plain (sg : bool) (c : ascii) :
  needs_escape sg c = false -> escape_char sg c = String c "".
Proof. unfold escape_char. by intros ->. Qed.

Lemma escape_char_at_most_four (sg : bool) (c : ascii) :
  (String.length (escape_char sg c) <= 4)%nat.
Proof. destruct sg; ascii_cases c; vm_compute; lia. Qed.

Lemma encode_id_longer (sg : bool) (id : string) :
  str_all (fun c => negb (needs_escape sg c)) id = false ->
  (String.length id < String.length (encode_id sg id))%nat.
Proof.
  induction id as [|c id IH]; [discriminate |].
  cbn [str_all]. rewrite encode_id_cons, length_append.
  pose proof (escape_char_length sg c) as Hlen.
  pose proof (encode_id_length sg id) as Hid.
  cbn [String.length].
  destruct (needs_escape sg c); cbn [negb andb]; [lia |].
  intros H. specialize (IH H). lia.
Qed.

(** X3.  [encode_id] leaves a non-empty identifier as it is exactly when
    none of its bytes takes the escape branch. *)
Theorem encode_id_identity (sg : bool) (id : string) :
  id <> "" ->
  encode_id sg id = id
  <-> str_all (fun c => negb (needs_escape sg c)) id = true.
Proof.
  intros _. split.
  - intros E.
    destruct (str_all (fun c => negb (needs_escape sg c)) id) eqn:H; [done |].
    apply (encode_id_longer sg) in H. rewrite E in H. lia.
  - induction id as [|c id IH]; [reflexivity |].
    cbn [str_all]. intros [Hc Hid]%andb_true_iff.
    apply negb_true_iff in Hc.
    by rewrite encode_id_cons, (escape_char_plain sg c Hc), IH.
Qed.

Lemma encode_id_identity_witness :
  "release-1.2_x86" <> ""
  /\ encode_id true "release-1.2_x86" = "release-1.2_x86".
Proof.
  assert (H : "release-1.2_x86" <> "") by discriminate.
  split; [exact H |].
  apply (encode_id_identity true "release-1.2_x86" H).
  vm_compute. reflexivity.
Defined.

(** X4.  The name of a non-empty identifier is at least as long as the
    identifier and at most four times as long: an escape is cut to four
    characters. *)
Theorem encode_id_length_bounds (sg : bool) (id : string) :
  id <> "" ->
  (String.length id <= String.length (encode_id sg id)
   <= 4 * String.length id)%nat.
Proof.
  intros _. split; [apply encode_id_length |].
  induction id as [|c id IH]; [reflexivity |].
  rewrite encode_id_cons, length_append.
  pose proof (escape_char_at_most_four sg c). cbn [String.length]. lia.
Qed.

Lemma encode_id_length_bounds_witness :
  "a%b" <> ""
  /\ (String.length "a%b" <= String.length (encode_id true "a%b")
      <= 4 * String.length "a%b")%nat.
Proof.
  assert (H : "a%b" <> "") by discriminate.
  split; [exact H |].
  exact (encode_id_length_bounds true "a%b" H).
Defined.

(** X5.  Where [char] is unsigned, and for identifiers of bytes below 128
    where it is signed, [encode_id] writes every control or reserved byte of
    a non-empty identifier as a percent sign followed by all the decimal
    digits of its value, and every other byte as itself. *)
Theorem encode_id_sign_free (sg : bool) (id : string) :
  id <> "" -> str_all (sign_free sg) id = true ->
  encode_id sg id = spec_encode id.
Proof.
  intros _ Hfree. destruct sg.
  - apply encode_id_seven_bit.
    erewrite <- Hfree. clear Hfree.
    induction id as [|c id IH]; [reflexivity |].
    cbn [str_all]. by rewrite IH.
  - apply encode_id_unsigned.
Qed.

Lemma encode_id_sign_free_witness :
  "a/b c%" <> "" /\ str_all (sign_free true) "a/b c%" = true
  /\ encode_id true "a/b c%" = "a%47b c%37".
Proof.
  assert (H : "a/b c%" <> "") by discriminate.
  assert (Hf : str_all (sign_free true) "a/b c%" = true)
    by (vm_compute; reflexivity).
  split; [exact H |]. split; [exact Hf |].
  rewrite (encode_id_sign_free true "a/b c%" H Hf).
  vm_compute. reflexivity.
Defined.

Lemma join_step_str (b1 b2 : str_buffer_t) (s : string) :
  buffer_consistent b1 -> buffer_consistent b2 -> buf_str b1 = buf_str b2 ->
  buf_str (join_step b1 s) = buf_str (join_step b2 s).
Proof.
  unfold buffer_consistent. intros H1 H2 E. unfold join_step.
  assert (Hcond : (buf_len b1 =? 0) || last_not_slash b1
                  = (buf_len b2 =? 0) || last_not_slash b2).
  { unfold last_not_slash, buf_get. by rewrite H1, H2, E. }
  rewrite Hcond.
  destruct (_ && _); rewrite !buf_str_join; by rewrite E.
Qed.

Lemma fold_join_step_consistent (rest : list string) (b : str_buffer_t) :
  buffer_consistent b -> buffer_consistent (fold_left join_step rest b).
Proof.
  revert b. induction rest as [|s rest IH]; intros b Hb; [done |].
  cbn [fold_left]. apply IH. by apply join_step_fits.
Qed.

(** X6.  Joining several components in one call of [str_join_path] gives
    what joining them one at a time gives. *)
Theorem str_join_path_one_by_one (arg : string) (rest : list string) :
  str_join_path arg rest = join_one_by_one arg rest.
Proof.
  unfold join_one_by_one.
  induction rest as [|s rest IH] using rev_ind; [reflexivity |].
  rewrite fold_left_app. cbn [fold_left]. rewrite <- IH.
  unfold str_join_path. rewrite fold_left_app. cbn [fold_left].
  apply join_step_str.
  - apply fold_join_step_consistent. by apply str_buffer_join_fits.
  - by apply str_buffer_join_fits.
  - by rewrite buf_str_join.
Qed.

(** X7.  The five strings [cache_id_to_path] resolves a non-empty
    identifier to fit together: the file name is the encoded identifier,
    the directory name the shard name, the relative path and the full path
    end with one separator and the file name, and the directory path is the
    cache root, a separator unless the root ends with one, and the shard
    name. *)
Theorem cache_id_to_path_parts (sg : bool) (cache_path cache_id : string) :
  cache_id <> "" ->
  let p := cache_id_to_path sg cache_path cache_id in
  filename p = encode_id sg cache_id
  /\ dirname p = get_subdir_for_id cache_id
  /\ relpath p = dirname p +:+ "/" +:+ filename p
  /\ dirfullpath p = cache_path +:+ root_separator cache_path +:+ dirname p
  /\ fullpath p = dirfullpath p +:+ "/" +:+ filename p
  /\ fullpath p = cache_path +:+ root_separator cache_path +:+ relpath p.
Proof.
  intros _. cbn zeta.
  destruct (cache_id_to_path_shape sg cache_path cache_id) as [Hfull _].
  pose proof (subdir_digits_no_slash 4 (subdir_hash cache_id 0)) as Hd.
  fold (get_subdir_for_id cache_id) in Hd.
  assert (Hrel : relpath (cache_id_to_path sg cache_path cache_id)
                 = get_subdir_for_id cache_id +:+ "/" +:+ encode_id sg cache_id).
  { cbn [relpath cache_id_to_path]. rewrite str_join_path_two.
    rewrite (ends_with_slash_mem _ Hd).
    by rewrite (begins_with_slash_mem _ (encode_id_no_slash sg cache_id)). }
  assert (Hdir : dirfullpath (cache_id_to_path sg cache_path cache_id)
                 = cache_path +:+ root_separator cache_path
                   +:+ get_subdir_for_id cache_id).
  { cbn [dirfullpath cache_id_to_path]. rewrite str_join_path_two.
    rewrite (begins_with_slash_mem _ Hd). unfold root_separator.
    by destruct (ends_with_slash cache_path). }
  repeat split; try done.
  rewrite Hfull, Hdir, Hrel. cbn [filename dirname cache_id_to_path].
  by rewrite !append_assoc.
Qed.

Lemma cache_id_to_path_parts_witness :
  "k1" <> ""
  /\ fullpath (cache_id_to_path true "/c/" "k1")
     = "/c/" +:+ get_subdir_for_id "k1" +:+ "/k1".
Proof.
  assert (H : "k1" <> "") by discriminate.
  split; [exact H |].
  destruct (cache_id_to_path_parts true "/c/" "k1" H) as (_ & _ & _ & _ & _ & E).
  rewrite E. vm_compute. reflexivity.
Defined.

(** ** The copy primitive, state by state *)

Lemma close_sem_open (fd : nat) (ch : env_choice)
    (fs : gmap string node) (fds : gmap nat open_file) :
  is_Some (fds !! fd) ->
  (close_sem fd ch (fs, fds)).2 = (fs, delete fd fds).
Proof.
  intros [f Hf]. unfold close_sem.
  destruct ch; cbn [fst snd]; rewrite ?Hf; reflexivity.
Qed.

Lemma close_sem_calm (fd : nat) (ch : env_choice)
    (fs : gmap string node) (fds : gmap nat open_file) :
  is_Some (fds !! fd) -> (forall e, ch <> Failure e) ->
  (close_sem fd ch (fs, fds)).1 = Ok tt.
Proof.
  intros [f Hf] Hch. unfold close_sem.
  destruct ch; cbn [fst snd]; rewrite ?Hf; try reflexivity.
  by destruct (Hch e).
Qed.

Section CopyState.

Variables (fs0 : gmap string node) (fds0 : gmap nat open_file).
Variables (from to : string) (fd_from fd_to : nat).
Hypothesis Hto0 : fs0 !! to = None.
Hypothesis Hfrom0 : is_Some (fs0 !! from).
Hypothesis Hfdf0 : fds0 !! fd_from = None.
Hypothesis Hfdt0 : fds0 !! fd_to = None.
Hypothesis Hfd : fd_from <> fd_to.

Lemma cp_state_paths : from <> to.
Proof using Hto0 Hfrom0.
  intros ->. rewrite Hto0 in Hfrom0. by destruct Hfrom0.
Qed.

(** The code at [out_error] with both descriptors open. *)
Lemma triple_cp_out_error_state (pos : nat) (written : list Byte.byte) :
  triple (cp_state fs0 fds0 from to fd_from fd_to pos written)
         (cp_out_error fd_from (Some fd_to))
         (fun r fs fds =>
            r = -1 /\ fs = <[to := File written]> fs0 /\ fds = fds0).
Proof using Hfdf0 Hfdt0 Hfd.
  unfold cp_out_error.
  apply triple_bind with (R := fun _ fs fds =>
    fs = <[to := File written]> fs0
    /\ fds = <[fd_to := mk_open_file to (length written) true]> fds0).
  - apply triple_syscall. intros ch fs fds [-> ->].
    rewrite close_sem_open
      by (rewrite lookup_insert_ne, lookup_insert_eq by done; by eexists).
    cbn [fst snd]. split; [done |].
    by rewrite delete_insert_ne, delete_insert_id by done.
  - intros _.
    apply triple_bind with (R := fun _ fs fds =>
      fs = <[to := File written]> fs0 /\ fds = fds0).
    + apply triple_syscall. intros ch fs fds [-> ->].
      rewrite close_sem_open by (rewrite lookup_insert_eq; by eexists).
      cbn [fst snd]. split; [done |]. by rewrite delete_insert_id.
    + intros _. apply triple_ret. by intros fs fds [-> ->].
Qed.

(** One [write] in the state of a copy. *)
Lemma write_sem_state (pos : nat) (written pending : list Byte.byte)
    (ch : env_choice) (fs : gmap string node) (fds : gmap nat open_file) :
  cp_state fs0 fds0 from to fd_from fd_to pos written fs fds ->
  let rk := write_sem fd_to pending ch (fs, fds) in
  match rk.1 with
  | Err e =>
      ch = Failure e
      /\ cp_state fs0 fds0 from to fd_from fd_to pos written rk.2.1 rk.2.2
  | Ok n =>
      (forall e, ch <> Failure e)
      /\ cp_state fs0 fds0 from to fd_from fd_to pos
           (written ++ take n pending) rk.2.1 rk.2.2
      /\ n = length (take n pending)
      /\ (ch = Proceed -> n = length pending)
  end.
Proof using Hfd.
  intros [-> ->]. cbn zeta. unfold write_sem.
  assert (Hstep : forall want,
    let chunk := take want pending in
    cp_state fs0 fds0 from to fd_from fd_to pos
      (written ++ take (length chunk) pending)
      (<[to := File (take (length written) written ++ chunk
                     ++ drop (length written + length chunk) written)]>
         (<[to := File written]> fs0))
      (<[fd_to := mk_open_file to (length written + length chunk) true]>
         (<[fd_to := mk_open_file to (length written) true]>
            (<[fd_from := mk_open_file from pos false]> fds0)))
    /\ length chunk = length (take (length chunk) pending)).
  { intros want chunk.
    assert (Hchunk : take (length chunk) pending = chunk)
      by apply take_length_take.
    rewrite Hchunk. split; [| done].
    rewrite take_ge, drop_ge, app_nil_r by lia.
    split; [by rewrite insert_insert_eq |].
    by rewrite insert_insert_eq, length_app. }
  destruct ch; cbn [fst snd]; rewrite ?lookup_insert_eq;
    cbn [of_writable of_path of_pos]; rewrite ?lookup_insert_eq.
  - destruct (Hstep (length pending)) as [Hs Hl].
    split; [done |]. split; [exact Hs |]. split; [exact Hl |].
    intros _. by rewrite firstn_all.
  - done.
  - destruct (Hstep (Nat.min (length pending) k)) as [Hs Hl].
    split; [done |]. split; [exact Hs |]. split; [exact Hl | done].
Qed.

Lemma triple_cp_write_all_state (pos fuel : nat)
    (written pending : list Byte.byte) :
  triple (cp_state fs0 fds0 from to fd_from fd_to pos written)
         (cp_write_all fuel fd_to pending)
         (fun ok fs fds =>
            exists k, cp_state fs0 fds0 from to fd_from fd_to pos
                        (written ++ take k pending) fs fds
                      /\ (ok = true -> take k pending = pending)).
Proof using Hfd.
  revert written pending.
  induction fuel as [|fuel IH]; intros written pending;
    [apply triple_out_of_fuel |].
  cbn [cp_write_all].
  apply triple_bind with (R := fun r fs fds =>
    match r with
    | Err _ => cp_state fs0 fds0 from to fd_from fd_to pos written fs fds
    | Ok n =>
        cp_state fs0 fds0 from to fd_from fd_to pos
          (written ++ take n pending) fs fds
    end).
  - apply triple_syscall. intros ch fs fds H.
    pose proof (write_sem_state pos written pending ch fs fds H) as Hw.
    cbn zeta in Hw.
    destruct (write_sem fd_to pending ch (fs, fds)).1;
      [by destruct Hw | by destruct Hw as (_ & ? & _)].
  - intros [e | n]; cbn beta.
    + destruct (decide (e = EINTR)).
      * apply (IH written pending).
      * apply triple_ret. intros fs fds H. exists 0%nat.
        by rewrite take_0, app_nil_r.
    + destruct (0 <? length (drop n pending))%nat eqn:Hrest.
      * eapply triple_weaken;
          [| | apply (IH (written ++ take n pending) (drop n pending))];
          cbn beta; [done |].
        intros ok fs fds (k & Hs & Hok). exists (n + k)%nat.
        rewrite <- app_assoc, take_take_drop in Hs. split; [done |].
        intros E. specialize (Hok E).
        by rewrite <- take_take_drop, Hok, take_drop.
      * apply triple_ret. intros fs fds Hs. exists n. split; [done |].
        intros _. apply Nat.ltb_ge in Hrest.
        assert (Hd : drop n pending = []) by (apply length_zero_iff_nil; lia).
        pose proof (take_drop n pending) as Htd.
        by rewrite Hd, app_nil_r in Htd.
Qed.

Section FromFile.

Variable d : list Byte.byte.
Hypothesis Hd : fs0 !! from = Some (File d).

(** One [read] in the state of a copy, at a point where the destination
    holds the first [pos] bytes. *)
Lemma read_sem_state (pos : nat) (ch : env_choice)
    (fs : gmap string node) (fds : gmap nat open_file) :
  cp_state fs0 fds0 from to fd_from fd_to pos (take pos d) fs fds ->
  let rk := read_sem fd_from cp_buf_size ch (fs, fds) in
  match rk.1 with
  | Err e =>
      ch = Failure e
      /\ cp_state fs0 fds0 from to fd_from fd_to pos (take pos d)
           rk.2.1 rk.2.2
  | Ok chunk =>
      (forall e, ch <> Failure e)
      /\ cp_state fs0 fds0 from to fd_from fd_to (pos + length chunk)
           (take pos d) rk.2.1 rk.2.2
      /\ take pos d ++ chunk = take (pos + length chunk) d
      /\ (chunk = [] -> take pos d = d)
      /\ (length chunk <= length d - pos)%nat
  end.
Proof using Hd Hto0 Hfrom0 Hfd.
  intros [-> ->]. cbn zeta. unfold read_sem.
  pose proof cp_state_paths as Hne.
  assert (Hstep : forall want, (1 <= want)%nat ->
    let chunk := take want (drop pos d) in
    cp_state fs0 fds0 from to fd_from fd_to (pos + length chunk) (take pos d)
      (<[to := File (take pos d)]> fs0)
      (<[fd_from := mk_open_file from (pos + length chunk) false]>
         (<[fd_to := mk_open_file to (length (take pos d)) true]>
            (<[fd_from := mk_open_file from pos false]> fds0)))
    /\ take pos d ++ chunk = take (pos + length chunk) d
    /\ (chunk = [] -> take pos d = d)
    /\ (length chunk <= length d - pos)%nat).
  { intros want Hwant chunk. split; [| split; [| split]].
    - split; [done |].
      by rewrite insert_insert_ne, insert_insert_eq by done.
    - transitivity (take pos d ++ take (length chunk) (drop pos d));
        [f_equal; symmetry; apply take_length_take | apply take_take_drop].
    - intros Hnil.
      assert (Hdr : drop pos d = []).
      { destruct (drop pos d) as [|b l] eqn:E; [done |].
        unfold chunk in Hnil. rewrite ?E in Hnil.
        destruct want; [lia | discriminate]. }
      pose proof (take_drop pos d) as Htd.
      by rewrite Hdr, app_nil_r in Htd.
    - unfold chunk. rewrite length_take, length_drop. lia. }
  destruct ch; cbn [fst snd];
    rewrite ?lookup_insert_ne, ?lookup_insert_eq by done;
    cbn [of_writable of_path of_pos];
    rewrite ?lookup_insert_ne, ?Hd by done.
  - split; [done |]. apply Hstep. unfold cp_buf_size. lia.
  - done.
  - split; [done |]. apply Hstep. unfold cp_buf_size. lia.
Qed.

Lemma triple_cp_loop_state (fuel pos : nat) :
  triple (cp_state fs0 fds0 from to fd_from fd_to pos (take pos d))
         (cp_loop fuel fd_to fd_from)
         (fun r fs fds =>
            fds = fds0
            /\ ((r = 0 /\ fs = <[to := File d]> fs0)
                \/ (r = -1 /\ exists k, fs = <[to := File (take k d)]> fs0))).
Proof using Hd Hto0 Hfrom0 Hfdf0 Hfdt0 Hfd.
  revert pos. induction fuel as [|fuel IH]; intros pos;
    [apply triple_out_of_fuel |].
  cbn [cp_loop].
  apply triple_bind with (R := fun r fs fds =>
    match r with
    | Err _ => cp_state fs0 fds0 from to fd_from fd_to pos (take pos d) fs fds
    | Ok chunk =>
        cp_state fs0 fds0 from to fd_from fd_to (pos + length chunk)
          (take pos d) fs fds
        /\ (take pos d ++ chunk = take (pos + length chunk) d
            /\ (chunk = [] -> take pos d = d))
    end).
  - apply triple_syscall. intros ch fs fds H.
    pose proof (read_sem_state pos ch fs fds H) as Hr.
    cbn zeta in Hr.
    destruct (read_sem fd_from cp_buf_size ch (fs, fds)).1;
      [by destruct Hr | by destruct Hr as (_ & ? & ? & ? & _)].
  - intros [e | chunk]; cbn beta.
    { eapply triple_weaken; [| | apply triple_cp_out_error_state];
        cbn beta; [done |].
      intros r fs fds (-> & -> & ->). split; [done |]. right.
      split; [done |]. by exists pos. }
    apply triple_assume. intros [Heq Hall].
    destruct (0 <? length chunk)%nat eqn:Hlen.
    + eapply triple_bind; [apply triple_cp_write_all_state |].
      intros [|]; cbn beta.
      * eapply triple_weaken; [| | apply (IH (pos + length chunk)%nat)];
          cbn beta; [| done].
        intros fs fds (k & Hs & Hk). by rewrite Hk, Heq in Hs.
      * intros w (k & Hs & _).
        pose proof (triple_cp_out_error_state _ _ w Hs) as Hout.
        destruct (cp_out_error fd_from (Some fd_to) w) as [[r | |] w'];
          [| done | done].
        destruct Hout as (-> & -> & ->). split; [done |]. right.
        split; [done |].
        exists (Nat.min (length (take pos d) + k) (pos + length chunk)).
        by rewrite <- take_take, <- Heq, take_app_add.
    + apply Nat.ltb_ge in Hlen.
      assert (chunk = []) as -> by (apply length_zero_iff_nil; lia).
      specialize (Hall eq_refl). rewrite Hall.
      apply triple_bind with (R := fun _ fs fds =>
        fs = <[to := File d]> fs0
        /\ fds = <[fd_from := mk_open_file from (pos + 0) false]> fds0).
      * apply triple_syscall. intros ch fs fds [-> ->].
        rewrite close_sem_open by (rewrite lookup_insert_eq; by eexists).
        cbn [fst snd]. split; [done |].
        by rewrite delete_insert_id by by rewrite lookup_insert_ne.
      * assert (Hclose : triple
          (fun fs fds =>
             fs = <[to := File d]> fs0
             /\ fds = <[fd_from := mk_open_file from (pos + 0) false]> fds0)
          (sys_close fd_from)
          (fun _ fs fds => fs = <[to := File d]> fs0 /\ fds = fds0)).
        { apply triple_syscall. intros ch fs fds [-> ->].
          rewrite close_sem_open by (rewrite lookup_insert_eq; by eexists).
          cbn [fst snd]. split; [done |]. by rewrite delete_insert_id. }
        intros [e | []]; cbn beta.
        -- unfold cp_out_error. eapply triple_bind; [exact Hclose |].
           intros ?. apply triple_ret. intros fs fds [-> ->].
           split; [done |]. right. split; [done |].
           exists (length d). by rewrite firstn_all.
        -- eapply triple_bind; [exact Hclose |].
           intros ?. apply triple_ret. intros fs fds [-> ->].
           split; [done |]. by left.
Qed.

End FromFile.

(** Reading from a directory fails: the copy leaves an empty destination. *)
Lemma triple_cp_loop_state_dir (fuel : nat) :
  fs0 !! from = Some Dir ->
  triple (cp_state fs0 fds0 from to fd_from fd_to 0 [])
         (cp_loop fuel fd_to fd_from)
         (fun r fs fds => fds = fds0 /\ r = -1 /\ fs = <[to := File []]> fs0).
Proof using Hto0 Hfrom0 Hfdf0 Hfdt0 Hfd.
  intros Hdir. pose proof cp_state_paths as Hne.
  destruct fuel as [|fuel]; [apply triple_out_of_fuel |].
  cbn [cp_loop].
  apply triple_bind with (R := fun r fs fds =>
    is_ok r = false /\ cp_state fs0 fds0 from to fd_from fd_to 0 [] fs fds).
  - apply triple_syscall. intros ch fs fds [-> ->].
    unfold read_sem. destruct ch; cbn [fst snd]; try done;
      rewrite ?lookup_insert_ne, ?lookup_insert_eq by done;
      cbn [of_path]; by rewrite ?lookup_insert_ne, ?Hdir by done.
  - intros [e | chunk]; [| by intros w [? _]].
    eapply triple_weaken; [| | apply triple_cp_out_error_state]; cbn beta.
    + by intros fs fds [_ H].
    + by intros r fs fds (-> & -> & ->).
Qed.

End CopyState.

(** What a copy that has ended leaves, in full. *)
Lemma triple_cp_result (fs0 : gmap string node) (fds0 : gmap nat open_file)
    (fuel : nat) (to from : string) :
  triple (fun fs fds => fs = fs0 /\ fds = fds0)
         (cp fuel to from)
         (cp_result fs0 fds0 to from).
Proof.
  unfold cp.
  apply triple_bind with (R := fun r fs fds =>
    match r with
    | Err _ => fs = fs0 /\ fds = fds0
    | Ok fd_from =>
        exists key,
          fs = fs0
          /\ fds = <[fd_from := mk_open_file key 0 false]> fds0
          /\ fds0 !! fd_from = None
          /\ resolve fs0 from = Some key
    end).
  - apply triple_syscall. intros ch fs fds [-> ->].
    unfold open_rdonly_sem, faulty.
    destruct ch; cbn [fst snd]; try done;
      destruct (resolve fs0 from) as [key|] eqn:E; cbn [fst snd]; try done;
      (exists key; repeat split; apply fresh_fd_None).
  - intros [e | fd_from].
    { apply triple_ret. intros fs fds [-> ->]. split; [done |].
      right. split; [done |]. by left. }
    apply triple_bind with (R := fun r fs fds =>
      match r with
      | Err _ =>
          exists key,
            fs = fs0 /\ fds = <[fd_from := mk_open_file key 0 false]> fds0
            /\ fds0 !! fd_from = None
      | Ok fd_to =>
          exists key,
            cp_state fs0 fds0 key to fd_from fd_to 0 [] fs fds
            /\ fs0 !! to = None /\ resolve fs0 from = Some key
            /\ fds0 !! fd_from = None /\ fds0 !! fd_to = None
            /\ fd_from <> fd_to
      end).
    + apply triple_syscall. intros ch fs fds (key & -> & -> & Hfdf & Hfrom).
      unfold open_excl_sem, faulty.
      pose proof (fresh_fd_None (<[fd_from := mk_open_file key 0 false]> fds0))
        as Hfresh.
      apply lookup_insert_None in Hfresh as [Hfresh Hne].
      destruct ch; cbn [fst snd]; try (by exists key);
        destruct (fs0 !! to) eqn:E; cbn [fst snd]; by exists key.
    + intros [e | fd_to].
      { unfold cp_out_error.
        apply triple_bind with (R := fun _ fs fds => fs = fs0 /\ fds = fds0).
        - apply triple_syscall. intros ch fs fds (key & -> & -> & Hfdf).
          rewrite close_sem_open by (rewrite lookup_insert_eq; by eexists).
          cbn [fst snd]. split; [done |]. by rewrite delete_insert_id.
        - intros _. apply triple_ret. intros fs fds [-> ->]. split; [done |].
          right. split; [done |]. by left. }
      intros w (key & Hs & Hto & Hres & Hfdf & Hfdt & Hne).
      assert (Hkey : is_Some (fs0 !! key)).
      { destruct (resolve_cases _ _ _ Hres) as [[-> H] | (_ & _ & H)];
          [done | by rewrite H]. }
      destruct Hkey as [[d |] Hkey].
      * assert (key = from) as ->.
        { destruct (resolve_cases _ _ _ Hres) as [[-> _] | (_ & _ & H)];
            [done | congruence]. }
        pose proof (triple_cp_loop_state fs0 fds0 from to fd_from fd_to
                      Hto (ltac:(by eexists)) Hfdf Hfdt Hne d Hkey fuel 0 w Hs)
          as Hloop.
        destruct (cp_loop fuel fd_to fd_from w) as [[r | |] w'];
          [| done | done].
        destruct Hloop as [-> [[-> ->] | [-> [k ->]]]]; (split; [done |]).
        -- left. split; [done |]. by exists d.
        -- right. split; [done |]. right. split; [done |].
           exists (take k d). split; [done |].
           intros d' E. rewrite Hkey in E. injection E as <-.
           apply prefix_take.
      * pose proof (triple_cp_loop_state_dir fs0 fds0 key to fd_from fd_to
                      Hto (ltac:(by eexists)) Hfdf Hfdt Hne fuel Hkey w Hs)
          as Hloop.
        destruct (cp_loop fuel fd_to fd_from w) as [[r | |] w'];
          [| done | done].
        destruct Hloop as (-> & -> & ->). split; [done |].
        right. split; [done |]. right. split; [done |].
        exists []. split; [done |]. intros d' E. apply prefix_nil.
Qed.
(** ** Runs that end *)

Lemma calm_weaken (n n' : nat)
    (K K' : gmap string node -> gmap nat open_file -> Prop) (w : world) :
  (n <= n')%nat -> (forall fs fds, K fs fds -> K' fs fds) ->
  calm n K w -> calm n' K' w.
Proof.
  intros Hn HK (Hu & Hl & H). split; [done |]. split; [lia | by apply HK].
Qed.

Lemma total_ret {A} (P : world -> Prop) (a : A) (Q : A -> world -> Prop) :
  (forall w, P w -> Q a w) -> total P (ret a) Q.
Proof. intros H w Hw. exists a, w. split; [reflexivity | by apply H]. Qed.

Lemma total_bind {A B} (P : world -> Prop) (m : M A) (R : A -> world -> Prop)
    (k : A -> M B) (Q : B -> world -> Prop) :
  total P m R -> (forall a, total (R a) (k a) Q) -> total P (bind m k) Q.
Proof.
  intros Hm Hk w Hw. destruct (Hm w Hw) as (a & w1 & E & Ha).
  destruct (Hk a w1 Ha) as (b & w2 & E2 & Hb).
  exists b, w2. split; [| done]. unfold bind. by rewrite E.
Qed.

Lemma total_weaken {A} (P P' : world -> Prop) (m : M A)
    (Q Q' : A -> world -> Prop) :
  (forall w, P' w -> P w) -> (forall a w, Q a w -> Q' a w) ->
  total P m Q -> total P' m Q'.
Proof.
  intros HP HQ H w Hw. destruct (H w (HP w Hw)) as (a & w' & E & Ha).
  exists a, w'. split; [done | by apply HQ].
Qed.

Lemma total_assume {A} (phi : Prop) (n : nat)
    (K : gmap string node -> gmap nat open_file -> Prop) (m : M A)
    (Q : A -> world -> Prop) :
  (phi -> total (calm n K) m Q) ->
  total (calm n (fun fs fds => phi /\ K fs fds)) m Q.
Proof. intros H w (Hu & Hl & Hphi & HK). by apply H. Qed.

(** A system call under an environment that fails none: the choice is not
    a failure, and it is [Proceed] once the environment has no choice
    left. *)
Lemma total_syscall {A} (c : call)
    (sem : env_choice -> kstate -> result A * kstate) (n : nat)
    (K : gmap string node -> gmap nat open_file -> Prop)
    (Q : result A -> gmap string node -> gmap nat open_file -> Prop) :
  (forall ch fs fds,
      (forall e, ch <> Failure e) -> (n = 0%nat -> ch = Proceed) -> K fs fds ->
      Q (sem ch (fs, fds)).1 (sem ch (fs, fds)).2.1 (sem ch (fs, fds)).2.2) ->
  total (calm n K) (syscall c sem) (fun r => calm (pred n) (Q r)).
Proof.
  intros H w (Hu & Hl & HK).
  destruct (undisturbed_next _ Hu) as [Hch Hu'].
  eexists _, _. split; [reflexivity |].
  split; [exact Hu' |]. cbn [w_env w_fs w_fds]. split.
  - destruct (w_env w); cbn [next_choice snd length] in *; lia.
  - apply H; [exact Hch | | exact HK].
    intros ->. destruct (w_env w); [done | cbn [length] in Hl; lia].
Qed.

Section CopyRun.

Variables (fs0 : gmap string node) (fds0 : gmap nat open_file).
Variables (from to : string) (fd_from fd_to : nat).
Variable d : list Byte.byte.
Hypothesis Hto0 : fs0 !! to = None.
Hypothesis Hd : fs0 !! from = Some (File d).
Hypothesis Hfdf0 : fds0 !! fd_from = None.
Hypothesis Hfdt0 : fds0 !! fd_to = None.
Hypothesis Hfd : fd_from <> fd_to.

(** With no failure, the inner loop writes all it is given: a write that
    moves no byte has used up a choice of the environment. *)
Lemma total_cp_write_all (fuel n pos : nat) (written pending : list Byte.byte) :
  (length pending + n < fuel)%nat ->
  total (calm n (cp_state fs0 fds0 from to fd_from fd_to pos written))
        (cp_write_all fuel fd_to pending)
        (fun ok =>
           calm n (fun fs fds =>
                     ok = true
                     /\ cp_state fs0 fds0 from to fd_from fd_to pos
                          (written ++ pending) fs fds)).
Proof using Hfd.
  revert n written pending.
  induction fuel as [|fuel IH]; intros n written pending Hlt; [lia |].
  cbn [cp_write_all].
  eapply total_bind.
  { apply total_syscall with (Q := fun r fs fds =>
      match r with
      | Err _ => False
      | Ok k =>
          cp_state fs0 fds0 from to fd_from fd_to pos
            (written ++ take k pending) fs fds
          /\ (n = 0%nat -> k = length pending)
      end).
    intros ch fs fds Hch Hn HK.
    pose proof (write_sem_state fs0 fds0 from to fd_from fd_to Hfd
                  pos written pending ch fs fds HK) as Hw.
    cbn zeta in Hw.
    destruct (write_sem fd_to pending ch (fs, fds)).1 as [e | k].
    - destruct Hw as [-> _]. by destruct (Hch e).
    - destruct Hw as (_ & Hs & _ & Hp). split; [done |].
      intros Hz. by apply Hp, Hn. }
  intros [e | k]; cbn beta; [by intros w (_ & _ & []) |].
  destruct (0 <? length (drop k pending))%nat eqn:Hrest.
  - intros w (Hu & Hl & Hs & Hz).
    assert (Hn : n <> 0%nat).
    { intros ->. rewrite Hz, drop_all in Hrest by done. discriminate. }
    destruct (IH (pred n) (written ++ take k pending) (drop k pending)
                ltac:(rewrite length_drop; lia) w)
      as (ok & w' & E & Hu' & Hl' & -> & Hs'); [done |].
    exists true, w'. split; [done |]. split; [done |]. split; [lia |].
    split; [done |]. by rewrite <- app_assoc, take_drop in Hs'.
  - apply total_ret. intros w (Hu & Hl & Hs & _).
    split; [done |]. split; [lia |]. split; [done |].
    apply Nat.ltb_ge in Hrest.
    assert (Hdr : drop k pending = []) by (apply length_zero_iff_nil; lia).
    pose proof (take_drop k pending) as Htd.
    rewrite Hdr, app_nil_r in Htd. by rewrite Htd in Hs.
Qed.

(** With no failure and fuel for every turn, the outer loop copies the
    whole file and closes both descriptors. *)
Lemma total_cp_loop (fuel n pos : nat) :
  (length d - pos + n + 1 < fuel)%nat ->
  total (calm n (cp_state fs0 fds0 from to fd_from fd_to pos (take pos d)))
        (cp_loop fuel fd_to fd_from)
        (fun r =>
           calm n (fun fs fds =>
                     r = 0 /\ fs = <[to := File d]> fs0 /\ fds = fds0)).
Proof using Hto0 Hd Hfdf0 Hfdt0 Hfd.
  assert (Hfrom0 : is_Some (fs0 !! from)) by by eexists.
  revert n pos.
  induction fuel as [|fuel IH]; intros n pos Hlt; [lia |].
  cbn [cp_loop].
  eapply total_bind.
  { apply total_syscall with (Q := fun r fs fds =>
      match r with
      | Err _ => False
      | Ok chunk =>
          cp_state fs0 fds0 from to fd_from fd_to (pos + length chunk)
            (take pos d) fs fds
          /\ take pos d ++ chunk = take (pos + length chunk) d
          /\ (chunk = [] -> take pos d = d)
          /\ (length chunk <= length d - pos)%nat
      end).
    intros ch fs fds Hch Hn HK.
    pose proof (read_sem_state fs0 fds0 from to fd_from fd_to Hto0 Hfrom0 Hfd
                  d Hd pos ch fs fds HK) as Hr.
    cbn zeta in Hr.
    destruct (read_sem fd_from cp_buf_size ch (fs, fds)).1 as [e | chunk].
    - destruct Hr as [-> _]. by destruct (Hch e).
    - by destruct Hr as (_ & ? & ? & ? & ?). }
  intros [e | chunk]; cbn beta; [by intros w (_ & _ & []) |].
  destruct (0 <? length chunk)%nat eqn:Hlen.
  - apply Nat.ltb_lt in Hlen.
    intros w (Hu & Hl & Hs & Heq & _ & Hle).
    destruct (total_cp_write_all fuel n (pos + length chunk) (take pos d)
                chunk ltac:(lia) w)
      as (ok & w1 & E1 & Hu1 & Hl1 & -> & Hs1).
    { split; [done |]. split; [lia | done]. }
    rewrite Heq in Hs1.
    destruct (IH n (pos + length chunk)%nat ltac:(lia) w1)
      as (r & w2 & E2 & Hpost); [done |].
    exists r, w2. split; [| done]. unfold bind. by rewrite E1.
  - apply Nat.ltb_ge in Hlen.
    assert (chunk = []) as -> by (apply length_zero_iff_nil; lia).
    eapply total_bind.
    { apply total_syscall with (Q := fun r fs fds =>
        r = Ok tt /\ fs = <[to := File d]> fs0
        /\ fds = <[fd_from := mk_open_file from (pos + 0) false]> fds0).
      intros ch fs fds Hch _ ([-> ->] & _ & Hall & _).
      rewrite (Hall eq_refl).
      rewrite close_sem_calm, close_sem_open
        by (try done; rewrite lookup_insert_eq; by eexists).
      cbn [fst snd]. split; [done |]. split; [done |].
      by rewrite delete_insert_id by by rewrite lookup_insert_ne. }
    intros [e | []]; cbn beta; [by intros w (_ & _ & [=] & _) |].
    eapply total_bind.
    { apply total_syscall with (Q := fun _ fs fds =>
        fs = <[to := File d]> fs0 /\ fds = fds0).
      intros ch fs fds Hch _ (_ & -> & ->).
      rewrite close_sem_open by (rewrite lookup_insert_eq; by eexists).
      cbn [fst snd]. split; [done |]. by rewrite delete_insert_id. }
    intros ?. apply total_ret. intros w Hw.
    eapply calm_weaken; [| | exact Hw]; [lia |].
    by intros fs fds [-> ->].
Qed.

End CopyRun.

(** With no failure and enough fuel, a copy of a file to a path where
    nothing exists answers 0, whatever short transfers the environment
    imposes. *)
Lemma total_cp (fs0 : gmap string node) (fds0 : gmap nat open_file)
    (fuel n : nat) (to from : string) (d : list Byte.byte) :
  fs0 !! from = Some (File d) -> fs0 !! to = None ->
  (length d + n + 1 < fuel)%nat ->
  total (calm n (fun fs fds => fs = fs0 /\ fds = fds0))
        (cp fuel to from)
        (fun r =>
           calm n (fun fs fds =>
                     r = 0 /\ fs = <[to := File d]> fs0 /\ fds = fds0)).
Proof.
  intros Hfrom Hto Hfuel. unfold cp.
  set (fd_from := fresh_fd fds0).
  set (fd_to := fresh_fd (<[fd_from := mk_open_file from 0 false]> fds0)).
  pose proof (fresh_fd_None fds0) as Hfdf. fold fd_from in Hfdf.
  pose proof (fresh_fd_None (<[fd_from := mk_open_file from 0 false]> fds0))
    as Hfresh.
  fold fd_to in Hfresh. apply lookup_insert_None in Hfresh as [Hfdt Hne].
  eapply total_bind.
  { apply total_syscall with (Q := fun r fs fds =>
      r = Ok fd_from /\ fs = fs0
      /\ fds = <[fd_from := mk_open_file from 0 false]> fds0).
    intros ch fs fds Hch _ [-> ->].
    unfold open_rdonly_sem, faulty.
    destruct ch; [| by destruct (Hch e) |]; cbn [fst snd];
      by rewrite (resolve_stored fs0 from) by (by eexists). }
  intros r. apply total_assume. intros ->.
  eapply total_bind.
  { apply total_syscall with (Q := fun r fs fds =>
      r = Ok fd_to
      /\ cp_state fs0 fds0 from to fd_from fd_to 0 (take 0 d) fs fds).
    intros ch fs fds Hch _ [-> ->].
    unfold open_excl_sem, faulty.
    destruct ch; [| by destruct (Hch e) |]; cbn [fst snd];
      by rewrite Hto. }
  intros r. apply total_assume. intros ->.
  eapply total_weaken;
    [| | apply (total_cp_loop fs0 fds0 from to fd_from fd_to d
                  Hto Hfrom Hfdf Hfdt Hne fuel n 0)]; [| done | lia].
  intros w Hw. eapply calm_weaken; [| | exact Hw]; [lia | done].
Qed.

(** ** What the entry operations leave behind *)

Lemma triple_done {A} (P : gmap string node -> gmap nat open_file -> Prop)
    (m : M A) (Q : A -> gmap string node -> gmap nat open_file -> Prop)
    (w : world) (a : A) (w' : world) :
  triple P m Q -> P (w_fs w) (w_fds w) -> m w = (Done a, w') ->
  Q a (w_fs w') (w_fds w').
Proof. intros H HP E. specialize (H w HP). by rewrite E in H. Qed.

Lemma stat_sem_cases (p : string) (ch : env_choice)
    (fs : gmap string node) (fds : gmap nat open_file) :
  let rk := stat_sem p ch (fs, fds) in
  rk.2 = (fs, fds)
  /\ match rk.1 with Ok n => node_at fs p = Some n | Err _ => True end.
Proof.
  cbn zeta. unfold stat_sem, faulty.
  destruct ch; cbn [fst snd]; try done; by destruct (node_at fs p).
Qed.

Lemma mkdir_sem_cases (p : string) (ch : env_choice)
    (fs : gmap string node) (fds : gmap nat open_file) :
  let rk := mkdir_sem p ch (fs, fds) in
  rk.2.2 = fds
  /\ match rk.1 with
     | Ok _ => fs !! p = None /\ rk.2.1 = <[p := Dir]> fs
     | Err _ => rk.2.1 = fs
     end.
Proof.
  cbn zeta. unfold mkdir_sem, faulty.
  destruct ch; cbn [fst snd]; try done;
    destruct (node_at fs p) eqn:E; cbn [fst snd]; try done;
    (split; [done | split; [by apply node_at_none | done]]).
Qed.

Lemma unlink_sem_cases (p : string) (ch : env_choice)
    (fs : gmap string node) (fds : gmap nat open_file) :
  let rk := unlink_sem p ch (fs, fds) in
  rk.2.2 = fds
  /\ match rk.1 with
     | Ok _ => (exists d, fs !! p = Some (File d)) /\ rk.2.1 = delete p fs
     | Err _ => rk.2.1 = fs
     end.
Proof.
  cbn zeta. unfold unlink_sem, faulty.
  destruct ch; cbn [fst snd]; try done;
    destruct (fs !! p) as [[d |] |]; cbn [fst snd]; try done;
    (split; [done |]; split; [by exists d | done]).
Qed.

Lemma rename_sem_cases (from to : string) (ch : env_choice)
    (fs : gmap string node) (fds : gmap nat open_file) :
  let rk := rename_sem from to ch (fs, fds) in
  rk.2.2 = fds
  /\ match rk.1 with
     | Ok _ =>
         exists n, fs !! from = Some n /\ rk.2.1 = <[to := n]> (delete from fs)
     | Err _ => rk.2.1 = fs
     end.
Proof.
  cbn zeta. unfold rename_sem, faulty.
  destruct ch; cbn [fst snd]; try done;
    destruct (fs !! from) as [n |]; cbn [fst snd]; try done;
    destruct (fs !! to) as [[d |] |]; cbn [fst snd]; try done;
    (split; [done |]; by exists n).
Qed.


(** *** get *)

Lemma triple_command_get_copy (fs0 : gmap string node)
    (fds0 : gmap nat open_file) (fuel : nat) (p : cache_entry_path_t)
    (dest : string) :
  triple (fun fs fds => fs = fs0 /\ fds = fds0)
         (command_get_copy fuel p dest)
         (fun r fs fds =>
            fds = fds0
            /\ ((r = 0
                 /\ exists d, fs0 !! fullpath p = Some (File d)
                              /\ fs0 !! dest = None
                              /\ fs = <[dest := File d]> fs0)
                \/ (r = RET_FILE_OPS
                    /\ forall q, q <> dest -> fs !! q = fs0 !! q))).
Proof.
  unfold command_get_copy.
  eapply triple_bind; [apply triple_cp_result |].
  intros c. cbn beta.
  intros w [Hfds [[-> (d & Hd & Hto & Hfs)] | [-> Hfs]]]; cbn [Z.ltb Z.compare].
  - cbn [ret]. split; [done |]. left. split; [done |]. by exists d.
  - assert (Hq : forall q, q <> dest -> w_fs w !! q = fs0 !! q).
    { intros q Hq. destruct Hfs as [-> | (_ & part & -> & _)]; [done |].
      by rewrite lookup_insert_ne. }
    unfold bind, sys_unlink, syscall, ret. cbn [fst snd w_fs w_fds].
    pose proof (unlink_sem_cases dest (next_choice (w_env w)).1
                  (w_fs w) (w_fds w)) as [Hu1 Hu2].
    cbn zeta in Hu1, Hu2. split; [by rewrite Hu1 |].
    right. split; [done |]. intros q Hne.
    destruct (unlink_sem dest (next_choice (w_env w)).1 (w_fs w, w_fds w)).1.
    + rewrite Hu2. by apply Hq.
    + destruct Hu2 as [_ ->]. rewrite lookup_delete_ne by done. by apply Hq.
Qed.

Lemma triple_command_get_effect (sg : bool) (fs0 : gmap string node)
    (fds0 : gmap nat open_file) (fuel : nat)
    (cache_path cache_id dest : string) :
  let p := cache_id_to_path sg cache_path cache_id in
  triple (fun fs fds => fs = fs0 /\ fds = fds0)
         (command_get sg fuel cache_path cache_id dest)
         (fun r fs fds =>
            fds = fds0
            /\ ((r = 0
                 /\ exists d, fs0 !! fullpath p = Some (File d)
                              /\ dest <> fullpath p
                              /\ fs = <[dest := File d]> fs0)
                \/ (r = RET_MISS /\ fs = fs0)
                \/ (r = RET_FILE_OPS
                    /\ forall q, q <> dest -> fs !! q = fs0 !! q))).
Proof.
  cbn zeta. unfold command_get.
  set (p := cache_id_to_path sg cache_path cache_id).
  apply triple_bind with (R := fun _ fs fds => fs = fs0 /\ fds = fds0).
  { apply triple_syscall. intros ch fs fds [-> ->].
    destruct (stat_sem_cases (fullpath p) ch fs0 fds0) as [-> _]. done. }
  intros [e | st].
  { apply triple_ret. intros fs fds [-> ->]. split; [done |].
    right. left. done. }
  apply triple_bind with (R := fun u fs fds =>
    fds = fds0
    /\ match u with
       | Ok _ => (exists d, fs0 !! dest = Some (File d)) /\ fs = delete dest fs0
       | Err _ => fs = fs0
       end).
  { apply triple_syscall. intros ch fs fds [-> ->].
    exact (unlink_sem_cases dest ch fs0 fds0). }
  assert (Hcopy : forall fs1,
    (fs1 = fs0 \/ fs1 = delete dest fs0) ->
    triple (fun fs fds => fs = fs1 /\ fds = fds0)
           (command_get_copy fuel p dest)
           (fun r fs fds =>
              fds = fds0
              /\ ((r = 0
                   /\ exists d, fs0 !! fullpath p = Some (File d)
                                /\ dest <> fullpath p
                                /\ fs = <[dest := File d]> fs0)
                  \/ (r = RET_MISS /\ fs = fs0)
                  \/ (r = RET_FILE_OPS
                      /\ forall q, q <> dest -> fs !! q = fs0 !! q)))).
  { intros fs1 Hfs1.
    eapply triple_weaken; [| | apply (triple_command_get_copy fs1 fds0)];
      cbn beta; [done |].
    intros r fs fds [-> [(-> & d & Hd & Hto & ->) | [-> Hq]]]; (split; [done |]).
    - left. split; [done |]. exists d.
      assert (Hne : dest <> fullpath p).
      { intros E. rewrite E, Hd in Hto. done. }
      destruct Hfs1 as [-> | ->]; [done |].
      rewrite lookup_delete_ne in Hd by done.
      by rewrite insert_delete_eq.
    - right. right. split; [done |]. intros q Hne. rewrite (Hq q Hne).
      destruct Hfs1 as [-> | ->]; [done | by rewrite lookup_delete_ne]. }
  intros [e | []]; cbn beta.
  - destruct (decide (e = ENOENT)).
    + eapply triple_weaken; [| | apply (Hcopy fs0); by left]; cbn beta; [| done].
      by intros fs fds [-> ->].
    + apply triple_ret. intros fs fds [-> ->]. split; [done |].
      right. right. done.
  - eapply triple_weaken; [| | apply (Hcopy (delete dest fs0)); by right];
      cbn beta; [| done].
    by intros fs fds [-> [_ ->]].
Qed.

(** *** put *)

Lemma triple_command_put_commit (fs0 : gmap string node)
    (fds0 : gmap nat open_file) (tmp : string) (p : cache_entry_path_t) :
  triple (fun fs fds => fs = fs0 /\ fds = fds0)
         (command_put_commit tmp p)
         (fun r fs fds =>
            fds = fds0
            /\ ((r = 0
                 /\ exists n, fs0 !! tmp = Some n
                              /\ fs = <[fullpath p := n]> (delete tmp fs0))
                \/ (r = RET_FILE_OPS /\ fs = fs0))).
Proof.
  unfold command_put_commit.
  apply triple_bind with (R := fun r fs fds =>
    fds = fds0
    /\ match r with
       | Ok _ =>
           exists n, fs0 !! tmp = Some n
                     /\ fs = <[fullpath p := n]> (delete tmp fs0)
       | Err _ => fs = fs0
       end).
  { apply triple_syscall. intros ch fs fds [-> ->].
    exact (rename_sem_cases tmp (fullpath p) ch fs0 fds0). }
  intros [e | []]; apply triple_ret; intros fs fds [-> H];
    (split; [done |]); [by right | by left].
Qed.

Lemma triple_command_put_copy (fs0 : gmap string node)
    (fds0 : gmap nat open_file) (fuel : nat) (tmp : string)
    (p : cache_entry_path_t) (source : string) :
  triple (fun fs fds => fs = fs0 /\ fds = fds0)
         (command_put_copy fuel tmp p source)
         (fun r fs fds =>
            fds = fds0
            /\ ((r = 0
                 /\ exists d, fs0 !! source = Some (File d)
                              /\ fs0 !! tmp = None
                              /\ fs = <[fullpath p := File d]> (delete tmp fs0))
                \/ (r = RET_FILE_OPS
                    /\ forall q, q <> tmp -> fs !! q = fs0 !! q))).
Proof.
  unfold command_put_copy.
  eapply triple_bind; [apply triple_cp_result |].
  intros c. cbn beta.
  intros w [Hfds [[-> (d & Hd & Hto & Hfs)] | [-> Hfs]]]; cbn [Z.ltb Z.compare].
  - pose proof (triple_command_put_commit (w_fs w) (w_fds w) tmp p w
                  (conj eq_refl eq_refl)) as H.
    destruct (command_put_commit tmp p w) as [[r | |] w']; [| done | done].
    destruct H as [-> [(-> & n & Hn & ->) | [-> ->]]]; (split; [done |]).
    + left. split; [done |]. exists d.
      rewrite Hfs, lookup_insert_eq in Hn. injection Hn as <-.
      by rewrite Hfs, delete_insert_eq.
    + right. split; [done |]. intros q Hq. by rewrite Hfs, lookup_insert_ne.
  - cbn [ret]. split; [done |]. right. split; [done |]. intros q Hq.
    destruct Hfs as [-> | (_ & part & -> & _)]; [done |].
    by rewrite lookup_insert_ne.
Qed.

Lemma triple_command_put_stage (fs0 : gmap string node)
    (fds0 : gmap nat open_file) (fuel : nat)
    (p : cache_entry_path_t) (source : string) :
  triple (fun fs fds => fs = fs0 /\ fds = fds0)
         (command_put_stage fuel p source)
         (fun r fs fds =>
            fds = fds0
            /\ ((r = 0
                 /\ exists d, fs0 !! source = Some (File d)
                              /\ source <> tmpfilename_of p
                              /\ fs = <[fullpath p := File d]>
                                        (delete (tmpfilename_of p) fs0))
                \/ (r = RET_FILE_OPS
                    /\ forall q, q <> tmpfilename_of p ->
                                 fs !! q = fs0 !! q))).
Proof.
  unfold command_put_stage. cbn zeta.
  set (tmp := tmpfilename_of p).
  apply triple_bind with (R := fun u fs fds =>
    fds = fds0
    /\ match u with
       | Ok _ => (exists d, fs0 !! tmp = Some (File d)) /\ fs = delete tmp fs0
       | Err _ => fs = fs0
       end).
  { apply triple_syscall. intros ch fs fds [-> ->].
    exact (unlink_sem_cases tmp ch fs0 fds0). }
  assert (Hcopy : forall fs1,
    (fs1 = fs0 \/ fs1 = delete tmp fs0) ->
    triple (fun fs fds => fs = fs1 /\ fds = fds0)
           (command_put_copy fuel tmp p source)
           (fun r fs fds =>
              fds = fds0
              /\ ((r = 0
                   /\ exists d, fs0 !! source = Some (File d)
                                /\ source <> tmp
                                /\ fs = <[fullpath p := File d]>
                                          (delete tmp fs0))
                  \/ (r = RET_FILE_OPS
                      /\ forall q, q <> tmp -> fs !! q = fs0 !! q)))).
  { intros fs1 Hfs1.
    eapply triple_weaken; [| | apply (triple_command_put_copy fs1 fds0)];
      cbn beta; [done |].
    intros r fs fds [-> [(-> & d & Hd & Hto & ->) | [-> Hq]]]; (split; [done |]).
    - left. split; [done |]. exists d.
      assert (Hne : source <> tmp).
      { intros E. rewrite E, Hto in Hd. done. }
      destruct Hfs1 as [-> | ->]; [done |].
      rewrite lookup_delete_ne in Hd by done.
      by rewrite delete_delete_eq.
    - right. split; [done |]. intros q Hne. rewrite (Hq q Hne).
      destruct Hfs1 as [-> | ->]; [done | by rewrite lookup_delete_ne]. }
  intros [e | []]; cbn beta.
  - destruct (decide (e = ENOENT)).
    + eapply triple_weaken; [| | apply (Hcopy fs0); by left]; cbn beta; [| done].
      by intros fs fds [-> ->].
    + apply triple_ret. intros fs fds [-> ->]. split; [done |]. by right.
  - eapply triple_weaken; [| | apply (Hcopy (delete tmp fs0)); by right];
      cbn beta; [| done].
    by intros fs fds [-> [_ ->]].
Qed.

Lemma triple_command_put_effect (sg : bool) (fs0 : gmap string node)
    (fds0 : gmap nat open_file) (fuel : nat)
    (cache_path cache_id source : string) :
  let p := cache_id_to_path sg cache_path cache_id in
  triple (fun fs fds => fs = fs0 /\ fds = fds0)
         (command_put sg fuel cache_path cache_id source)
         (fun r fs fds =>
            fds = fds0
            /\ ((r = 0
                 /\ exists d, fs0 !! source = Some (File d)
                              /\ source <> tmpfilename_of p
                              /\ fs = <[fullpath p := File d]>
                                        (delete (tmpfilename_of p)
                                           (<[dirfullpath p := Dir]> fs0)))
                \/ (r = RET_FILE_OPS
                    /\ forall q, q <> dirfullpath p -> q <> tmpfilename_of p ->
                                 fs !! q = fs0 !! q))).
Proof.
  cbn zeta. unfold command_put.
  set (p := cache_id_to_path sg cache_path cache_id).
  apply triple_bind with (R := fun st fs fds =>
    (fs = fs0 /\ fds = fds0)
    /\ match st with Ok n => fs0 !! dirfullpath p = Some n | Err _ => True end).
  { apply triple_syscall. intros ch fs fds [-> ->].
    destruct (stat_sem_cases (dirfullpath p) ch fs0 fds0) as [E H].
    cbn zeta in E, H. rewrite E. split; [done |].
    destruct (stat_sem (dirfullpath p) ch (fs0, fds0)).1; [done |].
    rewrite <- H. symmetry. apply node_at_plain, dot_dir_dirfullpath. }
  assert (Hstage : forall fs1,
    (fs1 = <[dirfullpath p := Dir]> fs0) ->
    triple (fun fs fds => fs = fs1 /\ fds = fds0)
           (command_put_stage fuel p source)
           (fun r fs fds =>
              fds = fds0
              /\ ((r = 0
                   /\ exists d, fs0 !! source = Some (File d)
                                /\ source <> tmpfilename_of p
                                /\ fs = <[fullpath p := File d]>
                                          (delete (tmpfilename_of p)
                                             (<[dirfullpath p := Dir]> fs0)))
                  \/ (r = RET_FILE_OPS
                      /\ forall q, q <> dirfullpath p ->
                                   q <> tmpfilename_of p ->
                                   fs !! q = fs0 !! q)))).
  { intros fs1 ->.
    eapply triple_weaken; [| | apply triple_command_put_stage];
      cbn beta; [done |].
    intros r fs fds [-> [(-> & d & Hd & Hne & ->) | [-> Hq]]]; (split; [done |]).
    - left. split; [done |]. exists d. split; [| done].
      apply lookup_insert_Some in Hd as [[_ [=]] | [_ Hd]]. done.
    - right. split; [done |]. intros q Hq1 Hq2.
      by rewrite (Hq q Hq2), lookup_insert_ne. }
  intros [e | n]; cbn beta.
  - apply triple_bind with (R := fun mk fs fds =>
      fds = fds0
      /\ match mk with
         | Ok _ => fs = <[dirfullpath p := Dir]> fs0
         | Err _ => fs = fs0
         end).
    { apply triple_syscall. intros ch fs fds [[-> ->] _].
      destruct (mkdir_sem_cases (dirfullpath p) ch fs0 fds0) as [E H].
      cbn zeta in E, H. split; [done |].
      destruct (mkdir_sem (dirfullpath p) ch (fs0, fds0)).1; [done |].
      by destruct H. }
    intros [e' | []]; cbn beta.
    + apply triple_ret. intros fs fds [-> ->]. split; [done |]. by right.
    + eapply triple_weaken; [| | apply (Hstage _ eq_refl)]; cbn beta; [| done].
      by intros fs fds [-> ->].
  - destruct n as [d |]; cbn [S_ISDIR negb].
    + apply triple_ret. intros fs fds [[-> ->] _]. split; [done |]. by right.
    + eapply triple_weaken; [| | apply (Hstage _ eq_refl)]; cbn beta; [| done].
      intros fs fds [[-> ->] Hdir]. by rewrite insert_id.
Qed.

(** ** Entry operations that go through *)

Lemma total_call {A} (c : call)
    (sem : env_choice -> kstate -> result A * kstate) (n : nat)
    (K : gmap string node -> gmap nat open_file -> Prop)
    (Q : result A -> gmap string node -> gmap nat open_file -> Prop) :
  (forall ch fs fds,
      (forall e, ch <> Failure e) -> K fs fds ->
      Q (sem ch (fs, fds)).1 (sem ch (fs, fds)).2.1 (sem ch (fs, fds)).2.2) ->
  total (calm n K) (syscall c sem) (fun r => calm n (Q r)).
Proof.
  intros H.
  eapply total_weaken; [| | apply (total_syscall c sem n K Q)]; cbn beta.
  - done.
  - intros r w Hw. eapply calm_weaken; [| | exact Hw]; [lia | done].
  - intros ch fs fds Hch _ HK. by apply H.
Qed.

(** [stat] of a path that holds a node. *)
Lemma total_stat_present (n : nat) (p : string) (nd : node)
    (fs0 : gmap string node) (fds0 : gmap nat open_file) :
  fs0 !! p = Some nd ->
  total (calm n (fun fs fds => fs = fs0 /\ fds = fds0))
        (sys_stat p)
        (fun r => calm n (fun fs fds => r = Ok nd /\ fs = fs0 /\ fds = fds0)).
Proof.
  intros Hp. apply total_call. intros ch fs fds Hch [-> ->].
  unfold stat_sem, faulty.
  destruct ch; [| by destruct (Hch e) |]; cbn [fst snd];
    by rewrite (node_at_stored _ _ _ Hp).
Qed.





(** ** Whole invocations *)










(** ** The order of the calls *)


Lemma appends_undefined {A} : appends (@undefined A).
Proof. intros w. exists []. by rewrite app_nil_r. Qed.
















(** ** Exit codes *)

Lemma triple_any {A} (m : M A) (Q : A -> Prop) :
  (forall fs0 fds0,
      triple (fun fs fds => fs = fs0 /\ fds = fds0) m (fun a _ _ => Q a)) ->
  forall P, triple P m (fun a _ _ => Q a).
Proof. intros H P w _. by apply (H (w_fs w) (w_fds w) w). Qed.

Lemma triple_codes {A} (m : M A) (Q : A -> Prop)
    (Q' : A -> gmap string node -> gmap nat open_file -> Prop) P :
  (forall P0, triple P0 m (fun a _ _ => Q a)) ->
  (forall a fs fds, Q a -> Q' a fs fds) -> triple P m Q'.
Proof.
  intros H HQ. eapply triple_weaken; [| | apply (H P)]; cbn beta; [done |].
  exact HQ.
Qed.

Lemma command_put_codes (sg : bool) (fuel : nat)
    (cache_path cache_id source : string) P :
  triple P (command_put sg fuel cache_path cache_id source)
         (fun r _ _ => r = 0 \/ r = RET_FILE_OPS).
Proof.
  apply (triple_any _ (fun r => r = 0 \/ r = RET_FILE_OPS)).
  intros fs0 fds0.
  eapply triple_weaken; [| | apply triple_command_put_effect]; cbn beta;
    [done |].
  intros r fs fds [_ [[-> _] | [-> _]]]; auto.
Qed.

Lemma command_get_codes (sg : bool) (fuel : nat)
    (cache_path cache_id dest : string) P :
  triple P (command_get sg fuel cache_path cache_id dest)
         (fun r _ _ => r = 0 \/ r = RET_MISS \/ r = RET_FILE_OPS).
Proof.
  apply (triple_any _ (fun r => r = 0 \/ r = RET_MISS \/ r = RET_FILE_OPS)).
  intros fs0 fds0.
  eapply triple_weaken; [| | apply triple_command_get_effect]; cbn beta;
    [done |].
  intros r fs fds [_ [[-> _] | [[-> _] | [-> _]]]]; auto.
Qed.

Lemma src_copy_delete_codes (sg : bool) (cache_path cache_id : string) P :
  triple P (SrcCopy.command_delete sg cache_path cache_id)
         (fun r _ _ => r = 0 \/ r = RET_MISS \/ r = RET_FILE_OPS).
Proof.
  unfold SrcCopy.command_delete. cbn zeta.
  apply triple_bind with (R := fun _ _ _ => True);
    [by apply triple_syscall |].
  intros [e | []]; [| by apply triple_ret; auto].
  destruct (decide (e = ENOENT)); apply triple_ret; auto.
Qed.

Lemma second_copy_delete_codes (sg : bool) (cache_path cache_id : string) P :
  triple P (SecondCopy.command_delete sg cache_path cache_id)
         (fun r _ _ => r = 0 \/ r = RET_MISS \/ r = RET_FILE_OPS).
Proof.
  unfold SecondCopy.command_delete. cbn zeta.
  apply triple_bind with (R := fun _ _ _ => True);
    [by apply triple_syscall |].
  intros [e | []]; [| by apply triple_ret; auto].
  destruct (decide (e = ENOENT)); apply triple_ret; auto.
Qed.

Lemma flock_sem_state (fd : nat) (ch : env_choice) (k : kstate) :
  (flock_sem fd ch k).2 = k.
Proof.
  unfold flock_sem, faulty. destruct ch; try done; by destruct (k.2 !! fd).
Qed.

(** The codes of [main] from the [stat] of the cache root on. *)
Lemma triple_main_dispatch_codes (sg : bool)
    (command_delete : string -> string -> M Z) (fuel : nat)
    (cache_path command cache_id source : string) (max_size_mb : Z)
    (fs0 : gmap string node) (fds0 : gmap nat open_file) :
  (forall P, triple P (command_delete cache_path cache_id)
               (fun r _ _ => r = 0 \/ r = RET_MISS \/ r = RET_FILE_OPS)) ->
  triple (fun fs fds => fs = fs0 /\ fds = fds0)
         (main_dispatch sg command_delete fuel cache_path command cache_id
            source max_size_mb)
         (fun r fs fds =>
            (r = RET_NO_CACHE_DIR /\ fs = fs0 /\ fds = fds0)
            \/ r = 0 \/ r = RET_MISS \/ r = RET_FILE_OPS \/ r = RET_LOCK
            \/ (r = RET_INTERNAL
                /\ String.eqb command "put" = false
                /\ String.eqb command "get" = false
                /\ String.eqb command "delete" = false)).
Proof.
  intros Hdel. unfold main_dispatch.
  apply triple_bind with (R := fun _ fs fds => fs = fs0 /\ fds = fds0).
  { apply triple_syscall. intros ch fs fds [-> ->].
    by destruct (stat_sem_cases cache_path ch fs0 fds0) as [-> _]. }
  intros [e | nd]; [apply triple_ret; by left |].
  destruct (negb (S_ISDIR nd)); [apply triple_ret; by left |].
  apply triple_bind with (R := fun _ _ _ => True);
    [by apply triple_syscall |].
  intros [e | lock_fd]; [apply triple_ret; auto |].
  apply triple_bind with (R := fun _ _ _ => True);
    [by apply triple_syscall |].
  intros [e | []]; [apply triple_ret; auto 6 |].
  destruct (String.eqb command "put") eqn:Eput.
  { eapply triple_codes; [intros P0; apply command_put_codes |].
    intros r ? ? [-> | ->]; cbn beta; auto. }
  destruct (String.eqb command "get") eqn:Eget.
  { eapply triple_codes; [intros P0; apply command_get_codes |].
    intros r ? ? [-> | [-> | ->]]; cbn beta; auto. }
  destruct (String.eqb command "delete") eqn:Edel.
  { eapply triple_codes; [exact Hdel |].
    intros r ? ? [-> | [-> | ->]]; cbn beta; auto. }
  destruct (String.eqb command "clean");
    apply triple_ret; intros; do 5 right; done.
Qed.

(** The codes of [main]: a usage error is answered before any call, and a
    missing cache root before anything is touched. *)
Lemma main_with_codes (sg : bool)
    (command_delete : string -> string -> M Z) (fuel : nat)
    (argv : list string) (w : world) (r : Z) (w' : world) :
  (forall cache_path cache_id P,
      triple P (command_delete cache_path cache_id)
        (fun r _ _ => r = 0 \/ r = RET_MISS \/ r = RET_FILE_OPS)) ->
  main_with sg command_delete fuel argv w = (Done r, w') ->
  (r = 0 \/ r = RET_USAGE \/ r = RET_MISS \/ r = RET_NO_CACHE_DIR
   \/ r = RET_FILE_OPS \/ r = RET_LOCK)
  /\ (r = RET_USAGE -> w' = w)
  /\ (r = RET_NO_CACHE_DIR -> w_fs w' = w_fs w /\ w_fds w' = w_fds w).
Proof.
  intros Hdel.
  assert (Husage : ret RET_USAGE w = (Done r, w') ->
    (r = 0 \/ r = RET_USAGE \/ r = RET_MISS \/ r = RET_NO_CACHE_DIR
     \/ r = RET_FILE_OPS \/ r = RET_LOCK)
    /\ (r = RET_USAGE -> w' = w)
    /\ (r = RET_NO_CACHE_DIR -> w_fs w' = w_fs w /\ w_fds w' = w_fds w)).
  { intros [= <- <-]. split; [auto |]. split; [done |]. done. }
  assert (Hdispatch : forall cache_path command cache_id source sz,
    String.eqb command "put" || String.eqb command "get"
    || String.eqb command "delete" = true ->
    main_dispatch sg command_delete fuel cache_path command cache_id source sz w
    = (Done r, w') ->
    (r = 0 \/ r = RET_USAGE \/ r = RET_MISS \/ r = RET_NO_CACHE_DIR
     \/ r = RET_FILE_OPS \/ r = RET_LOCK)
    /\ (r = RET_USAGE -> w' = w)
    /\ (r = RET_NO_CACHE_DIR -> w_fs w' = w_fs w /\ w_fds w' = w_fds w)).
  { intros cache_path command cache_id source sz Hcmd E.
    pose proof (triple_done _ _ _ w r w'
                  (triple_main_dispatch_codes sg command_delete fuel
                     cache_path command cache_id source sz (w_fs w) (w_fds w)
                     (Hdel cache_path cache_id))
                  (conj eq_refl eq_refl) E) as H.
    cbn beta in H.
    destruct H as [(-> & -> & ->) | [-> | [-> | [-> | [-> | H]]]]];
      try (split; [auto 7 | split; done]).
    destruct H as (_ & E1 & E2 & E3). by rewrite E1, E2, E3 in Hcmd. }
  unfold main_with.
  destruct (negb (3 <=? length argv)%nat); [exact Husage |].
  destruct (argv !! 1%nat) as [cache_path |]; [| done].
  destruct (argv !! 2%nat) as [command |]; [| done].
  destruct (negb (nonempty cache_path && nonempty command)); [exact Husage |].
  destruct (String.eqb command "put" || String.eqb command "get") eqn:Epg.
  { destruct (negb (length argv =? 5)%nat); [exact Husage |].
    destruct (argv !! 3%nat) as [cache_id |]; [| done].
    destruct (argv !! 4%nat) as [source |]; [| done].
    destruct (negb (nonempty source && nonempty cache_id)); [exact Husage |].
    apply Hdispatch. by rewrite Epg. }
  destruct (String.eqb command "delete") eqn:Edel.
  { destruct (negb (length argv =? 4)%nat); [exact Husage |].
    destruct (argv !! 3%nat) as [cache_id |]; [| done].
    destruct (negb (nonempty cache_id)); [exact Husage |].
    apply Hdispatch. by rewrite Epg, Edel. }
  destruct (String.eqb command "clean"); [| exact Husage].
  destruct (length argv =? 4)%nat eqn:Elen; cbn [negb]; [| exact Husage].
  apply Nat.eqb_eq in Elen.
  rewrite (lookup_ge_None_2 argv 4) by lia. done.
Qed.

(** ** Edges *)

(** A copy onto a path that holds a node ends, whatever the environment
    does: no loop is entered. *)
Lemma cp_onto_existing_ends (fuel : nat) (to from : string) (w : world) :
  is_Some (w_fs w !! to) ->
  exists r w', cp fuel to from w = (Done r, w').
Proof.
  intros Hto. unfold cp, bind.
  unfold sys_open_rdonly at 1. unfold syscall at 1.
  set (r1 := open_rdonly_sem from (next_choice (w_env w)).1 (w_fs w, w_fds w)).
  assert (Hfs1 : r1.2.1 = w_fs w).
  { unfold r1, open_rdonly_sem, faulty.
    destruct (next_choice (w_env w)).1; cbn [fst snd]; try done;
      by destruct (resolve (w_fs w) from). }
  destruct r1.1 as [e | fd_from]; [by eexists _, _ |].
  unfold sys_open_excl at 1. unfold syscall at 1. cbn [w_fs w_fds w_env].
  set (r2 := open_excl_sem to _ _).
  assert (Herr : is_ok r2.1 = false).
  { unfold r2, open_excl_sem, faulty.
    destruct (next_choice (next_choice (w_env w)).2).1; cbn [fst snd];
      try done; rewrite Hfs1; by destruct Hto as [nd ->]. }
  destruct r2.1 as [e | fd_to]; [| done].
  unfold cp_out_error, bind, sys_close, syscall, ret. by eexists _, _.
Qed.

(** [get] with the entry path itself as destination, when no call fails:
    the entry is unlinked, and there is nothing left to copy. *)
Lemma total_command_get_onto_entry (sg : bool) (fs0 : gmap string node)
    (fds0 : gmap nat open_file) (fuel n : nat) (d : list Byte.byte)
    (cache_path cache_id : string) :
  let p := cache_id_to_path sg cache_path cache_id in
  dot_name cache_id = false ->
  fs0 !! fullpath p = Some (File d) ->
  total (calm n (fun fs fds => fs = fs0 /\ fds = fds0))
        (command_get sg fuel cache_path cache_id (fullpath p))
        (fun r =>
           calm n (fun fs fds =>
                     r = RET_FILE_OPS
                     /\ fs = delete (fullpath p) fs0 /\ fds = fds0)).
Proof.
  cbn zeta. intros Hid Hentry. unfold command_get.
  pose proof (dot_dir_fullpath sg cache_path cache_id) as Hplain.
  cbn zeta in Hplain. rewrite Hid in Hplain.
  set (p := cache_id_to_path sg cache_path cache_id) in *.
  eapply total_bind; [by apply (total_stat_present n _ (File d)) |].
  intros r. apply total_assume. intros ->.
  eapply total_bind.
  { apply total_call with (Q := fun r fs fds =>
      r = Ok tt /\ fs = delete (fullpath p) fs0 /\ fds = fds0).
    intros ch fs fds Hch [-> ->]. unfold unlink_sem, faulty.
    destruct ch; [| by destruct (Hch e) |]; cbn [fst snd]; by rewrite Hentry. }
  intros r. apply total_assume. intros ->.
  unfold command_get_copy, cp.
  eapply total_bind.
  { eapply total_bind.
    { apply total_call with (Q := fun r fs fds =>
        is_ok r = false /\ fs = delete (fullpath p) fs0 /\ fds = fds0).
      intros ch fs fds Hch [-> ->]. unfold open_rdonly_sem, resolve, faulty.
      destruct ch; [| by destruct (Hch e) |]; cbn [fst snd];
        by rewrite lookup_delete_eq, Hplain. }
    intros [e | fd]; apply total_assume; [intros _ | done].
    apply total_ret with (Q := fun c =>
      calm n (fun fs fds =>
                c = -1 /\ fs = delete (fullpath p) fs0 /\ fds = fds0)).
    intros w Hw. eapply calm_weaken; [| | exact Hw]; [lia | done]. }
  intros c. apply total_assume. intros ->. cbn [Z.ltb Z.compare].
  eapply total_bind.
  { apply total_call with (Q := fun _ fs fds =>
      fs = delete (fullpath p) fs0 /\ fds = fds0).
    intros ch fs fds Hch [-> ->]. unfold unlink_sem, faulty.
    destruct ch; [| by destruct (Hch e) |]; cbn [fst snd];
      by rewrite lookup_delete_eq. }
  intros ?. apply total_ret.
  intros w Hw. eapply calm_weaken; [| | exact Hw]; [lia | done].
Qed.

(** ** Further properties of the copy primitive *)

(** X8.  A run of [cp] that answers 0 found a file at the source and
    nothing at the destination, and leaves the files as they were but for
    the destination, which holds the whole content of the source; both
    descriptors it opened are closed again. *)
Theorem cp_copies_whole_file (fuel : nat) (to from : string) (w w' : world) :
  cp fuel to from w = (Done 0, w') ->
  (exists d, w_fs w !! from = Some (File d)
             /\ w_fs w !! to = None
             /\ w_fs w' = <[to := File d]> (w_fs w))
  /\ w_fds w' = w_fds w.
Proof.
  intros E.
  pose proof (triple_done _ _ _ w 0 w'
                (triple_cp_result (w_fs w) (w_fds w) fuel to from)
                (conj eq_refl eq_refl) E) as [Hfds [[_ H] | [[=] _]]].
  by split.
Qed.

Lemma cp_copies_whole_file_witness :
  let w := initial_world sample_fs [Short 3; Proceed; Short 2] in
  let w' := (cp 100 "/tmp/g" "/tmp/f" w).2 in
  cp 100 "/tmp/g" "/tmp/f" w = (Done 0, w')
  /\ w_fds w' = w_fds w.
Proof.
  cbn zeta.
  assert (H : cp 100 "/tmp/g" "/tmp/f"
                (initial_world sample_fs [Short 3; Proceed; Short 2])
              = (Done 0,
                 (cp 100 "/tmp/g" "/tmp/f"
                    (initial_world sample_fs [Short 3; Proceed; Short 2])).2))
    by (vm_compute; reflexivity).
  split; [exact H |].
  exact (proj2 (cp_copies_whole_file 100 "/tmp/g" "/tmp/f" _ _ H)).
Defined.

(** X9.  [cp] never overwrites: when something exists at the destination,
    the run answers -1, whatever the environment does and whatever the
    source is, and leaves the files and the descriptors as they were. *)
Theorem cp_never_overwrites (fuel : nat) (to from : string) (w : world) :
  is_Some (w_fs w !! to) ->
  exists w', cp fuel to from w = (Done (-1), w')
             /\ w_fs w' = w_fs w /\ w_fds w' = w_fds w.
Proof.
  intros Hto.
  destruct (cp_onto_existing_ends fuel to from w Hto) as (r & w' & E).
  pose proof (triple_done _ _ _ w r w'
                (triple_cp_result (w_fs w) (w_fds w) fuel to from)
                (conj eq_refl eq_refl) E) as [Hfds H].
  exists w'.
  destruct H as [(_ & d & _ & Hnone & _) | [-> [Hfs | [Hnone _]]]].
  - rewrite Hnone in Hto. by destruct Hto.
  - done.
  - rewrite Hnone in Hto. by destruct Hto.
Qed.

Lemma cp_never_overwrites_witness :
  let w := initial_world sample_fs [] in
  is_Some (w_fs w !! "/c")
  /\ (cp 100 "/c" "/tmp/f" w).1 = Done (-1).
Proof.
  cbn zeta.
  assert (H : is_Some (w_fs (initial_world sample_fs []) !! "/c"))
    by (vm_compute; eauto).
  split; [exact H |].
  destruct (cp_never_overwrites 100 "/c" "/tmp/f" _ H) as (w' & -> & _).
  reflexivity.
Defined.

(** X10.  A run of [cp] that ends without answering 0 answers -1, has
    closed the descriptors it opened, and leaves the files as they were, or
    as they were but for the destination, which did not exist and now holds
    a leading part of the source. *)
Theorem cp_failure_leaves_prefix (fuel : nat) (to from : string)
    (w : world) (r : Z) (w' : world) :
  cp fuel to from w = (Done r, w') -> r <> 0 ->
  r = -1
  /\ w_fds w' = w_fds w
  /\ (w_fs w' = w_fs w
      \/ (w_fs w !! to = None
          /\ exists part,
               w_fs w' = <[to := File part]> (w_fs w)
               /\ forall d, w_fs w !! from = Some (File d) ->
                            part `prefix_of` d)).
Proof.
  intros E Hr.
  pose proof (triple_done _ _ _ w r w'
                (triple_cp_result (w_fs w) (w_fds w) fuel to from)
                (conj eq_refl eq_refl) E) as [Hfds [[-> _] | [-> H]]];
    [done |].
  by split.
Qed.

Lemma cp_failure_leaves_prefix_witness :
  let w := initial_world sample_fs [Proceed; Proceed; Short 3; Failure ENOSPC] in
  let w' := (cp 100 "/tmp/g" "/tmp/f" w).2 in
  cp 100 "/tmp/g" "/tmp/f" w = (Done (-1), w') /\ -1 <> 0
  /\ w_fds w' = w_fds w.
Proof.
  cbn zeta.
  assert (H : cp 100 "/tmp/g" "/tmp/f"
                (initial_world sample_fs
                   [Proceed; Proceed; Short 3; Failure ENOSPC])
              = (Done (-1),
                 (cp 100 "/tmp/g" "/tmp/f"
                    (initial_world sample_fs
                       [Proceed; Proceed; Short 3; Failure ENOSPC])).2))
    by (vm_compute; reflexivity).
  assert (Hr : -1 <> 0) by lia.
  split; [exact H |]. split; [exact Hr |].
  exact (proj1 (proj2 (cp_failure_leaves_prefix 100 "/tmp/g" "/tmp/f"
                         _ _ _ H Hr))).
Defined.

(** X11.  When the environment fails no call, the source is a file and
    nothing exists at the destination, [cp] answers 0 however short the
    reads and writes are, given fuel for one turn of a loop per byte and
    per choice of the environment; the destination then holds the content
    of the source. *)
Theorem cp_succeeds (fuel : nat) (to from : string) (d : list Byte.byte)
    (w : world) :
  undisturbed (w_env w) ->
  w_fs w !! from = Some (File d) -> w_fs w !! to = None ->
  (length d + length (w_env w) + 1 < fuel)%nat ->
  exists w', cp fuel to from w = (Done 0, w')
             /\ w_fs w' = <[to := File d]> (w_fs w)
             /\ w_fds w' = w_fds w.
Proof.
  intros Hu Hfrom Hto Hfuel.
  destruct (total_cp (w_fs w) (w_fds w) fuel (length (w_env w)) to from d
              Hfrom Hto Hfuel w)
    as (r & w' & E & _ & _ & -> & Hfs & Hfds); [by repeat split |].
  by exists w'.
Qed.

Lemma cp_succeeds_witness :
  let w := initial_world sample_fs [Short 3; Proceed; Short 0; Short 2] in
  undisturbed (w_env w)
  /\ w_fs w !! "/tmp/f" = Some (File (list_byte_of_string "payload"))
  /\ w_fs w !! "/tmp/g" = None
  /\ (cp 20 "/tmp/g" "/tmp/f" w).1 = Done 0.
Proof.
  cbn zeta.
  assert (Hu : undisturbed
                 (w_env (initial_world sample_fs
                           [Short 3; Proceed; Short 0; Short 2])))
    by (repeat constructor; discriminate).
  assert (Hfrom : w_fs (initial_world sample_fs
                          [Short 3; Proceed; Short 0; Short 2]) !! "/tmp/f"
                  = Some (File (list_byte_of_string "payload")))
    by (vm_compute; reflexivity).
  assert (Hto : w_fs (initial_world sample_fs
                        [Short 3; Proceed; Short 0; Short 2]) !! "/tmp/g"
                = None)
    by (vm_compute; reflexivity).
  split; [exact Hu |]. split; [exact Hfrom |]. split; [exact Hto |].
  destruct (cp_succeeds 20 "/tmp/g" "/tmp/f" _ _ Hu Hfrom Hto
              ltac:(vm_compute; lia)) as (w' & -> & _).
  reflexivity.
Defined.

(** ** Further properties of the entry operations *)

(** X12.  A run of [get] that ends leaves the descriptors as they were and
    answers 0, 2 or 5.  With 0, the entry is a file, the destination is
    not the entry path, and the files are as they were but for the
    destination, which holds the content of the entry.  With 2, the files
    are as they were.  With 5, every path other than the destination holds
    what it held. *)
Theorem command_get_effect (sg : bool) (fuel : nat)
    (cache_path cache_id dest : string) (w : world) (r : Z) (w' : world) :
  let p := cache_id_to_path sg cache_path cache_id in
  command_get sg fuel cache_path cache_id dest w = (Done r, w') ->
  w_fds w' = w_fds w
  /\ ((r = 0
       /\ exists d, w_fs w !! fullpath p = Some (File d)
                    /\ dest <> fullpath p
                    /\ w_fs w' = <[dest := File d]> (w_fs w))
      \/ (r = RET_MISS /\ w_fs w' = w_fs w)
      \/ (r = RET_FILE_OPS
          /\ forall q, q <> dest -> w_fs w' !! q = w_fs w !! q)).
Proof.
  cbn zeta. intros E.
  exact (triple_done _ _ _ w r w'
           (triple_command_get_effect sg (w_fs w) (w_fds w) fuel
              cache_path cache_id dest)
           (conj eq_refl eq_refl) E).
Qed.

(** X13.  A run of [put] that ends leaves the descriptors as they were and
    answers 0 or 5.  With 0, the source is a file other than the staging
    path, and the files are as they were but for the shard directory, which
    exists, the staging path, which holds nothing, and the entry path,
    which holds the content of the source.  With 5, every path other than
    the shard directory and the staging path holds what it held. *)
Theorem command_put_effect (sg : bool) (fuel : nat)
    (cache_path cache_id source : string) (w : world) (r : Z) (w' : world) :
  let p := cache_id_to_path sg cache_path cache_id in
  command_put sg fuel cache_path cache_id source w = (Done r, w') ->
  w_fds w' = w_fds w
  /\ ((r = 0
       /\ exists d, w_fs w !! source = Some (File d)
                    /\ source <> tmpfilename_of p
                    /\ w_fs w' = put_result p d (w_fs w))
      \/ (r = RET_FILE_OPS
          /\ forall q, q <> dirfullpath p -> q <> tmpfilename_of p ->
                       w_fs w' !! q = w_fs w !! q)).
Proof.
  cbn zeta. intros E.
  exact (triple_done _ _ _ w r w'
           (triple_command_put_effect sg (w_fs w) (w_fds w) fuel
              cache_path cache_id source)
           (conj eq_refl eq_refl) E).
Qed.

(** X15.  [get] with the entry path itself as destination loses the entry:
    when the entry is a file and the environment fails no call, the run
    answers 5 and has unlinked the entry.  (An entry is a file stored
    under an identifier other than [.] and [..], whose entry paths name a
    directory.) *)
Theorem command_get_onto_entry (sg : bool) (fuel : nat) (d : list Byte.byte)
    (cache_path cache_id : string) (w : world) :
  let p := cache_id_to_path sg cache_path cache_id in
  dot_name cache_id = false ->
  undisturbed (w_env w) ->
  w_fs w !! fullpath p = Some (File d) ->
  exists w',
    command_get sg fuel cache_path cache_id (fullpath p) w
    = (Done RET_FILE_OPS, w')
    /\ w_fs w' = delete (fullpath p) (w_fs w)
    /\ w_fds w' = w_fds w.
Proof.
  cbn zeta. intros Hid Hu Hentry.
  destruct (total_command_get_onto_entry sg (w_fs w) (w_fds w) fuel
              (length (w_env w)) d cache_path cache_id Hid Hentry w)
    as (r & w' & E & _ & _ & -> & Hfs & Hfds); [by repeat split |].
  by exists w'.
Qed.


Lemma second_copy_delete_done (sg : bool) (cache_path cache_id : string)
    (w w1 : world) :
  SecondCopy.command_delete sg cache_path cache_id w = (Done 0, w1) ->
  w_fs w1 !! fullpath (cache_id_to_path sg cache_path cache_id) = None.
Proof.
  unfold SecondCopy.command_delete. cbn zeta.
  set (p := cache_id_to_path sg cache_path cache_id).
  unfold bind, sys_unlink, syscall.
  pose proof (unlink_sem_cases (fullpath p) (next_choice (w_env w)).1
                (w_fs w) (w_fds w)) as [_ Hcases].
  cbn zeta in Hcases.
  destruct (unlink_sem (fullpath p) (next_choice (w_env w)).1
              (w_fs w, w_fds w)).1 as [e | []].
  - by destruct (decide (e = ENOENT)).
  - intros [= <-]. destruct Hcases as [_ Hfs].
    pose proof (lookup_delete_eq (w_fs w) (fullpath p)) as Hl.
    rewrite <- Hfs in Hl. exact Hl.
Qed.

(** X17.  After a [delete] of the second copy that answered 0, a [get] of
    the same identifier, run on the files it left, is a miss and changes
    no file.  (For the identifiers [.] and [..] the entry path names a
    directory, which no [delete] unlinks.) *)
Theorem delete_then_get_misses (sg : bool) (fuel : nat)
    (cache_path cache_id dest : string) (w w1 w2 : world) :
  dot_name cache_id = false ->
  SecondCopy.command_delete sg cache_path cache_id w = (Done 0, w1) ->
  w_fs w2 = w_fs w1 ->
  (command_get sg fuel cache_path cache_id dest w2).1 = Done RET_MISS
  /\ w_fs (command_get sg fuel cache_path cache_id dest w2).2 = w_fs w1.
Proof.
  intros Hid Hdel Hfs.
  apply second_copy_delete_done in Hdel. rewrite <- Hfs in Hdel.
  rewrite <- node_at_plain in Hdel.
  2:{ pose proof (dot_dir_fullpath sg cache_path cache_id) as H.
      cbn zeta in H. by rewrite Hid in H. }
  unfold command_get, bind.
  destruct (sys_stat_absent _ w2 Hdel) as [e ->]. by split.
Qed.

(** X23.  [get] only reads the cache: throughout any run of [command_get],
    cut short or not, every path other than the destination keeps its
    content; from a state in which no descriptor is open for writing on
    such a path, every state recorded during the run, and the last one,
    hold there what was there at the start. *)
Theorem command_get_reads_only (sg : bool) (fuel : nat)
    (cache_path cache_id dest q : string) :
  q <> dest ->
  preserves q (command_get sg fuel cache_path cache_id dest).
Proof.
  intros Hq.
  assert (Hne : dest <> q) by (intros E; by apply Hq).
  assert (Hcopy : forall p, preserves q (command_get_copy fuel p dest)).
  { intros p. unfold command_get_copy.
    apply preserves_bind; [by apply preserves_cp |].
    intros c. destruct (c <? 0); [| apply preserves_ret].
    apply preserves_bind; [by apply preserves_syscall, frames_unlink |].
    intros _. apply preserves_ret. }
  unfold command_get. cbn zeta.
  apply preserves_bind; [apply preserves_syscall, frames_stat |].
  intros [e | nd]; [apply preserves_ret |].
  apply preserves_bind; [by apply preserves_syscall, frames_unlink |].
  intros [e | []]; [| apply Hcopy].
  destruct (decide (e = ENOENT)); [apply Hcopy | apply preserves_ret].
Qed.

(** ** Further properties of whole invocations *)

(** X18.  An invocation that returns from [main], in either copy of the
    program, exits with 0, 1, 2, 4, 5 or 6 and never with the
    internal-error code 3: the one way to [command_clean] passes the null
    pointer to [atoi] first.  With 1, the usage error, no system call was
    made: the world is as it was.  With 4, no file and no descriptor was
    touched: the lock file is not created under a cache root that is
    missing or is not a directory. *)
Theorem main_exit_codes (sg : bool) (fuel : nat) (argv : list string)
    (w : world) (r : Z) (w' : world) :
  SrcCopy.main sg fuel argv w = (Done r, w')
  \/ SecondCopy.main sg fuel argv w = (Done r, w') ->
  (r = 0 \/ r = RET_USAGE \/ r = RET_MISS \/ r = RET_NO_CACHE_DIR
   \/ r = RET_FILE_OPS \/ r = RET_LOCK)
  /\ r <> RET_INTERNAL
  /\ (r = RET_USAGE -> w' = w)
  /\ (r = RET_NO_CACHE_DIR -> w_fs w' = w_fs w /\ w_fds w' = w_fds w).
Proof.
  intros E.
  assert (H : (r = 0 \/ r = RET_USAGE \/ r = RET_MISS \/ r = RET_NO_CACHE_DIR
               \/ r = RET_FILE_OPS \/ r = RET_LOCK)
              /\ (r = RET_USAGE -> w' = w)
              /\ (r = RET_NO_CACHE_DIR ->
                  w_fs w' = w_fs w /\ w_fds w' = w_fds w)).
  { destruct E as [E | E].
    - apply (main_with_codes sg (SrcCopy.command_delete sg) fuel argv);
        [| exact E].
      intros cache_path cache_id P. apply src_copy_delete_codes.
    - apply (main_with_codes sg (SecondCopy.command_delete sg) fuel argv);
        [| exact E].
      intros cache_path cache_id P. apply second_copy_delete_codes. }
  destruct H as (Hr & Hu & Hn). split; [exact Hr |]. split; [| by split].
  destruct Hr as [-> | [-> | [-> | [-> | [-> | ->]]]]]; done.
Qed.

Lemma main_exit_codes_witness :
  let w := initial_world sample_fs [] in
  let argv := ["afilecache"; "/nowhere"; "get"; "k1"; "out"] in
  SecondCopy.main true 10 argv w
  = (Done RET_NO_CACHE_DIR, (SecondCopy.main true 10 argv w).2)
  /\ w_fs (SecondCopy.main true 10 argv w).2 = w_fs w.
Proof.
  cbn zeta.
  assert (H : SecondCopy.main true 10
                ["afilecache"; "/nowhere"; "get"; "k1"; "out"]
                (initial_world sample_fs [])
              = (Done RET_NO_CACHE_DIR,
                 (SecondCopy.main true 10
                    ["afilecache"; "/nowhere"; "get"; "k1"; "out"]
                    (initial_world sample_fs [])).2))
    by (vm_compute; reflexivity).
  split; [exact H |].
  destruct (main_exit_codes true 10 _ _ _ _ (or_intror H))
    as (_ & _ & _ & Hn).
  exact (proj1 (Hn eq_refl)).
Defined.








(** ** The properties above at work on the sample cache *)

Lemma command_get_effect_witness :
  let w := initial_world stored_fs [Short 3] in
  let w' := (command_get true 20 "/c" "k1" "/tmp/g" w).2 in
  command_get true 20 "/c" "k1" "/tmp/g" w = (Done 0, w')
  /\ w_fds w' = w_fds w.
Proof.
  cbn zeta.
  assert (H : command_get true 20 "/c" "k1" "/tmp/g"
                (initial_world stored_fs [Short 3])
              = (Done 0,
                 (command_get true 20 "/c" "k1" "/tmp/g"
                    (initial_world stored_fs [Short 3])).2))
    by (vm_compute; reflexivity).
  split; [exact H |].
  exact (proj1 (command_get_effect true 20 "/c" "k1" "/tmp/g" _ _ _ H)).
Defined.

Lemma command_put_effect_witness :
  let w := initial_world sample_fs [Proceed; Proceed; Failure EACCES] in
  let w' := (command_put true 20 "/c" "k1" "/tmp/f" w).2 in
  command_put true 20 "/c" "k1" "/tmp/f" w = (Done RET_FILE_OPS, w')
  /\ w_fds w' = w_fds w.
Proof.
  cbn zeta.
  assert (H : command_put true 20 "/c" "k1" "/tmp/f"
                (initial_world sample_fs [Proceed; Proceed; Failure EACCES])
              = (Done RET_FILE_OPS,
                 (command_put true 20 "/c" "k1" "/tmp/f"
                    (initial_world sample_fs
                       [Proceed; Proceed; Failure EACCES])).2))
    by (vm_compute; reflexivity).
  split; [exact H |].
  exact (proj1 (command_put_effect true 20 "/c" "k1" "/tmp/f" _ _ _ H)).
Defined.

Lemma preserves_command_put_elsewhere_witness :
  let p := cache_id_to_path true "/c" "k1" in
  "/tmp/f" <> dirfullpath p /\ "/tmp/f" <> tmpfilename_of p
  /\ "/tmp/f" <> fullpath p
  /\ preserves "/tmp/f" (command_put true 20 "/c" "k1" "/tmp/f").
Proof.
  cbn zeta.
  assert (H1 : "/tmp/f" <> dirfullpath (cache_id_to_path true "/c" "k1"))
    by (vm_compute; discriminate).
  assert (H2 : "/tmp/f" <> tmpfilename_of (cache_id_to_path true "/c" "k1"))
    by (vm_compute; discriminate).
  assert (H3 : "/tmp/f" <> fullpath (cache_id_to_path true "/c" "k1"))
    by (vm_compute; discriminate).
  split; [exact H1 |]. split; [exact H2 |]. split; [exact H3 |].
  exact (preserves_command_put_elsewhere true 20 "/c" "k1" "/tmp/f" "/tmp/f"
           H1 H2 H3).
Defined.

Lemma command_get_onto_entry_witness :
  let w := initial_world stored_fs [] in
  let p := cache_id_to_path true "/c" "k1" in
  dot_name "k1" = false
  /\ undisturbed (w_env w)
  /\ w_fs w !! fullpath p = Some (File (list_byte_of_string "payload"))
  /\ (command_get true 20 "/c" "k1" (fullpath p) w).1 = Done RET_FILE_OPS.
Proof.
  cbn zeta.
  assert (Hu : undisturbed (w_env (initial_world stored_fs [])))
    by constructor.
  assert (He : w_fs (initial_world stored_fs [])
               !! fullpath (cache_id_to_path true "/c" "k1")
               = Some (File (list_byte_of_string "payload")))
    by (vm_compute; reflexivity).
  split; [reflexivity |]. split; [exact Hu |]. split; [exact He |].
  destruct (command_get_onto_entry true 20 _ "/c" "k1" _ eq_refl Hu He)
    as (w' & -> & _).
  reflexivity.
Defined.

Lemma delete_then_get_misses_witness :
  let w := initial_world stored_fs [] in
  let w1 := (SecondCopy.command_delete true "/c" "k1" w).2 in
  dot_name "k1" = false
  /\ SecondCopy.command_delete true "/c" "k1" w = (Done 0, w1)
  /\ (command_get true 20 "/c" "k1" "/tmp/g" w1).1 = Done RET_MISS.
Proof.
  cbn zeta.
  assert (H : SecondCopy.command_delete true "/c" "k1"
                (initial_world stored_fs [])
              = (Done 0,
                 (SecondCopy.command_delete true "/c" "k1"
                    (initial_world stored_fs [])).2))
    by (vm_compute; reflexivity).
  split; [reflexivity |]. split; [exact H |].
  exact (proj1 (delete_then_get_misses true 20 "/c" "k1" "/tmp/g" _ _ _
                  eq_refl H eq_refl)).
Defined.

Lemma main_put_atomic_witness :
  let w := initial_world sample_fs [Proceed; Proceed; Proceed; Short 3] in
  let p := cache_id_to_path true "/c" "k1" in
  let argv := ["afilecache"; "/c"; "put"; "k1"; "/tmp/f"] in
  "k1" <> "." /\ "k1" <> ".."
  /\ w_fds w = ∅
  /\ put_outcome_at (tmpfilename_of p) (fullpath p) w
       (SecondCopy.main true 20 argv w).1 (SecondCopy.main true 20 argv w).2.
Proof.
  cbn zeta.
  assert (H : w_fds (initial_world sample_fs
                       [Proceed; Proceed; Proceed; Short 3]) = ∅)
    by reflexivity.
  assert (H1 : "k1" <> ".") by discriminate.
  assert (H2 : "k1" <> "..") by discriminate.
  split; [exact H1 |]. split; [exact H2 |]. split; [exact H |].
  exact (main_put_atomic true (SecondCopy.command_delete true) 20
           "afilecache" "/c" "k1" "/tmp/f" _ H1 H2 H).
Defined.

Lemma command_get_reads_only_witness :
  let q := fullpath (cache_id_to_path true "/c" "k1") in
  q <> "/tmp/g"
  /\ preserves q (command_get true 20 "/c" "k1" "/tmp/g").
Proof.
  cbn zeta.
  assert (H : fullpath (cache_id_to_path true "/c" "k1") <> "/tmp/g")
    by (vm_compute; discriminate).
  split; [exact H |].
  exact (command_get_reads_only true 20 "/c" "k1" "/tmp/g" _ H).
Defined.

